(** * A-star search engine of the pathfinding visualizer

    Shallow embedding of [src/algorithms/astar.ts] (the generator
    [astarGenerator], [heuristic], [getUnvisitedNeighbors] and
    [getNodesInShortestPathOrder]) together with the node shape of
    [src/types.ts] and the grid constructors of the Pathfinder component.

    Nodes are JavaScript objects that the engine mutates in place and that
    the grid, the open set and the [previousNode] links all alias.  The model
    therefore keeps an explicit store ([Heap]) from references to node
    records; the grid and the open set hold references. *)

From Stdlib Require Import ZArith List Bool Lia Arith Permutation Sorted.
From Stdlib Require Import FunctionalExtensionality.
From Equations Require Import Equations.
Import ListNotations.

Local Open Scope Z_scope.

(** ** Numbers

    The score fields are JavaScript numbers.  The engine only ever stores
    [0], a sum of absolute differences of coordinates, or a stored score plus
    one; the grid constructors store [Infinity].  A score is therefore an
    integer or [+Infinity], and a coordinate an integer; on integers of the
    size of a grid the arithmetic of doubles is exact. *)

Inductive num : Type :=
| Fin (z : Z)
| Infinity.

(** [a + b] on scores. *)
Definition num_add (a b : num) : num :=
  match a, b with
  | Fin x, Fin y => Fin (x + y)
  | _, _ => Infinity
  end.

(** [a < b] on scores. *)
Definition num_ltb (a b : num) : bool :=
  match a, b with
  | Fin x, Fin y => x <? y
  | Fin _, Infinity => true
  | Infinity, _ => false
  end.

(** [a <= b] on scores. *)
Definition num_leb (a b : num) : bool :=
  match a, b with
  | Fin x, Fin y => x <=? y
  | _, Infinity => true
  | Infinity, Fin _ => false
  end.

(** [a === Infinity]. *)
Definition isInfinity (a : num) : bool :=
  match a with Infinity => true | Fin _ => false end.

(** The result of a subtraction of two scores: [Infinity - Infinity] is
    [NaN], and a finite score minus [Infinity] is [-Infinity]. *)
Inductive diff : Type :=
| DNum (z : Z)
| DPosInf
| DNegInf
| DNaN.

Definition num_sub (a b : num) : diff :=
  match a, b with
  | Fin x, Fin y => DNum (x - y)
  | Fin _, Infinity => DNegInf
  | Infinity, Fin _ => DPosInf
  | Infinity, Infinity => DNaN
  end.

(** JavaScript truthiness of a number: [0] and [NaN] are falsy. *)
Definition truthy (d : diff) : bool :=
  match d with
  | DNum z => negb (z =? 0)
  | DPosInf | DNegInf => true
  | DNaN => false
  end.

(** [x || y] on numbers. *)
Definition js_or (x y : diff) : diff := if truthy x then x else y.

(** What [Array.prototype.sort] makes of a comparator's result [v]:
    [v < 0], [v > 0], and everything else (zero, and [NaN] which the sort
    reads as [+0]). *)
Definition sign (d : diff) : comparison :=
  match d with
  | DNum z => z ?= 0
  | DPosInf => Gt
  | DNegInf => Lt
  | DNaN => Eq
  end.

(** ** Nodes, store and grid ([src/types.ts]) *)

Definition ref := nat.

Record NodeType : Type := mkNode {
  row : Z;
  col : Z;
  isStart : bool;
  isFinish : bool;
  distance : num;
  isVisited : bool;
  isWall : bool;
  previousNode : option ref;
  fScore : num;
  gScore : num;
  hScore : num
}.

Definition GridType := list (list ref).

(** The store: every reference denotes an object. *)
Definition Heap := ref -> NodeType.

Definition upd (h : Heap) (r : ref) (n : NodeType) : Heap :=
  fun r' => if Nat.eqb r' r then n else h r'.

(** [a[i]] for a JavaScript array [a] and a number [i]: [undefined] unless
    [i] is an index of [a]. *)
Definition idx {A : Type} (a : list A) (i : Z) : option A :=
  if i <? 0 then None else nth_error a (Z.to_nat i).

(** [a.length]. *)
Definition len {A : Type} (a : list A) : Z := Z.of_nat (length a).

(** ** Step events *)

Inductive StepType : Type := visited | open | path.

Record AlgoStep : Type := mkStep {
  nodes : list ref;
  type : StepType
}.

(** ** [heuristic]: Manhattan distance *)

Definition heuristic (h : Heap) (node finishNode : ref) : Z :=
  Z.abs (row (h node) - row (h finishNode))
  + Z.abs (col (h node) - col (h finishNode)).

(** ** [getUnvisitedNeighbors]

    [None] stands for the [TypeError] that reading a property of
    [undefined] raises: [grid[row - 1]] or [grid[0]] missing, or a missing
    cell reaching the [filter] callback. *)

Definition cell (grid : GridType) (r c : Z) : option ref :=
  match idx grid r with
  | None => None
  | Some line => idx line c
  end.

Definition push_cell (grid : GridType) (r c : Z) (neighbors : list ref)
  : option (list ref) :=
  match cell grid r c with
  | None => None
  | Some n => Some (neighbors ++ [n])
  end.

Definition candidateNeighbors (h : Heap) (node : ref) (grid : GridType)
  : option (list ref) :=
  let r := row (h node) in
  let c := col (h node) in
  match (if r >? 0 then push_cell grid (r - 1) c [] else Some []) with
  | None => None
  | Some n1 =>
    match (if r <? len grid - 1 then push_cell grid (r + 1) c n1
           else Some n1) with
    | None => None
    | Some n2 =>
      match (if c >? 0 then push_cell grid r (c - 1) n2 else Some n2) with
      | None => None
      | Some n3 =>
        match idx grid 0 with
        | None => None
        | Some line0 =>
          if c <? len line0 - 1 then push_cell grid r (c + 1) n3
          else Some n3
        end
      end
    end
  end.

Definition getUnvisitedNeighbors (h : Heap) (node : ref) (grid : GridType)
  : option (list ref) :=
  match candidateNeighbors h node grid with
  | None => None
  | Some neighbors =>
    Some (filter (fun neighbor => negb (isVisited (h neighbor))) neighbors)
  end.

(** ** The open set's ordering

    [openSet.sort((a, b) => a.fScore - b.fScore || a.hScore - b.hScore)]:
    the comparator, and the stable sort of [Array.prototype.sort] as an
    insertion sort. *)

Definition comparator (h : Heap) (a b : ref) : diff :=
  js_or (num_sub (fScore (h a)) (fScore (h b)))
        (num_sub (hScore (h a)) (hScore (h b))).

Fixpoint insert (h : Heap) (x : ref) (l : list ref) : list ref :=
  match l with
  | [] => [x]
  | y :: l' =>
    match sign (comparator h x y) with
    | Gt => y :: insert h x l'
    | _ => x :: y :: l'
    end
  end.

Fixpoint sort (h : Heap) (l : list ref) : list ref :=
  match l with
  | [] => []
  | x :: l' => insert h x (sort h l')
  end.

(** ** The generator

    A generator object is its local state plus the point where it is
    suspended. *)

Inductive Pc : Type :=
| NotStarted                                      (* created, body not entered *)
| AfterStartYield                                 (* suspended at line 19 *)
| AfterVisitedYield (closestNode : ref)           (* suspended at line 36 *)
| AfterOpenYield (closestNode : ref) (rest : list ref)
                                                  (* suspended at line 57 *)
| Completed.

Record Gen : Type := mkGen {
  heap : Heap;
  openSet : list ref;
  pc : Pc
}.

(** Which statement ended the generator's body. *)
Inductive ExitSite : Type :=
| LoopExit           (* line 21: [openSet.length > 0] is false *)
| ShiftUndefined     (* line 26: [break] *)
| InfiniteDistance   (* line 32 *)
| GoalReached        (* line 38 *)
| AlreadyCompleted.  (* [next()] on a completed generator *)

Inductive IterResult : Type :=
| Yield (step : AlgoStep)
| Done (site : ExitSite)
| Throw.

Definition inspect {A : Type} (a : A) : { b : A | a = b } :=
  exist _ a eq_refl.

Section Engine.

Variable grid : GridType.
Variables startNode finishNode : ref.

Definition markVisited (n : NodeType) : NodeType :=
  mkNode (row n) (col n) (isStart n) (isFinish n) (distance n) true
         (isWall n) (previousNode n) (fScore n) (gScore n) (hScore n).

(** Lines 11-14: the start node's scores. *)
Definition initStart (h : Heap) : NodeType :=
  let n := h startNode in
  let g := Fin 0 in
  let hs := Fin (heuristic h startNode finishNode) in
  mkNode (row n) (col n) (isStart n) (isFinish n) (Fin 0) (isVisited n)
         (isWall n) (previousNode n) (num_add g hs) g hs.

(** Lines 46-50: the neighbor's fields after a relaxation from
    [closestNode] with [tentativeGScore]. *)
Definition relaxed (h : Heap) (closestNode neighbor : ref)
  (tentativeGScore : num) : NodeType :=
  let n := h neighbor in
  let hs := Fin (heuristic h neighbor finishNode) in
  mkNode (row n) (col n) (isStart n) (isFinish n) tentativeGScore
         (isVisited n) (isWall n) (Some closestNode)
         (num_add tentativeGScore hs) tentativeGScore hs.

(** [openSet.includes(neighbor)]: identity of objects. *)
Definition includes (os : list ref) (n : ref) : bool :=
  existsb (Nat.eqb n) os.

(** Lines 52-54. *)
Definition pushIfAbsent (os : list ref) (n : ref) : list ref :=
  if includes os n then os else os ++ [n].

(** Lines 21-36: the loop from its test to the next [yield] or [return].
    A wall taken from the open set is dropped and the loop goes on. *)
Equations? whileLoop (h : Heap) (os : list ref) : IterResult * Gen
  by wf (length os) lt :=
  whileLoop h [] := (Done LoopExit, mkGen h [] Completed);
  whileLoop h (x :: xs) with inspect (sort h (x :: xs)) := {
    | exist _ [] _ => (Done ShiftUndefined, mkGen h [] Completed)
    | exist _ (closestNode :: rest) e =>
      if isWall (h closestNode) then whileLoop h rest
      else if isInfinity (distance (h closestNode))
      then (Done InfiniteDistance, mkGen h rest Completed)
      else (Yield (mkStep [closestNode] visited),
            mkGen (upd h closestNode (markVisited (h closestNode)))
                  rest (AfterVisitedYield closestNode)) }.
Proof.
  assert (Li : forall y l, length (insert h y l) = S (length l)).
  { intros y l. induction l as [|z l IH]; simpl; [reflexivity|].
    destruct (sign (comparator h y z)); simpl; auto. }
  assert (Ls : forall l, length (sort h l) = length l).
  { intro l. induction l as [|z l IH]; simpl; [reflexivity|].
    rewrite Li, IH. reflexivity. }
  pose proof (Ls (x :: xs)) as L.
  simpl in L. rewrite e in L. simpl in L. lia.
Qed.

(** Lines 42-59: the [for] loop over the neighbors still to be looked at,
    up to its next [yield]; when the neighbors are used up, control is back
    at the test of the [while] loop. *)
Fixpoint forLoop (h : Heap) (os : list ref) (closestNode : ref)
  (neighbors : list ref) : IterResult * Gen :=
  match neighbors with
  | [] => whileLoop h os
  | neighbor :: rest =>
    let tentativeGScore := num_add (gScore (h closestNode)) (Fin 1) in
    if num_ltb tentativeGScore (gScore (h neighbor)) then
      (Yield (mkStep [neighbor] open),
       mkGen (upd h neighbor (relaxed h closestNode neighbor tentativeGScore))
             (pushIfAbsent os neighbor)
             (AfterOpenYield closestNode rest))
    else forLoop h os closestNode rest
  end.

(** [astarGenerator(grid, startNode, finishNode)]: the generator object,
    its body not yet entered. *)
Definition astarGenerator (h : Heap) : Gen := mkGen h [] NotStarted.

(** One call of [next()]. *)
Definition next (g : Gen) : IterResult * Gen :=
  match pc g with
  | NotStarted =>
    (Yield (mkStep [startNode] open),
     mkGen (upd (heap g) startNode (initStart (heap g)))
           [startNode] AfterStartYield)
  | AfterStartYield => whileLoop (heap g) (openSet g)
  | AfterVisitedYield closestNode =>
    if Nat.eqb closestNode finishNode
    then (Done GoalReached, mkGen (heap g) (openSet g) Completed)
    else
      match getUnvisitedNeighbors (heap g) closestNode grid with
      | None => (Throw, mkGen (heap g) (openSet g) Completed)
      | Some neighbors => forLoop (heap g) (openSet g) closestNode neighbors
      end
  | AfterOpenYield closestNode rest =>
    forLoop (heap g) (openSet g) closestNode rest
  | Completed => (Done AlreadyCompleted, g)
  end.

(** The driver's loop: [n] calls of [next()], with the results in order. *)
Fixpoint steps (n : nat) (g : Gen) : list IterResult * Gen :=
  match n with
  | O => ([], g)
  | S k =>
    let (r, g1) := next g in
    let (rs, g2) := steps k g1 in
    (r :: rs, g2)
  end.

End Engine.

(** ** [getNodesInShortestPathOrder]

    The loop follows [previousNode] until it reads [null]; on a cyclic chain
    it does not end, so the model counts the iterations it is allowed and
    answers [None] when they are used up. *)

Fixpoint pathLoop (fuel : nat) (h : Heap) (currentNode : option ref)
  (nodesInShortestPathOrder : list ref) : option (list ref) :=
  match currentNode with
  | None => Some nodesInShortestPathOrder
  | Some c =>
    match fuel with
    | O => None
    | S k => pathLoop k h (previousNode (h c)) (c :: nodesInShortestPathOrder)
    end
  end.

Definition getNodesInShortestPathOrder (fuel : nat) (h : Heap)
  (finishNode : ref) : option (list ref) :=
  pathLoop fuel h (Some finishNode) [].

(** ** Grid constructors (Pathfinder component)

    The values of the [constants] module (the size of the grid, the
    positions of the start and finish cells) are parameters here. *)

Section Pathfinder.

Variables START_NODE_ROW START_NODE_COL FINISH_NODE_ROW FINISH_NODE_COL : Z.

Definition createNode (c r : Z) : NodeType :=
  mkNode r c
         ((r =? START_NODE_ROW) && (c =? START_NODE_COL))
         ((r =? FINISH_NODE_ROW) && (c =? FINISH_NODE_COL))
         Infinity false false None Infinity Infinity Infinity.

Variables GRID_ROWS GRID_COLS : nat.

(** [getInitialGrid]: the nodes are allocated row by row, so that the cell
    at [(r, c)] is the object number [r * GRID_COLS + c]. *)
Definition getInitialGrid : GridType :=
  map (fun r => map (fun c => (r * GRID_COLS + c)%nat) (seq 0 GRID_COLS))
      (seq 0 GRID_ROWS).

(** The store after [getInitialGrid]. *)
Definition initialHeap : Heap :=
  fun n => createNode (Z.of_nat (n mod GRID_COLS)) (Z.of_nat (n / GRID_COLS)).

End Pathfinder.

(** The store with the [isWall] flag of [n] flipped, as the wall painting
    of [getNewGridWithWallToggled] leaves it for a cell that is neither the
    start nor the finish cell (those it leaves alone). *)
Definition flipWall (h : Heap) (n : ref) : Heap :=
  let node := h n in
  upd h n (mkNode (row node) (col node) (isStart node) (isFinish node)
                  (distance node) (isVisited node) (negb (isWall node))
                  (previousNode node) (fScore node) (gScore node)
                  (hScore node)).

(** [initGenerator]'s [cleanGrid]: every node copied with its search state
    cleared, position, role flags and wall flag kept.  The copies take the
    numbers of the originals. *)
Definition cleanNode (node : NodeType) : NodeType :=
  mkNode (row node) (col node) (isStart node) (isFinish node)
         Infinity false (isWall node) None Infinity Infinity Infinity.

Definition cleanGrid (h : Heap) : Heap := fun n => cleanNode (h n).

(** ** Vocabulary of the statements *)

(** [a] is not after [b] in the order of the open set: smaller [fScore],
    or the same [fScore] and an [hScore] that is not larger. *)
Definition lex_le (h : Heap) (a b : ref) : Prop :=
  num_ltb (fScore (h a)) (fScore (h b)) = true
  \/ (fScore (h a) = fScore (h b)
      /\ num_leb (hScore (h a)) (hScore (h b)) = true).

(** The states a run goes through, from the generator's creation on a
    store [h0]. *)
Inductive Reachable (grid : GridType) (startNode finishNode : ref)
  (h0 : Heap) : Gen -> Prop :=
| reach_created :
    Reachable grid startNode finishNode h0 (astarGenerator h0)
| reach_next g :
    Reachable grid startNode finishNode h0 g ->
    Reachable grid startNode finishNode h0
              (snd (next grid startNode finishNode g)).

(** What one pass through lines 21-36 can come to, on store [h] and open
    set [os]: the walls [dropped] on the way, then the end of the loop, the
    defensive return, or the visit of [c]. *)
Inductive WhileOut (h : Heap) (os : list ref) : IterResult * Gen -> Prop :=
| wo_exit :
    (forall n, In n os -> isWall (h n) = true) ->
    WhileOut h os (Done LoopExit, mkGen h [] Completed)
| wo_infinite c rest dropped :
    Permutation os (dropped ++ c :: rest) ->
    (forall w, In w dropped -> isWall (h w) = true) ->
    isWall (h c) = false ->
    distance (h c) = Infinity ->
    WhileOut h os (Done InfiniteDistance, mkGen h rest Completed)
| wo_visit c rest dropped :
    Permutation os (dropped ++ c :: rest) ->
    (forall w, In w dropped -> isWall (h w) = true) ->
    isWall (h c) = false ->
    isInfinity (distance (h c)) = false ->
    (forall m, In m (c :: rest) -> lex_le h c m) ->
    WhileOut h os
      (Yield (mkStep [c] visited),
       mkGen (upd h c (markVisited (h c))) rest (AfterVisitedYield c)).

(** What the rest of the [for] loop can come to: the relaxation of the
    first neighbor whose [gScore] is above the tentative one, or, with no
    such neighbor left, whatever the main loop comes to. *)
Inductive ForOut (finishNode : ref) (h : Heap) (os : list ref) (c : ref)
  (neighbors : list ref) : IterResult * Gen -> Prop :=
| fo_relax pre n post :
    neighbors = pre ++ n :: post ->
    (forall m, In m pre ->
       num_ltb (num_add (gScore (h c)) (Fin 1)) (gScore (h m)) = false) ->
    num_ltb (num_add (gScore (h c)) (Fin 1)) (gScore (h n)) = true ->
    ForOut finishNode h os c neighbors
      (Yield (mkStep [n] open),
       mkGen (upd h n (relaxed finishNode h c n
                         (num_add (gScore (h c)) (Fin 1))))
             (pushIfAbsent os n) (AfterOpenYield c post))
| fo_fall out :
    (forall m, In m neighbors ->
       num_ltb (num_add (gScore (h c)) (Fin 1)) (gScore (h m)) = false) ->
    WhileOut h os out ->
    ForOut finishNode h os c neighbors out.

(** A node the engine is expanding: marked visited, not a wall, with a
    finite cost from the start. *)
Definition expanding (h : Heap) (c : ref) : Prop :=
  isVisited (h c) = true /\ isWall (h c) = false
  /\ exists z, gScore (h c) = Fin z /\ 0 <= z.

(** The fields the engine never writes keep the values of [h0]. *)
Definition Static (h0 h : Heap) : Prop :=
  forall n,
    row (h n) = row (h0 n) /\ col (h n) = col (h0 n)
    /\ isWall (h n) = isWall (h0 n).

(** The members of the open set have a finite, non-negative [gScore], and
    [distance] mirrors it. *)
Definition OpenFinite (h : Heap) (os : list ref) : Prop :=
  forall n, In n os ->
    exists z, gScore (h n) = Fin z /\ 0 <= z /\ distance (h n) = Fin z.

(** The neighbors still to be looked at are unvisited cells of the grid. *)
Definition Pending (grid : GridType) (h : Heap) (rest : list ref) : Prop :=
  forall n, In n rest -> isVisited (h n) = false /\ In n (concat grid).

(** The objects the engine can get hold of: the start node and the cells
    of the grid. *)
Definition Member (grid : GridType) (s : ref) (n : ref) : Prop :=
  n = s \/ In n (concat grid).

(** What holds of every state of every run, whatever the store [h0] the
    generator was created on. *)
Record Inv0 (grid : GridType) (s : ref) (h0 : Heap) (g : Gen) : Prop := {
  inv_static : Static h0 (heap g);
  inv_open : OpenFinite (heap g) (openSet g);
  inv_nodup : NoDup (openSet g);
  inv_member : forall n, In n (openSet g) -> Member grid s n;
  inv_pc :
    match pc g with
    | NotStarted => openSet g = [] /\ forall n, heap g n = h0 n
    | AfterStartYield => True
    | AfterVisitedYield c => expanding (heap g) c /\ Member grid s c
    | AfterOpenYield c rest =>
      expanding (heap g) c /\ Member grid s c /\ Pending grid (heap g) rest
    | Completed => True
    end
}.

(** The neighbors a suspended generator has still to look at, with the
    node being expanded: those left over by the last relaxation, or, right
    after a visit, the unvisited neighbors of the node visited. *)
Definition pendingOf (grid : GridType) (f : ref) (g : Gen)
  : option (ref * list ref) :=
  match pc g with
  | AfterVisitedYield c =>
    if Nat.eqb c f then None
    else match getUnvisitedNeighbors (heap g) c grid with
         | Some l => Some (c, l)
         | None => None
         end
  | AfterOpenYield c rest => Some (c, rest)
  | _ => None
  end.

(** None of the neighbors [l] of [p] is relaxed: the tentative score is not
    below theirs. *)
Definition skipped (h : Heap) (p : ref) (l : list ref) : Prop :=
  forall m, In m l ->
    num_ltb (num_add (gScore (h p)) (Fin 1)) (gScore (h m)) = false.

Definition Skips (grid : GridType) (f : ref) (g : Gen) : Prop :=
  forall p l, pendingOf grid f g = Some (p, l) -> skipped (heap g) p l.

(** What one call of [next()] does to the generator [g], by the statement
    that ends the call. *)
Inductive Effect (grid : GridType) (s f : ref) (g : Gen)
  : IterResult -> Gen -> Prop :=
| eff_init :
    pc g = NotStarted ->
    Effect grid s f g (Yield (mkStep [s] open))
      (mkGen (upd (heap g) s (initStart s f (heap g))) [s] AfterStartYield)
| eff_visit c os' dropped :
    pc g <> NotStarted ->
    pc g <> AfterVisitedYield f ->
    Skips grid f g ->
    Permutation (openSet g) (dropped ++ c :: os') ->
    (forall w, In w dropped -> isWall (heap g w) = true) ->
    (forall m, In m (c :: os') -> lex_le (heap g) c m) ->
    isWall (heap g c) = false ->
    (exists z, gScore (heap g c) = Fin z /\ 0 <= z) ->
    Effect grid s f g (Yield (mkStep [c] visited))
      (mkGen (upd (heap g) c (markVisited (heap g c))) os'
             (AfterVisitedYield c))
| eff_relax p n pre post :
    pendingOf grid f g = Some (p, pre ++ n :: post) ->
    skipped (heap g) p pre ->
    expanding (heap g) p ->
    isVisited (heap g n) = false ->
    In n (concat grid) ->
    num_ltb (num_add (gScore (heap g p)) (Fin 1)) (gScore (heap g n)) = true ->
    Effect grid s f g (Yield (mkStep [n] open))
      (mkGen (upd (heap g) n
                  (relaxed f (heap g) p n
                           (num_add (gScore (heap g p)) (Fin 1))))
             (pushIfAbsent (openSet g) n) (AfterOpenYield p post))
| eff_exit :
    pc g <> NotStarted ->
    pc g <> AfterVisitedYield f ->
    Skips grid f g ->
    (forall n, In n (openSet g) -> isWall (heap g n) = true) ->
    Effect grid s f g (Done LoopExit) (mkGen (heap g) [] Completed)
| eff_goal :
    pc g = AfterVisitedYield f ->
    Effect grid s f g (Done GoalReached)
      (mkGen (heap g) (openSet g) Completed)
| eff_already :
    pc g = Completed ->
    Effect grid s f g (Done AlreadyCompleted)
      (mkGen (heap g) (openSet g) Completed)
| eff_throw c :
    pc g = AfterVisitedYield c ->
    getUnvisitedNeighbors (heap g) c grid = None ->
    Effect grid s f g Throw (mkGen (heap g) (openSet g) Completed).

(** The generator's state after [n] calls of [next()] on a fresh run, and
    the result of the call that follows. *)
Definition stateAfter (grid : GridType) (s f : ref) (h0 : Heap) (n : nat)
  : Gen :=
  snd (steps grid s f n (astarGenerator h0)).

Definition resultOf (grid : GridType) (s f : ref) (h0 : Heap) (n : nat)
  : IterResult :=
  fst (next grid s f (stateAfter grid s f h0 n)).

(** The fields that a relaxation writes. *)
Definition searchFields (n : NodeType) : num * num * num * option ref :=
  (gScore n, hScore n, fScore n, previousNode n).

(** ** Scenarios *)

(** 3 x 3, start (0,0), goal (2,2), column 1 walled. *)
Definition blockedGrid : GridType := getInitialGrid 3%nat 3%nat.
Definition blockedHeap : Heap :=
  flipWall (flipWall (flipWall (initialHeap 0 0 2 2 3%nat) 1%nat) 4%nat)
           7%nat.

(** 5 x 5, start (0,0), goal (4,4), no walls. *)
Definition openGrid : GridType := getInitialGrid 5%nat 5%nat.
Definition openHeap : Heap := initialHeap 0 0 4 4 5%nat.

(** 3 x 3 with the start cell walled: a store the component's wall
    painting does not produce, handed to the engine as it is. *)
Definition walledStartHeap : Heap :=
  flipWall (initialHeap 0 0 2 2 3%nat) 0%nat.

(** The open 5 x 5 store, with the cell right of the start left at a stale
    finite score by an earlier run. *)
Definition staleHeap : Heap :=
  upd openHeap 1%nat
      (mkNode 0 1 false false (Fin 5) false false None (Fin 12) (Fin 5)
              (Fin 7)).

(** 3 x 3 with the goal cell walled, likewise. *)
Definition walledGoalHeap : Heap :=
  flipWall (initialHeap 0 0 2 2 3%nat) 8%nat.

(** ** Termination measure

    Over the cells of the grid: how many scores are still infinite, and the
    sum of the finite ones; then the length of the open set. *)

Definition infWeight (x : num) : nat :=
  match x with Infinity => 1%nat | Fin _ => 0%nat end.

Definition finWeight (x : num) : nat :=
  match x with Fin z => Z.to_nat z | Infinity => 0%nat end.

Definition weightSum (w : num -> nat) (h : Heap) (cells : list ref) : nat :=
  list_sum (map (fun n => w (gScore (h n))) cells).

(** The elements of an array with their indexes. *)
Definition indexed {A : Type} (l : list A) : list (nat * A) :=
  combine (seq 0 (length l)) l.

(** The node at column [fst cn] of row [r] carries that position. *)
Definition placed (h : Heap) (r : nat) (cn : nat * ref) : bool :=
  (row (h (snd cn)) =? Z.of_nat r) && (col (h (snd cn)) =? Z.of_nat (fst cn)).

(** A grid as the component builds it: at least one row, all rows of the
    length of the first, and the node held at row [r], column [c] carrying
    [r] and [c] in its [row] and [col] fields. *)
Definition wellFormed (h : Heap) (grid : GridType) : bool :=
  match grid with
  | [] => false
  | line0 :: _ =>
    forallb (fun line => Nat.eqb (length line) (length line0)) grid
    && forallb (fun rl => forallb (placed h (fst rl)) (indexed (snd rl)))
               (indexed grid)
  end.

(** The number of columns: the length of the first row. *)
Definition width (grid : GridType) : Z :=
  match grid with
  | [] => 0
  | line0 :: _ => len line0
  end.

(** ** Paths

    [Connected h grid s n]: a path of cells that are not walls, each next to
    the one before (up, down, left or right), leads from the start node [s]
    to [n]. *)
Inductive Connected (h : Heap) (grid : GridType) (s : ref) : ref -> Prop :=
| conn_start : isWall (h s) = false -> Connected h grid s s
| conn_step n m r c r' c' :
    Connected h grid s n ->
    cell grid r c = Some n -> cell grid r' c' = Some m ->
    Z.abs (r' - r) + Z.abs (c' - c) = 1 ->
    isWall (h m) = false ->
    Connected h grid s m.

(** [n] is a cell next to the position that the fields of [p] name. *)
Definition adjacentTo (h : Heap) (grid : GridType) (p n : ref) : Prop :=
  exists r c, cell grid r c = Some n
              /\ Z.abs (r - row (h p)) + Z.abs (c - col (h p)) = 1.

(** What the engine touches lies on a path from the start. *)
Record InvC (grid : GridType) (s : ref) (h0 : Heap) (g : Gen) : Prop := {
  c_open : forall n, In n (openSet g) -> isWall (h0 n) = false ->
                     Connected h0 grid s n;
  c_pc :
    match pc g with
    | AfterVisitedYield c => Connected h0 grid s c
    | AfterOpenYield c rest =>
      Connected h0 grid s c /\ forall n, In n rest -> adjacentTo h0 grid c n
    | _ => True
    end
}.

(** ** The run on an open grid *)

(** No cell of the grid is a wall. *)
Definition noWalls (h : Heap) (grid : GridType) : bool :=
  forallb (fun n => negb (isWall (h n))) (concat grid).

(** The search state of the cells is cleared: none visited, every [gScore]
    infinite, no [previousNode]. *)
Definition unsearched (h : Heap) (grid : GridType) : bool :=
  forallb (fun n => negb (isVisited (h n)) && isInfinity (gScore (h n))
                    && match previousNode (h n) with
                       | None => true
                       | Some _ => false
                       end)
          (concat grid).

Section OpenGrid.

Variable grid : GridType.
Variables s f : ref.
Variable h0 : Heap.

(** Manhattan distance to the goal, by the positions of [h0]. *)
Definition toGoal (n : ref) : Z := heuristic h0 n f.

(** The distance to the goal of the node being expanded; one more than the
    start's before any node is. *)
Definition level (g : Gen) : Z :=
  match pc g with
  | AfterVisitedYield c => toGoal c
  | AfterOpenYield c _ => toGoal c
  | _ => toGoal s + 1
  end.

(** Where the score [t] of [n] comes from: [n] is the start node, or its
    [previousNode] is a visited cell with score [t - 1]. *)
Definition Linked (h : Heap) (n : ref) (t : Z) : Prop :=
  (n = s /\ t = 0 /\ previousNode (h n) = None)
  \/ (exists p, previousNode (h n) = Some p /\ In p (concat grid)
                /\ isVisited (h p) = true /\ gScore (h p) = Fin (t - 1)).

(** A cell one step closer to the goal than the level [m] is in the open
    set with the score of a shortest path, or is among the neighbors [l]
    still to be looked at. *)
Definition Frontier (h : Heap) (os : list ref) (m : Z) (l : list ref) : Prop :=
  (exists n, In n os /\ gScore (h n) = Fin (toGoal s - m + 1)
             /\ toGoal n = m - 1)
  \/ (exists n, In n l /\ toGoal n = m - 1).

(** The invariant of the run on an open grid: the visited cells lie on
    shortest paths toward the goal, with their exact cost from the start; the
    cells of the open set carry the cost of a path through a visited cell. *)
Record Active (g : Gen) : Prop := {
  a_visited : forall n,
    In n (concat grid) -> isVisited (heap g n) = true ->
    gScore (heap g n) = Fin (toGoal s - toGoal n)
    /\ level g <= toGoal n <= toGoal s
    /\ Linked (heap g) n (toGoal s - toGoal n);
  a_unvisited : forall n,
    In n (concat grid) -> isVisited (heap g n) = false ->
    gScore (heap g n) = Infinity
    \/ (In n (openSet g)
        /\ exists t,
             gScore (heap g n) = Fin t
             /\ hScore (heap g n) = Fin (toGoal n)
             /\ fScore (heap g n) = Fin (t + toGoal n)
             /\ toGoal s <= t + toGoal n
             /\ (t + toGoal n = toGoal s -> level g - 1 <= toGoal n)
             /\ Linked (heap g) n t);
  a_open : forall n,
    In n (openSet g) ->
    In n (concat grid) /\ isVisited (heap g n) = false;
  a_pc :
    match pc g with
    | AfterStartYield => In s (openSet g) /\ gScore (heap g s) = Fin 0
    | AfterVisitedYield c => isVisited (heap g c) = true /\ In c (concat grid)
    | AfterOpenYield c rest =>
      c <> f /\ isVisited (heap g c) = true /\ In c (concat grid)
      /\ (forall n, In n rest -> adjacentTo h0 grid c n)
      /\ Frontier (heap g) (openSet g) (toGoal c) rest
    | _ => True
    end
}.

Definition InvA (g : Gen) : Prop :=
  match pc g with
  | NotStarted | Completed => True
  | _ => Active g
  end.

End OpenGrid.

(** ** Further vocabulary *)

(** The fields of a node that say where and what it is. *)
Definition identity (n : NodeType) : Z * Z * bool * bool * bool :=
  (row n, col n, isStart n, isFinish n, isWall n).

(** The scores of the members of the open set agree with one another:
    [hScore] is the Manhattan distance to the goal, [fScore] the sum of
    [gScore] and [hScore]. *)
Definition OpenScores (f : ref) (h : Heap) (os : list ref) : Prop :=
  forall n, In n os ->
    hScore (h n) = Fin (heuristic h n f)
    /\ fScore (h n) = num_add (gScore (h n)) (hScore (h n)).

(** [l] follows the [previousNode] links: its first node has the link
    [prev], every other node the node before it. *)
Fixpoint linked (h : Heap) (prev : option ref) (l : list ref) : Prop :=
  match l with
  | [] => True
  | x :: l' => previousNode (h x) = prev /\ linked h (Some x) l'
  end.

(** What [k] steps along the [previousNode] links lead to. *)
Fixpoint ancestor (h : Heap) (cur : option ref) (k : nat) : option ref :=
  match k with
  | O => cur
  | S k' =>
    match cur with
    | None => None
    | Some c => ancestor h (previousNode (h c)) k'
    end
  end.

(** ** Shortest paths on a grid with walls *)

(** [PathLen h grid s n k]: a path of [k] steps leads from the start node
    [s] to [n] over cells that are not walls, each step to the cell above,
    below, left or right. *)
Inductive PathLen (h : Heap) (grid : GridType) (s : ref)
  : ref -> nat -> Prop :=
| pl_start : isWall (h s) = false -> PathLen h grid s s 0
| pl_step n m r c r' c' k :
    PathLen h grid s n k ->
    cell grid r c = Some n -> cell grid r' c' = Some m ->
    Z.abs (r' - r) + Z.abs (c' - c) = 1 ->
    isWall (h m) = false ->
    PathLen h grid s m (S k).

(** A list of cells that are not walls, each next to the one before. *)
Inductive Walk (h : Heap) (grid : GridType) : list ref -> Prop :=
| walk_one n : isWall (h n) = false -> Walk h grid [n]
| walk_cons a b rest :
    isWall (h a) = false -> adjacentTo h grid a b ->
    Walk h grid (b :: rest) -> Walk h grid (a :: b :: rest).

(** 3 x 3, start (0,0), goal (0,2), the cells (0,1) and (1,1) walled: the
    only way to the goal leads around the wall through the bottom row. *)
Definition detourGrid : GridType := getInitialGrid 3%nat 3%nat.
Definition detourHeap : Heap :=
  flipWall (flipWall (initialHeap 0 0 0 2 3%nat) 1%nat) 4%nat.

(** A store with two nodes that name each other as [previousNode]. *)
Definition cyclicHeap : Heap :=
  upd (upd openHeap 0%nat
           (mkNode 0 0 true false (Fin 1) true false (Some 1%nat)
                   (Fin 9) (Fin 1) (Fin 8)))
      1%nat
      (mkNode 0 1 false false (Fin 1) true false (Some 0%nat)
              (Fin 8) (Fin 1) (Fin 7)).

Section GridSearchInvariant.

Variable grid : GridType.
Variables s f : ref.
Variable h0 : Heap.

(** Where the score [t] of [n] comes from: [n] is the start node, or its
    [previousNode] is a visited cell next to it with score [t - 1]. *)
Definition Hop (h : Heap) (n : ref) (t : Z) : Prop :=
  (n = s /\ t = 0 /\ previousNode (h n) = None)
  \/ (exists p, previousNode (h n) = Some p /\ In p (concat grid)
                /\ isVisited (h p) = true /\ gScore (h p) = Fin (t - 1)
                /\ adjacentTo h0 grid p n).

(** The invariant of a run on a grid with walls: the score of a visited
    cell is the length of a path to it and of no longer one than any other;
    the score of an open cell is one more than that of the visited neighbor
    it was last relaxed from; and every edge out of a visited cell has been
    relaxed or is still pending. *)
Record Sound (g : Gen) : Prop := {
  s_visited : forall n,
    In n (concat grid) -> isVisited (heap g n) = true ->
    isWall (h0 n) = false
    /\ exists t,
         0 <= t /\ gScore (heap g n) = Fin t /\ Hop (heap g) n t
         /\ PathLen h0 grid s n (Z.to_nat t)
         /\ forall k, PathLen h0 grid s n k -> t <= Z.of_nat k;
  s_unvisited : forall n,
    In n (concat grid) -> isVisited (heap g n) = false ->
    (gScore (heap g n) = Infinity /\ previousNode (heap g n) = None)
    \/ exists t,
         0 <= t /\ gScore (heap g n) = Fin t
         /\ hScore (heap g n) = Fin (heuristic h0 n f)
         /\ fScore (heap g n) = Fin (t + heuristic h0 n f)
         /\ Hop (heap g) n t
         /\ (isWall (h0 n) = false -> In n (openSet g));
  s_open : forall n,
    In n (openSet g) ->
    In n (concat grid) /\ isVisited (heap g n) = false;
  s_edges : forall x y,
    In x (concat grid) -> isVisited (heap g x) = true ->
    adjacentTo h0 grid x y ->
    isVisited (heap g y) = false -> isWall (h0 y) = false ->
    (exists tx ty, gScore (heap g x) = Fin tx /\ gScore (heap g y) = Fin ty
                   /\ ty <= tx + 1)
    \/ pc g = AfterVisitedYield x
    \/ (exists rest, pc g = AfterOpenYield x rest /\ In y rest);
  s_start :
    isWall (h0 s) = false ->
    isVisited (heap g s) = true
    \/ (In s (openSet g) /\ gScore (heap g s) = Fin 0);
  s_goal :
    In f (concat grid) -> isVisited (heap g f) = true ->
    pc g = AfterVisitedYield f;
  s_pc :
    match pc g with
    | AfterOpenYield c rest => forall n, In n rest -> adjacentTo h0 grid c n
    | _ => True
    end
}.

Definition InvS (g : Gen) : Prop :=
  match pc g with
  | NotStarted | Completed => True
  | _ => Sound g
  end.

End GridSearchInvariant.

(** ** Wall painting ([getNewGridWithWallToggled])

    [grid.slice()] copies the outer array only: the rows of the copy are
    the row arrays of the grid passed in, and the assignment to
    [newGrid[row][col]] writes into one of them.  The store therefore holds
    the row arrays beside the nodes, each under a reference of its own, and
    a grid is the list of the references of its rows; the copy of the outer
    array is, as a value, the list it was copied from.  [fresh] is the
    number that the next node object created takes. *)

Record Store : Type := mkStore {
  nodeAt : Heap;
  rowAt : ref -> list ref;
  fresh : ref
}.

Definition RowGrid := list ref.

(** The grid as the engine reads it: the rows looked up in the store. *)
Definition cellsOf (st : Store) (grid : RowGrid) : GridType :=
  map (rowAt st) grid.

(** [a[i] = x] for an index [i] of the array [a] (the only case that
    [getNewGridWithWallToggled] reaches: the element at [i] has been read
    before, and a missing one ends the call with a [TypeError]). *)
Fixpoint assign {A : Type} (a : list A) (i : nat) (x : A) : list A :=
  match a, i with
  | [], _ => []
  | _ :: a', O => x :: a'
  | y :: a', S i' => y :: assign a' i' x
  end.

(** [{...node, isWall: !node.isWall}]. *)
Definition toggled (node : NodeType) : NodeType :=
  mkNode (row node) (col node) (isStart node) (isFinish node)
         (distance node) (isVisited node) (negb (isWall node))
         (previousNode node) (fScore node) (gScore node) (hScore node).

(** [None] stands for the [TypeError] of reading [col] of a missing row, or
    [isStart] of a missing cell. *)
Definition getNewGridWithWallToggled (st : Store) (grid : RowGrid)
  (row col : Z) : option (Store * RowGrid) :=
  let newGrid := grid in
  match idx newGrid row with
  | None => None
  | Some r =>
    match idx (rowAt st r) col with
    | None => None
    | Some n =>
      let node := nodeAt st n in
      if isStart node || isFinish node then Some (st, grid)
      else
        let newNode := fresh st in
        Some (mkStore (upd (nodeAt st) newNode (toggled node))
                      (fun r' => if Nat.eqb r' r
                                 then assign (rowAt st r) (Z.to_nat col) newNode
                                 else rowAt st r')
                      (S (fresh st)),
              newGrid)
    end
  end.

(** The stores that wall painting leads to: [handleMouseDown] and
    [handleMouseEnter] each replace the grid by the result of one toggle;
    a toggle that throws leaves the state as it was. *)
Inductive Painted (st0 : Store) (grid0 : RowGrid)
  : Store -> RowGrid -> Prop :=
| painted_none : Painted st0 grid0 st0 grid0
| painted_toggle st grid row col st' grid' :
    Painted st0 grid0 st grid ->
    getNewGridWithWallToggled st grid row col = Some (st', grid') ->
    Painted st0 grid0 st' grid'.

(** The store and the grid after [getInitialGrid]: row [r] is the row
    array number [r], its cells the nodes [r * GRID_COLS + c]. *)
Definition initialStore (sr sc fr fc : Z) (R C : nat) : Store :=
  mkStore (initialHeap sr sc fr fc C)
          (fun r => map (fun c => (r * C + c)%nat) (seq 0 C))
          (R * C)%nat.

Definition initialRows (R : nat) : RowGrid := seq 0 R.

(** The 3 x 3 grid, start (0,0), finish (2,2), as [getInitialGrid] builds
    it, and the store after a wall has been painted on its middle cell. *)
Definition paintStore : Store := initialStore 0 0 2 2 3%nat 3%nat.
Definition paintRows : RowGrid := initialRows 3%nat.
Definition paintedStore : Store :=
  match getNewGridWithWallToggled paintStore paintRows 1 1 with
  | Some (st, _) => st
  | None => paintStore
  end.

(** What painting keeps of a grid. *)
Record Ready (sr sc fr fc : Z) (st : Store) (grid : RowGrid) : Prop := {
  r_wf : wellFormed (nodeAt st) (cellsOf st grid) = true;
  r_fresh : forall n, In n (concat (cellsOf st grid)) -> (n < fresh st)%nat;
  r_roles : forall n, In n (concat (cellsOf st grid)) ->
    isStart (nodeAt st n)
    = ((row (nodeAt st n) =? sr) && (col (nodeAt st n) =? sc))
    /\ isFinish (nodeAt st n)
       = ((row (nodeAt st n) =? fr) && (col (nodeAt st n) =? fc));
  r_ends : forall n, In n (concat (cellsOf st grid)) ->
    isStart (nodeAt st n) || isFinish (nodeAt st n) = true ->
    isWall (nodeAt st n) = false;
  r_unsearched : unsearched (nodeAt st) (cellsOf st grid) = true
}.

(** * Properties *)

(** ** The store *)

Lemma upd_same h r n : upd h r n r = n.
Proof. unfold upd. rewrite Nat.eqb_refl. reflexivity. Qed.

Lemma upd_other h r n r' : r' <> r -> upd h r n r' = h r'.
Proof.
  intro H. unfold upd. destruct (Nat.eqb_spec r' r); congruence.
Qed.

(** ** The order of the open set *)

Ltac lex_solve :=
  solve [ left; first [lia | reflexivity]
        | right; split;
          [ first [reflexivity | f_equal; lia] | first [lia | reflexivity] ] ].

Lemma sign_not_gt h a b : sign (comparator h a b) <> Gt <-> lex_le h a b.
Proof.
  unfold comparator, lex_le, js_or.
  destruct (fScore (h a)) as [fa|], (fScore (h b)) as [fb|],
           (hScore (h a)) as [ha|], (hScore (h b)) as [hb|];
    simpl; try destruct (Z.eqb_spec (fa - fb) 0); simpl;
    rewrite ?Z.compare_gt_iff, ?Z.ltb_lt, ?Z.leb_le;
    split; intros H;
    try (exfalso; apply H; reflexivity);
    try discriminate;
    try (destruct H as [H|[H1 H]]; try discriminate;
         try injection H1 as H1; try lia);
    try (intro; lia);
    try lex_solve.
Qed.

Lemma sign_gt_flip h a b : sign (comparator h a b) = Gt -> lex_le h b a.
Proof.
  unfold comparator, lex_le, js_or.
  destruct (fScore (h a)) as [fa|], (fScore (h b)) as [fb|],
           (hScore (h a)) as [ha|], (hScore (h b)) as [hb|];
    simpl; try destruct (Z.eqb_spec (fa - fb) 0); simpl;
    rewrite ?Z.compare_gt_iff, ?Z.ltb_lt, ?Z.leb_le;
    intros H; try discriminate; lex_solve.
Qed.

Lemma lex_le_trans h a b c : lex_le h a b -> lex_le h b c -> lex_le h a c.
Proof.
  unfold lex_le.
  destruct (fScore (h a)) as [fa|], (fScore (h b)) as [fb|],
           (fScore (h c)) as [fc|],
           (hScore (h a)) as [ha|], (hScore (h b)) as [hb|],
           (hScore (h c)) as [hc|];
    simpl; rewrite ?Z.ltb_lt, ?Z.leb_le;
    intros [H1|[E1 H1]] [H2|[E2 H2]];
    try discriminate; try injection E1 as E1; try injection E2 as E2;
    lex_solve.
Qed.

Lemma lex_le_refl h a : lex_le h a a.
Proof.
  right. split; [reflexivity|].
  destruct (hScore (h a)); simpl; [apply Z.leb_refl|reflexivity].
Qed.

Lemma insert_perm h x l : Permutation (x :: l) (insert h x l).
Proof.
  induction l as [|y l IH]; simpl; [apply Permutation_refl|].
  destruct (sign (comparator h x y)); try apply Permutation_refl.
  eapply Permutation_trans; [apply perm_swap|].
  apply perm_skip, IH.
Qed.

Lemma sort_perm h l : Permutation l (sort h l).
Proof.
  induction l as [|x l IH]; simpl; [apply perm_nil|].
  eapply Permutation_trans; [apply perm_skip, IH|apply insert_perm].
Qed.

Lemma insert_sorted h x l :
  StronglySorted (lex_le h) l -> StronglySorted (lex_le h) (insert h x l).
Proof.
  induction 1 as [|y l Hs IH Hy]; simpl.
  - constructor; [constructor|constructor].
  - destruct (sign (comparator h x y)) eqn:E.
    + assert (Hxy : lex_le h x y) by (apply sign_not_gt; congruence).
      constructor; [constructor; assumption|].
      constructor; [assumption|].
      eapply Forall_impl; [|exact Hy].
      intros z Hz. eapply lex_le_trans; eassumption.
    + assert (Hxy : lex_le h x y) by (apply sign_not_gt; congruence).
      constructor; [constructor; assumption|].
      constructor; [assumption|].
      eapply Forall_impl; [|exact Hy].
      intros z Hz. eapply lex_le_trans; eassumption.
    + constructor; [assumption|].
      apply sign_gt_flip in E.
      eapply Permutation_Forall; [apply insert_perm|].
      constructor; assumption.
Qed.

Lemma sort_sorted h l : StronglySorted (lex_le h) (sort h l).
Proof.
  induction l as [|x l IH]; simpl; [constructor|].
  apply insert_sorted, IH.
Qed.

Lemma sort_head_min h l c rest :
  sort h l = c :: rest -> forall m, In m l -> lex_le h c m.
Proof.
  intros E m Hm.
  pose proof (sort_sorted h l) as S. rewrite E in S.
  apply StronglySorted_inv in S. destruct S as [_ F].
  apply (Permutation_in _ (sort_perm h l)) in Hm. rewrite E in Hm.
  destruct Hm as [->|Hm]; [apply lex_le_refl|].
  rewrite Forall_forall in F. auto.
Qed.

Lemma sort_nonempty h x xs : sort h (x :: xs) <> [].
Proof.
  intro E. pose proof (Permutation_length (sort_perm h (x :: xs))) as L.
  rewrite E in L. discriminate.
Qed.

(** ** One iteration of the main loop *)

Lemma whileLoop_eq h os :
  whileLoop h os =
  match os with
  | [] => (Done LoopExit, mkGen h [] Completed)
  | _ :: _ =>
    match sort h os with
    | [] => (Done ShiftUndefined, mkGen h [] Completed)
    | closestNode :: rest =>
      if isWall (h closestNode) then whileLoop h rest
      else if isInfinity (distance (h closestNode))
      then (Done InfiniteDistance, mkGen h rest Completed)
      else (Yield (mkStep [closestNode] visited),
            mkGen (upd h closestNode (markVisited (h closestNode)))
                  rest (AfterVisitedYield closestNode))
    end
  end.
Proof.
  destruct os as [|x xs]; simp whileLoop; [reflexivity|].
  generalize (inspect (sort h (x :: xs))).
  intros [s e]. destruct s; simp whileLoop.
  - rewrite e. reflexivity.
  - rewrite e. reflexivity.
Qed.

Lemma whileLoop_out h os : WhileOut h os (whileLoop h os).
Proof.
  remember (length os) as k eqn:Hk.
  revert os Hk. induction k as [k IH] using lt_wf_ind. intros os Hk.
  rewrite whileLoop_eq. destruct os as [|x xs].
  - apply wo_exit. intros n [].
  - destruct (sort h (x :: xs)) as [|c rest] eqn:E.
    + exfalso. exact (sort_nonempty _ _ _ E).
    + pose proof (sort_perm h (x :: xs)) as P. rewrite E in P.
      pose proof (sort_head_min h _ _ _ E) as M.
      destruct (isWall (h c)) eqn:W.
      * assert (L : (length rest < k)%nat).
        { apply Permutation_length in P. simpl in P, Hk. lia. }
        specialize (IH _ L rest eq_refl).
        inversion IH as [A Ho|c' rest' d Pp Dw Wc Dc Ho|c' rest' d Pp Dw Wc Dc Mc Ho].
        -- apply wo_exit. intros n Hn.
           apply (Permutation_in _ P) in Hn. destruct Hn as [<-|Hn]; auto.
        -- apply (wo_infinite h _ c' rest' (c :: d)); auto.
           ++ eapply Permutation_trans; [exact P|]. simpl. apply perm_skip, Pp.
           ++ intros w [<-|Hw]; auto.
        -- apply (wo_visit h _ c' rest' (c :: d)); auto.
           ++ eapply Permutation_trans; [exact P|]. simpl. apply perm_skip, Pp.
           ++ intros w [<-|Hw]; auto.
      * destruct (isInfinity (distance (h c))) eqn:D.
        -- apply (wo_infinite h _ c rest []); simpl; try assumption.
           ++ intros w [].
           ++ destruct (distance (h c)); [discriminate|reflexivity].
        -- apply (wo_visit h _ c rest []); simpl; try assumption.
           ++ intros w [].
           ++ intros m Hm. apply M. apply (Permutation_in _ (Permutation_sym P)).
              exact Hm.
Qed.

Lemma forLoop_out finishNode h os c neighbors :
  ForOut finishNode h os c neighbors (forLoop finishNode h os c neighbors).
Proof.
  induction neighbors as [|n rest IH]; simpl.
  - apply fo_fall; [intros m []|apply whileLoop_out].
  - destruct (num_ltb (num_add (gScore (h c)) (Fin 1)) (gScore (h n))) eqn:L.
    + apply (fo_relax finishNode h os c _ [] n rest); auto. intros m [].
    + inversion IH as [pre n' post E Hpre Hn Ho|out Hall Hw Ho].
      * rewrite E. apply (fo_relax finishNode h os c _ (n :: pre) n' post); auto.
        intros m [<-|Hm]; auto.
      * apply fo_fall; auto. intros m [<-|Hm]; auto.
Qed.

(** C6: each iteration of the main loop takes out of the open set a member
    with the least [fScore] and, among those, the least [hScore]; a wall
    taken out is dropped without an event and the loop goes on with the
    rest. *)
Theorem pop_takes_minimum h os :
  os <> [] ->
  exists closestNode rest,
    sort h os = closestNode :: rest
    /\ Permutation os (closestNode :: rest)
    /\ (forall m, In m os -> lex_le h closestNode m)
    /\ whileLoop h os =
       (if isWall (h closestNode) then whileLoop h rest
        else if isInfinity (distance (h closestNode))
        then (Done InfiniteDistance, mkGen h rest Completed)
        else (Yield (mkStep [closestNode] visited),
              mkGen (upd h closestNode (markVisited (h closestNode)))
                    rest (AfterVisitedYield closestNode))).
Proof.
  intro Hne. destruct os as [|x xs]; [congruence|].
  destruct (sort h (x :: xs)) as [|c rest] eqn:E.
  - exfalso. exact (sort_nonempty _ _ _ E).
  - exists c, rest. repeat split.
    + rewrite <- E. apply sort_perm.
    + apply (sort_head_min _ _ _ _ E).
    + rewrite whileLoop_eq, E. reflexivity.
Qed.

Lemma pop_takes_minimum_witness :
  [1%nat; 0%nat] <> []
  /\ exists closestNode rest,
       sort staleHeap [1%nat; 0%nat] = closestNode :: rest
       /\ Permutation [1%nat; 0%nat] (closestNode :: rest)
       /\ (forall m, In m [1%nat; 0%nat] -> lex_le staleHeap closestNode m)
       /\ whileLoop staleHeap [1%nat; 0%nat] =
          (if isWall (staleHeap closestNode) then whileLoop staleHeap rest
           else if isInfinity (distance (staleHeap closestNode))
           then (Done InfiniteDistance, mkGen staleHeap rest Completed)
           else (Yield (mkStep [closestNode] visited),
                 mkGen (upd staleHeap closestNode
                            (markVisited (staleHeap closestNode)))
                       rest (AfterVisitedYield closestNode))).
Proof.
  split; [discriminate|].
  apply (pop_takes_minimum staleHeap [1%nat; 0%nat]). discriminate.
Defined.

(** ** Neighbors *)

Lemma idx_In {A} (a : list A) i x : idx a i = Some x -> In x a.
Proof.
  unfold idx. destruct (i <? 0); [discriminate|]. apply nth_error_In.
Qed.

Lemma cell_In grid r c n : cell grid r c = Some n -> In n (concat grid).
Proof.
  unfold cell. destruct (idx grid r) as [line|] eqn:E; [|discriminate].
  intro H. apply in_concat. exists line. split; eauto using idx_In.
Qed.

Lemma push_cell_In grid r c acc l :
  push_cell grid r c acc = Some l ->
  forall n, In n l -> In n acc \/ cell grid r c = Some n.
Proof.
  unfold push_cell. destruct (cell grid r c) as [x|]; [|discriminate].
  intros [= <-] n Hn. apply in_app_or in Hn.
  destruct Hn as [Hn|[<- |[]]]; auto.
Qed.

(** The candidates are cells of the grid, at a position next to the one
    the node's own fields name. *)
Lemma candidateNeighbors_spec h node grid l :
  candidateNeighbors h node grid = Some l ->
  forall n, In n l ->
    exists r c, cell grid r c = Some n
      /\ ((r = row (h node) - 1 /\ c = col (h node))
          \/ (r = row (h node) + 1 /\ c = col (h node))
          \/ (r = row (h node) /\ c = col (h node) - 1)
          \/ (r = row (h node) /\ c = col (h node) + 1)).
Proof.
  unfold candidateNeighbors.
  set (r := row (h node)). set (c := col (h node)).
  destruct (if r >? 0 then _ else _) as [n1|] eqn:E1; [|discriminate].
  destruct (if r <? len grid - 1 then _ else _) as [n2|] eqn:E2;
    [|discriminate].
  destruct (if c >? 0 then _ else _) as [n3|] eqn:E3; [|discriminate].
  destruct (idx grid 0) as [line0|]; [|discriminate].
  intros E4 n Hn.
  assert (H1 : forall n, In n n1 -> cell grid (r - 1) c = Some n).
  { destruct (r >? 0).
    - intros k Hk. destruct (push_cell_In _ _ _ _ _ E1 k Hk) as [[]|]; auto.
    - injection E1 as <-. intros k []. }
  assert (H2 : forall n, In n n2 ->
              In n n1 \/ cell grid (r + 1) c = Some n).
  { destruct (r <? len grid - 1).
    - intros k Hk. apply (push_cell_In _ _ _ _ _ E2 k Hk).
    - injection E2 as <-. auto. }
  assert (H3 : forall n, In n n3 ->
              In n n2 \/ cell grid r (c - 1) = Some n).
  { destruct (c >? 0).
    - intros k Hk. apply (push_cell_In _ _ _ _ _ E3 k Hk).
    - injection E3 as <-. auto. }
  assert (H4 : In n n3 \/ cell grid r (c + 1) = Some n).
  { destruct (c <? len line0 - 1).
    - apply (push_cell_In _ _ _ _ _ E4 n Hn).
    - injection E4 as <-. auto. }
  destruct H4 as [H4|H4]; [|exists r, (c + 1); auto 6].
  destruct (H3 _ H4) as [H3'|H3']; [|exists r, (c - 1); auto 6].
  destruct (H2 _ H3') as [H2'|H2']; [|exists (r + 1), c; auto 6].
  exists (r - 1), c. auto 6.
Qed.

Lemma getUnvisitedNeighbors_spec h node grid l :
  getUnvisitedNeighbors h node grid = Some l ->
  forall n, In n l -> isVisited (h n) = false /\ In n (concat grid).
Proof.
  unfold getUnvisitedNeighbors.
  destruct (candidateNeighbors h node grid) as [cs|] eqn:E; [|discriminate].
  intros [= <-] n Hn. apply filter_In in Hn. destruct Hn as [Hn Hv].
  split; [destruct (isVisited (h n)); [discriminate|reflexivity]|].
  destruct (candidateNeighbors_spec _ _ _ _ E n Hn) as (r & c & Hc & _).
  eapply cell_In; eassumption.
Qed.

(** ** The invariant of every run *)

Lemma perm_split_In {A} (os d : list A) c rest :
  Permutation os (d ++ c :: rest) ->
  In c os /\ (forall n, In n rest -> In n os).
Proof.
  intro P. split.
  - apply (Permutation_in _ (Permutation_sym P)).
    apply in_or_app. right. left. reflexivity.
  - intros n Hn. apply (Permutation_in _ (Permutation_sym P)).
    apply in_or_app. right. right. exact Hn.
Qed.

Lemma perm_split_NoDup {A} (os d : list A) c rest :
  Permutation os (d ++ c :: rest) -> NoDup os ->
  NoDup rest /\ ~ In c rest.
Proof.
  intros P N. apply (Permutation_NoDup P) in N.
  apply NoDup_app_remove_l in N. inversion N; auto.
Qed.

Lemma Static_markVisited h0 h c :
  Static h0 h -> Static h0 (upd h c (markVisited (h c))).
Proof.
  intros S n. unfold upd. destruct (Nat.eqb_spec n c) as [-> |]; simpl; apply S.
Qed.

Lemma Static_relaxed f h0 h c n t :
  Static h0 h -> Static h0 (upd h n (relaxed f h c n t)).
Proof.
  intros S m. unfold upd. destruct (Nat.eqb_spec m n) as [-> |]; simpl; apply S.
Qed.

Lemma OpenFinite_markVisited h os c rest :
  OpenFinite h os -> (forall n, In n rest -> In n os) ->
  OpenFinite (upd h c (markVisited (h c))) rest.
Proof.
  intros O I n Hn. unfold upd.
  destruct (Nat.eqb_spec n c) as [-> |]; simpl; apply O, I, Hn.
Qed.

Lemma includes_In os n : includes os n = true <-> In n os.
Proof.
  unfold includes. rewrite existsb_exists. split.
  - intros (x & Hx & E). apply Nat.eqb_eq in E. subst. exact Hx.
  - intro H. exists n. split; [exact H|apply Nat.eqb_refl].
Qed.

Lemma pushIfAbsent_In os n m :
  In m (pushIfAbsent os n) <-> In m os \/ m = n.
Proof.
  unfold pushIfAbsent. destruct (includes os n) eqn:E.
  - apply includes_In in E. split; [auto|]. intros [H| ->]; auto.
  - rewrite in_app_iff. simpl. split.
    + intros [H|[<- |[]]]; auto.
    + intros [H| ->]; auto.
Qed.

Lemma pushIfAbsent_NoDup os n : NoDup os -> NoDup (pushIfAbsent os n).
Proof.
  intro N. unfold pushIfAbsent. destruct (includes os n) eqn:E; [exact N|].
  apply NoDup_app; [exact N|repeat constructor; intros []|].
  intros x Hx [<- |[]].
  apply includes_In in Hx. congruence.
Qed.

Lemma inv0_while grid s h0 h os out :
  Static h0 h -> OpenFinite h os -> NoDup os ->
  (forall n, In n os -> Member grid s n) ->
  WhileOut h os out -> Inv0 grid s h0 (snd out).
Proof.
  intros S O N M W.
  destruct W as [A|c rest d P Dw Wc Dc|c rest d P Dw Wc Dc Mc]; simpl.
  - constructor; simpl; auto.
    + intros n [].
    + constructor.
    + intros n [].
  - destruct (perm_split_In _ _ _ _ P) as [Hc Hr].
    destruct (perm_split_NoDup _ _ _ _ P N) as [Nr _].
    constructor; simpl; auto. intros n Hn. auto.
  - destruct (perm_split_In _ _ _ _ P) as [Hc Hr].
    destruct (perm_split_NoDup _ _ _ _ P N) as [Nr _].
    constructor; simpl; auto.
    + apply Static_markVisited, S.
    + eapply OpenFinite_markVisited; eauto.
    + split; [|auto]. unfold expanding. rewrite upd_same. simpl.
      destruct (O c Hc) as (z & Hz & Hz0 & _). eauto.
Qed.

Lemma inv0_for grid s f h0 h os c nbrs out :
  Static h0 h -> OpenFinite h os -> NoDup os ->
  (forall n, In n os -> Member grid s n) ->
  expanding h c -> Member grid s c -> Pending grid h nbrs ->
  ForOut f h os c nbrs out -> Inv0 grid s h0 (snd out).
Proof.
  intros S O N M X Mc Pn F.
  destruct F as [pre n post E Hpre Hn|out Hall W];
    [|eapply inv0_while; eassumption].
  destruct X as (Xv & Xw & z & Xg & Xz).
  assert (Hin : In n nbrs) by (rewrite E; apply in_or_app; right; left; auto).
  destruct (Pn n Hin) as [Hnv Hng].
  assert (Hcn : c <> n) by congruence.
  rewrite Xg in *. simpl in *.
  constructor; simpl.
  - apply Static_relaxed, S.
  - intros m Hm. apply pushIfAbsent_In in Hm. unfold upd.
    destruct (Nat.eqb_spec m n) as [-> |Hmn]; simpl.
    + exists (z + 1). repeat split; auto; lia.
    + destruct Hm as [Hm|Hm]; [apply O, Hm|contradiction].
  - apply pushIfAbsent_NoDup, N.
  - intros m Hm. apply pushIfAbsent_In in Hm.
    destruct Hm as [Hm| ->]; [auto|right; exact Hng].
  - split; [|split; [exact Mc|]].
    + unfold expanding. rewrite upd_other by exact Hcn. eauto.
    + intros m Hm.
      assert (Hm' : In m nbrs)
        by (rewrite E; apply in_or_app; right; right; exact Hm).
      destruct (Pn m Hm') as [Hmv Hmg]. split; [|exact Hmg].
      unfold upd. destruct (Nat.eqb_spec m n) as [-> |]; simpl; assumption.
Qed.

Lemma inv0_next grid s f h0 g :
  Inv0 grid s h0 g -> Inv0 grid s h0 (snd (next grid s f g)).
Proof.
  intros [S O N M Hpc]. unfold next.
  destruct (pc g) as [| |c|c rest|] eqn:Epc.
  - destruct Hpc as [Ho Hh]. simpl. constructor; simpl; auto.
    + intros n. unfold upd. destruct (Nat.eqb_spec n s) as [-> |]; simpl;
        apply S.
    + intros n [<- |[]]. rewrite upd_same. simpl. exists 0.
      repeat split; auto; lia.
    + repeat constructor. intros [].
    + intros n [<- |[]]. left. reflexivity.
  - eapply inv0_while; eauto using whileLoop_out.
  - destruct Hpc as [X Mc]. destruct (Nat.eqb c f).
    + simpl. constructor; simpl; auto.
    + destruct (getUnvisitedNeighbors (heap g) c grid) as [nbrs|] eqn:En.
      * eapply inv0_for; eauto using forLoop_out.
        intros n Hn. eapply getUnvisitedNeighbors_spec; eassumption.
      * simpl. constructor; simpl; auto.
  - destruct Hpc as (X & Mc & Pn). eapply inv0_for; eauto using forLoop_out.
  - simpl. constructor; auto. rewrite Epc. exact I.
Qed.

Lemma inv0_created grid s h0 : Inv0 grid s h0 (astarGenerator h0).
Proof.
  constructor; simpl; auto.
  - intro n. auto.
  - intros n [].
  - constructor.
  - intros n [].
Qed.

Lemma reachable_inv0 grid s f h0 g :
  Reachable grid s f h0 g -> Inv0 grid s h0 g.
Proof.
  induction 1; [apply inv0_created|apply inv0_next; assumption].
Qed.

(** ** Runs *)

Lemma steps_S grid s f n g :
  steps grid s f (S n) g =
  (fst (steps grid s f n g) ++ [fst (next grid s f (snd (steps grid s f n g)))],
   snd (next grid s f (snd (steps grid s f n g)))).
Proof.
  revert g. induction n as [|n IH]; intro g.
  - simpl. destruct (next grid s f g). reflexivity.
  - change (steps grid s f (S (S n)) g)
      with (let (r, g1) := next grid s f g in
            let (rs, g2) := steps grid s f (S n) g1 in (r :: rs, g2)).
    destruct (next grid s f g) as [r g1] eqn:E.
    rewrite IH. simpl. rewrite E.
    destruct (steps grid s f n g1). reflexivity.
Qed.

Lemma stateAfter_S grid s f h0 n :
  stateAfter grid s f h0 (S n) =
  snd (next grid s f (stateAfter grid s f h0 n)).
Proof. unfold stateAfter. rewrite steps_S. reflexivity. Qed.

Lemma next_eq grid s f h0 n :
  next grid s f (stateAfter grid s f h0 n) =
  (resultOf grid s f h0 n, stateAfter grid s f h0 (S n)).
Proof.
  rewrite stateAfter_S. unfold resultOf.
  destruct (next grid s f (stateAfter grid s f h0 n)). reflexivity.
Qed.

Lemma stateAfter_reachable grid s f h0 n :
  Reachable grid s f h0 (stateAfter grid s f h0 n).
Proof.
  induction n as [|n IH].
  - apply reach_created.
  - rewrite stateAfter_S. apply reach_next, IH.
Qed.

Lemma stateAfter_inv0 grid s f h0 n :
  Inv0 grid s h0 (stateAfter grid s f h0 n).
Proof. eapply reachable_inv0, stateAfter_reachable. Qed.

(** The ways a call of [next()] can go, with the loops' outcomes spelled
    out. *)
Lemma next_out grid s f g :
  match pc g with
  | NotStarted =>
    next grid s f g =
    (Yield (mkStep [s] open),
     mkGen (upd (heap g) s (initStart s f (heap g))) [s] AfterStartYield)
  | AfterStartYield =>
    WhileOut (heap g) (openSet g) (next grid s f g)
  | AfterVisitedYield c =>
    (c = f /\ next grid s f g
              = (Done GoalReached, mkGen (heap g) (openSet g) Completed))
    \/ (c <> f /\ getUnvisitedNeighbors (heap g) c grid = None
        /\ next grid s f g = (Throw, mkGen (heap g) (openSet g) Completed))
    \/ (c <> f /\ exists nbrs,
          getUnvisitedNeighbors (heap g) c grid = Some nbrs
          /\ ForOut f (heap g) (openSet g) c nbrs (next grid s f g))
  | AfterOpenYield c rest =>
    ForOut f (heap g) (openSet g) c rest (next grid s f g)
  | Completed => next grid s f g = (Done AlreadyCompleted, g)
  end.
Proof.
  unfold next. destruct (pc g) as [| |c|c rest|]; auto.
  - apply whileLoop_out.
  - destruct (Nat.eqb_spec c f) as [->|Hcf]; [left; auto|right].
    destruct (getUnvisitedNeighbors (heap g) c grid) as [nbrs|] eqn:E.
    + right. split; [exact Hcf|]. exists nbrs. split; [reflexivity|].
      apply forLoop_out.
    + left. auto.
  - apply forLoop_out.
Qed.

Lemma pendingOf_started grid f g p l :
  pendingOf grid f g = Some (p, l) -> pc g <> NotStarted.
Proof. unfold pendingOf. intros H E. rewrite E in H. discriminate. Qed.

Lemma pendingOf_not_goal grid f g p l :
  pendingOf grid f g = Some (p, l) -> pc g <> AfterVisitedYield f.
Proof.
  unfold pendingOf. intros H E. rewrite E, Nat.eqb_refl in H. discriminate.
Qed.

Lemma while_effect grid s f g out :
  pc g <> NotStarted -> pc g <> AfterVisitedYield f ->
  OpenFinite (heap g) (openSet g) -> Skips grid f g ->
  WhileOut (heap g) (openSet g) out -> Effect grid s f g (fst out) (snd out).
Proof.
  intros Hpc Hnf O Sk W.
  destruct W as [A|c rest d P Dw Wc Dc|c rest d P Dw Wc Dc Mc]; simpl.
  - apply eff_exit; assumption.
  - destruct (perm_split_In _ _ _ _ P) as [Hc _].
    destruct (O c Hc) as (z & _ & _ & Hd). congruence.
  - destruct (perm_split_In _ _ _ _ P) as [Hc _].
    destruct (O c Hc) as (z & Hg & Hz & _).
    apply (eff_visit grid s f g c rest d); eauto.
Qed.

Lemma for_effect grid s f g c nbrs out :
  pendingOf grid f g = Some (c, nbrs) ->
  OpenFinite (heap g) (openSet g) ->
  expanding (heap g) c -> Pending grid (heap g) nbrs ->
  ForOut f (heap g) (openSet g) c nbrs out ->
  Effect grid s f g (fst out) (snd out).
Proof.
  intros Hp O X Pn F.
  destruct F as [pre n post E Hpre Hn|out Hall W].
  - assert (Hin : In n nbrs)
      by (rewrite E; apply in_or_app; right; left; auto).
    simpl. rewrite E in Hp. apply (eff_relax grid s f g c n pre post); auto;
      apply Pn, Hin.
  - apply while_effect; auto.
    + eapply pendingOf_started; eassumption.
    + eapply pendingOf_not_goal; eassumption.
    + intros p l Hpl. rewrite Hp in Hpl. injection Hpl as <- <-. exact Hall.
Qed.

Lemma next_effect grid s f h0 g :
  Inv0 grid s h0 g ->
  Effect grid s f g (fst (next grid s f g)) (snd (next grid s f g)).
Proof.
  intros [S O N M Hpc]. pose proof (next_out grid s f g) as H.
  destruct (pc g) as [| |c|c rest|] eqn:Epc.
  - rewrite H. simpl. apply eff_init. exact Epc.
  - apply while_effect; [congruence|congruence|assumption| |assumption].
    intros p l Hpl. unfold pendingOf in Hpl. rewrite Epc in Hpl. discriminate.
  - destruct Hpc as [X Mc].
    destruct H as [[-> H]|[(Hcf & En & H)|(Hcf & nbrs & En & H)]].
    + rewrite H. simpl. apply eff_goal. exact Epc.
    + rewrite H. simpl. apply (eff_throw grid s f g c); assumption.
    + eapply for_effect; eauto.
      * unfold pendingOf. rewrite Epc, En.
        destruct (Nat.eqb_spec c f); [contradiction|reflexivity].
      * intros n Hn. eapply getUnvisitedNeighbors_spec; eassumption.
  - destruct Hpc as (X & Mc & Pn). eapply for_effect; eauto.
    unfold pendingOf. rewrite Epc. reflexivity.
  - rewrite H. simpl. destruct g as [h os p]. simpl in *. subst p.
    apply (eff_already grid s f (mkGen h os Completed)). reflexivity.
Qed.

Lemma step_effect grid s f h0 n :
  Effect grid s f (stateAfter grid s f h0 n)
         (resultOf grid s f h0 n) (stateAfter grid s f h0 (S n)).
Proof.
  pose proof (next_effect grid s f h0 _ (stateAfter_inv0 grid s f h0 n)) as E.
  rewrite next_eq in E. exact E.
Qed.

Lemma visit_event grid s f h0 i ns :
  resultOf grid s f h0 i = Yield (mkStep ns visited) ->
  exists c z, ns = [c]
    /\ gScore (heap (stateAfter grid s f h0 (S i)) c) = Fin z
    /\ 0 <= z
    /\ isWall (heap (stateAfter grid s f h0 (S i)) c) = false
    /\ isWall (h0 c) = false.
Proof.
  pose proof (step_effect grid s f h0 i) as E.
  pose proof (inv_static _ _ _ _ (stateAfter_inv0 grid s f h0 i)) as St.
  intros R. rewrite R in E.
  inversion E as [|c os' d Hpc Hnf Sk P Dw Mn Hw (z & Hg & Hz) Hr Hs| | | | |].
  exists c, z. simpl. rewrite upd_same. simpl.
  repeat split; auto.
  destruct (St c) as (_ & _ & W). congruence.
Qed.

Lemma never_infinite_distance grid s f h0 i :
  resultOf grid s f h0 i <> Done InfiniteDistance.
Proof.
  pose proof (step_effect grid s f h0 i) as E.
  intro R. rewrite R in E. inversion E.
Qed.

(** C8: a VISITED event is for a node that is not a wall and whose
    [gScore] is finite when it is visited; the return of line 32, for a
    selected node at infinite distance, is never taken. *)
Theorem visited_finite_never_wall grid s f h0 i :
  resultOf grid s f h0 i <> Done InfiniteDistance
  /\ forall ns, resultOf grid s f h0 i = Yield (mkStep ns visited) ->
       exists c z, ns = [c]
         /\ gScore (heap (stateAfter grid s f h0 (S i)) c) = Fin z
         /\ 0 <= z
         /\ isWall (heap (stateAfter grid s f h0 (S i)) c) = false
         /\ isWall (h0 c) = false.
Proof.
  split; [apply never_infinite_distance|apply visit_event].
Qed.

Lemma visited_finite_never_wall_witness :
  resultOf openGrid 0%nat 24%nat openHeap 1
  = Yield (mkStep [0%nat] visited)
  /\ exists c z, [0%nat] = [c]
       /\ gScore (heap (stateAfter openGrid 0%nat 24%nat openHeap 2) c) = Fin z
       /\ 0 <= z
       /\ isWall (heap (stateAfter openGrid 0%nat 24%nat openHeap 2) c) = false
       /\ isWall (openHeap c) = false.
Proof.
  split; [vm_compute; reflexivity|].
  apply (proj2 (visited_finite_never_wall openGrid 0%nat 24%nat openHeap 1)).
  vm_compute. reflexivity.
Defined.

(** ** Frame properties of a call *)

Lemma pc_after_not_NotStarted grid s f h0 n :
  pc (stateAfter grid s f h0 (S n)) <> NotStarted.
Proof.
  pose proof (step_effect grid s f h0 n) as E.
  inversion E; simpl; congruence.
Qed.

Lemma heap_before_start grid s f h0 n :
  pc (stateAfter grid s f h0 n) = NotStarted ->
  forall m, heap (stateAfter grid s f h0 n) m = h0 m.
Proof.
  intro Hpc. pose proof (inv_pc _ _ _ _ (stateAfter_inv0 grid s f h0 n)) as H.
  rewrite Hpc in H. apply H.
Qed.

(** C9: a call of [next()] leaves a finite [gScore] as it is, except the
    call that relaxes the node, which lowers it strictly. *)
Theorem gScore_only_decreases grid s f h0 i n a :
  gScore (h0 s) = Infinity ->
  gScore (heap (stateAfter grid s f h0 i) n) = Fin a ->
  (resultOf grid s f h0 i = Yield (mkStep [n] open)
   /\ exists b,
        gScore (heap (stateAfter grid s f h0 (S i)) n) = Fin b /\ b < a)
  \/ (resultOf grid s f h0 i <> Yield (mkStep [n] open)
      /\ gScore (heap (stateAfter grid s f h0 (S i)) n) = Fin a).
Proof.
  intros Hs Ha.
  pose proof (step_effect grid s f h0 i) as E.
  set (g := stateAfter grid s f h0 i) in *.
  inversion E as [Hpc Hr Hg|c os' d Hpc Hnf Sk P Dw Mn Hw Hz Hr Hg
                  |p n' pre post Hpd Hsk X Hv Hin Hlt Hr Hg
                  |Hpc Hnf Sk Hall Hr Hg|Hpc Hr Hg|Hpc Hr Hg|c Hpc Hn Hr Hg];
    simpl; try (right; split; [discriminate|exact Ha]).
  - right. destruct (Nat.eq_dec n s) as [-> |Hns].
    + rewrite (heap_before_start grid s f h0 i Hpc) in Ha. congruence.
    + split; [congruence|]. rewrite upd_other by exact Hns. exact Ha.
  - right. split; [discriminate|]. unfold upd.
    destruct (Nat.eqb_spec n c) as [-> |]; simpl; exact Ha.
  - destruct (Nat.eq_dec n n') as [<- |Hnn].
    + left. split; [reflexivity|]. rewrite upd_same. simpl.
      rewrite Ha in Hlt.
      destruct (num_add (gScore (heap g p)) (Fin 1)) as [b|];
        [|discriminate].
      exists b. split; [reflexivity|]. apply Z.ltb_lt. exact Hlt.
    + right. split; [congruence|]. rewrite upd_other by exact Hnn. exact Ha.
Qed.

Lemma gScore_only_decreases_witness :
  gScore (staleHeap 0%nat) = Infinity
  /\ gScore (heap (stateAfter openGrid 0%nat 24%nat staleHeap 3) 1%nat) = Fin 5
  /\ ((resultOf openGrid 0%nat 24%nat staleHeap 3
       = Yield (mkStep [1%nat] open)
       /\ exists b,
            gScore (heap (stateAfter openGrid 0%nat 24%nat staleHeap 4) 1%nat)
            = Fin b /\ b < 5)
      \/ (resultOf openGrid 0%nat 24%nat staleHeap 3
          <> Yield (mkStep [1%nat] open)
          /\ gScore (heap (stateAfter openGrid 0%nat 24%nat staleHeap 4) 1%nat)
             = Fin 5)).
Proof.
  split; [reflexivity|]. split; [vm_compute; reflexivity|].
  apply (gScore_only_decreases openGrid 0%nat 24%nat staleHeap 3 1%nat 5);
    vm_compute; reflexivity.
Defined.

Lemma frozen_step grid s f h0 k c :
  isVisited (heap (stateAfter grid s f h0 k) c) = true ->
  pc (stateAfter grid s f h0 k) <> NotStarted ->
  searchFields (heap (stateAfter grid s f h0 (S k)) c)
  = searchFields (heap (stateAfter grid s f h0 k) c)
  /\ isVisited (heap (stateAfter grid s f h0 (S k)) c) = true.
Proof.
  intros Hv Hpc.
  pose proof (step_effect grid s f h0 k) as E.
  set (g := stateAfter grid s f h0 k) in *.
  inversion E as [Hpc' Hr Hg|c' os' d Hpc' Hnf Sk P Dw Mn Hw Hz Hr Hg
                  |p n' pre post Hpd Hsk X Hv' Hin Hlt Hr Hg
                  |Hpc' Hnf Sk Hall Hr Hg|Hpc' Hr Hg|Hpc' Hr Hg|c' Hpc' Hn Hr Hg];
    simpl; auto.
  - contradiction.
  - unfold upd. destruct (Nat.eqb_spec c c') as [->|]; simpl; auto.
  - assert (Hcn : c <> n') by congruence.
    rewrite upd_other by exact Hcn. auto.
Qed.

(** C10: once a node has received its VISITED event, its [gScore],
    [hScore], [fScore] and [previousNode] stay as they are for the rest of the
    run, and it stays visited. *)
Theorem visited_fields_frozen grid s f h0 i j c :
  (i <= j)%nat ->
  resultOf grid s f h0 i = Yield (mkStep [c] visited) ->
  searchFields (heap (stateAfter grid s f h0 (S j)) c)
  = searchFields (heap (stateAfter grid s f h0 (S i)) c)
  /\ isVisited (heap (stateAfter grid s f h0 (S j)) c) = true.
Proof.
  intros Hij Hr. induction Hij as [|j Hij IH].
  - split; [reflexivity|].
    pose proof (step_effect grid s f h0 i) as E. rewrite Hr in E.
    inversion E. simpl. rewrite upd_same. reflexivity.
  - destruct IH as [IHf IHv].
    destruct (frozen_step grid s f h0 (S j) c IHv
                (pc_after_not_NotStarted grid s f h0 j)) as [Ff Fv].
    split; [congruence|exact Fv].
Qed.

Lemma visited_fields_frozen_witness :
  (1 <= 20)%nat
  /\ resultOf openGrid 0%nat 24%nat openHeap 1 = Yield (mkStep [0%nat] visited)
  /\ searchFields (heap (stateAfter openGrid 0%nat 24%nat openHeap 21) 0%nat)
     = searchFields (heap (stateAfter openGrid 0%nat 24%nat openHeap 2) 0%nat)
  /\ isVisited (heap (stateAfter openGrid 0%nat 24%nat openHeap 21) 0%nat)
     = true.
Proof.
  split; [lia|]. split; [vm_compute; reflexivity|].
  apply (visited_fields_frozen openGrid 0%nat 24%nat openHeap 1 20 0%nat);
    [lia|vm_compute; reflexivity].
Defined.

(** ** Walls *)

Lemma wall_flag_kept grid s f h0 w i :
  isWall (h0 w) = true ->
  isVisited (heap (stateAfter grid s f h0 i) w) = isVisited (h0 w).
Proof.
  intro Hw. induction i as [|i IH]; [reflexivity|].
  pose proof (step_effect grid s f h0 i) as E.
  pose proof (inv_static _ _ _ _ (stateAfter_inv0 grid s f h0 i)) as St.
  set (g := stateAfter grid s f h0 i) in *.
  inversion E as [Hpc Hr Hg|c os' d Hpc Hnf Sk P Dw Mn Hc Hz Hr Hg
                  |p n pre post Hpd Hsk X Hv Hin Hlt Hr Hg
                  |Hpc Hnf Sk Hall Hr Hg|Hpc Hr Hg|Hpc Hr Hg|c Hpc Hn Hr Hg];
    simpl; auto.
  - unfold upd. destruct (Nat.eqb_spec w s) as [->|]; simpl; exact IH.
  - assert (Hwc : w <> c).
    { intros ->. destruct (St c) as (_ & _ & W). congruence. }
    rewrite upd_other by exact Hwc. exact IH.
  - unfold upd. destruct (Nat.eqb_spec w n) as [->|]; simpl; exact IH.
Qed.

Lemma wall_never_visited grid s f h0 w i :
  isWall (h0 w) = true ->
  resultOf grid s f h0 i <> Yield (mkStep [w] visited).
Proof.
  intros Hw R.
  destruct (visit_event grid s f h0 i _ R)
    as (c & z & [= <-] & _ & _ & _ & W).
  congruence.
Qed.

(** C1, as the engine has it: a wall is never expanded.  It receives no
    VISITED event, its [isVisited] flag stays as it was, and it is never the
    node whose neighbors are being relaxed.  Its scores and [previousNode],
    on the other hand, are written when a neighbor relaxes it. *)
Theorem wall_never_expanded grid s f h0 w i :
  isWall (h0 w) = true ->
  resultOf grid s f h0 i <> Yield (mkStep [w] visited)
  /\ isVisited (heap (stateAfter grid s f h0 i) w) = isVisited (h0 w)
  /\ pc (stateAfter grid s f h0 i) <> AfterVisitedYield w
  /\ forall rest, pc (stateAfter grid s f h0 i) <> AfterOpenYield w rest.
Proof.
  intro Hw.
  pose proof (stateAfter_inv0 grid s f h0 i) as [St _ _ _ Hpc].
  assert (Wi : isWall (heap (stateAfter grid s f h0 i) w) = true).
  { destruct (St w) as (_ & _ & W). congruence. }
  split; [apply wall_never_visited; exact Hw|].
  split; [apply wall_flag_kept; exact Hw|].
  split.
  - intro E. rewrite E in Hpc. destruct Hpc as [(_ & W & _) _]. congruence.
  - intros rest E. rewrite E in Hpc. destruct Hpc as [(_ & W & _) _].
    congruence.
Qed.

Lemma wall_never_expanded_witness :
  isWall (blockedHeap 1%nat) = true
  /\ resultOf blockedGrid 0%nat 8%nat blockedHeap 4
     <> Yield (mkStep [1%nat] visited)
  /\ isVisited (heap (stateAfter blockedGrid 0%nat 8%nat blockedHeap 4) 1%nat)
     = isVisited (blockedHeap 1%nat)
  /\ pc (stateAfter blockedGrid 0%nat 8%nat blockedHeap 4)
     <> AfterVisitedYield 1%nat
  /\ forall rest, pc (stateAfter blockedGrid 0%nat 8%nat blockedHeap 4)
                  <> AfterOpenYield 1%nat rest.
Proof.
  split; [reflexivity|].
  apply (wall_never_expanded blockedGrid 0%nat 8%nat blockedHeap 1%nat 4).
  reflexivity.
Defined.

(** C1, as stated, fails: in the blocked 3 x 3 scenario the wall at (0,1)
    is relaxed from the start node, so that after four calls its scores and
    [previousNode] are no longer the reset defaults. *)
Lemma wall_is_relaxed :
  ~ (forall i w,
       isWall (blockedHeap w) = true ->
       searchFields (heap (stateAfter blockedGrid 0%nat 8%nat blockedHeap i) w)
       = (Infinity, Infinity, Infinity, None)).
Proof.
  intro H. specialize (H 4%nat 1%nat eq_refl).
  vm_compute in H. discriminate H.
Qed.

(** ** A wall as start or goal *)

Lemma completed_stays grid s f h0 k j :
  pc (stateAfter grid s f h0 k) = Completed ->
  stateAfter grid s f h0 (k + j) = stateAfter grid s f h0 k
  /\ resultOf grid s f h0 (k + j) = Done AlreadyCompleted.
Proof.
  intro Hk.
  assert (A : stateAfter grid s f h0 (k + j) = stateAfter grid s f h0 k).
  { induction j as [|j IH]; [rewrite Nat.add_0_r; reflexivity|].
    rewrite Nat.add_succ_r, stateAfter_S, IH.
    unfold next. rewrite Hk. reflexivity. }
  split; [exact A|]. unfold resultOf. rewrite A. unfold next. rewrite Hk.
  reflexivity.
Qed.

Lemma first_call grid s f h0 :
  resultOf grid s f h0 0 = Yield (mkStep [s] open)
  /\ stateAfter grid s f h0 1
     = mkGen (upd h0 s (initStart s f h0)) [s] AfterStartYield.
Proof. split; reflexivity. Qed.

Lemma walled_start_second_call grid s f h0 :
  isWall (h0 s) = true ->
  next grid s f (stateAfter grid s f h0 1)
  = (Done LoopExit, mkGen (upd h0 s (initStart s f h0)) [] Completed).
Proof.
  intro Hw. destruct (first_call grid s f h0) as [_ ->].
  unfold next. simpl. rewrite whileLoop_eq. simpl.
  rewrite upd_same. simpl. rewrite Hw. rewrite whileLoop_eq. reflexivity.
Qed.

(** C2, as the engine has it: with a wall as start or goal the run is not
    refused.  The first call yields the OPEN event of the start node as
    always, and the goal never receives a VISITED event; with a wall as start
    the second call drops it from the open set and ends the run there. *)
Theorem wall_endpoints_not_refused grid s f h0 :
  isWall (h0 s) = true \/ isWall (h0 f) = true ->
  resultOf grid s f h0 0 = Yield (mkStep [s] open)
  /\ (forall i, resultOf grid s f h0 i <> Yield (mkStep [f] visited))
  /\ (isWall (h0 s) = true ->
      resultOf grid s f h0 1 = Done LoopExit
      /\ openSet (stateAfter grid s f h0 2) = []).
Proof.
  intro Hw. split; [reflexivity|]. split.
  - destruct Hw as [Hs|Hf]; [|intro i; apply wall_never_visited; exact Hf].
    intros i R.
    pose proof (walled_start_second_call grid s f h0 Hs) as N.
    destruct i as [|[|i]].
    + discriminate R.
    + unfold resultOf in R. rewrite N in R. discriminate R.
    + assert (C : pc (stateAfter grid s f h0 2) = Completed).
      { rewrite stateAfter_S, N. reflexivity. }
      destruct (completed_stays grid s f h0 2 i C) as [_ R'].
      simpl in R'. rewrite R' in R. discriminate R.
  - intro Hs. pose proof (walled_start_second_call grid s f h0 Hs) as N.
    split.
    + unfold resultOf. rewrite N. reflexivity.
    + rewrite stateAfter_S, N. reflexivity.
Qed.

Lemma wall_endpoints_not_refused_witness :
  (isWall (walledStartHeap 0%nat) = true
   \/ isWall (walledStartHeap 8%nat) = true)
  /\ resultOf blockedGrid 0%nat 8%nat walledStartHeap 0
     = Yield (mkStep [0%nat] open)
  /\ (forall i, resultOf blockedGrid 0%nat 8%nat walledStartHeap i
                <> Yield (mkStep [8%nat] visited))
  /\ (isWall (walledStartHeap 0%nat) = true ->
      resultOf blockedGrid 0%nat 8%nat walledStartHeap 1 = Done LoopExit
      /\ openSet (stateAfter blockedGrid 0%nat 8%nat walledStartHeap 2) = []).
Proof.
  split; [left; reflexivity|].
  apply (wall_endpoints_not_refused blockedGrid 0%nat 8%nat walledStartHeap).
  left. reflexivity.
Defined.

(** C2, as stated, fails: with the start cell walled the first call does
    not raise an error but yields the OPEN event of the start node, and the
    run then ends normally; with the goal cell walled the search is carried
    out, nodes are visited, and the run ends normally when the open set is
    used up. *)
Lemma walled_endpoints_run :
  (isWall (walledStartHeap 0%nat) = true
   /\ fst (steps blockedGrid 0%nat 8%nat 2 (astarGenerator walledStartHeap))
      = [Yield (mkStep [0%nat] open); Done LoopExit])
  /\ (isWall (walledGoalHeap 8%nat) = true
      /\ resultOf blockedGrid 0%nat 8%nat walledGoalHeap 0
         = Yield (mkStep [0%nat] open)
      /\ resultOf blockedGrid 0%nat 8%nat walledGoalHeap 1
         = Yield (mkStep [0%nat] visited)
      /\ ~ In Throw
           (fst (steps blockedGrid 0%nat 8%nat 40
                       (astarGenerator walledGoalHeap)))
      /\ In (Done LoopExit)
            (fst (steps blockedGrid 0%nat 8%nat 40
                        (astarGenerator walledGoalHeap)))).
Proof.
  split; [split; vm_compute; reflexivity|].
  split; [reflexivity|]. split; [vm_compute; reflexivity|].
  split; [vm_compute; reflexivity|]. split.
  - vm_compute. intuition discriminate.
  - vm_compute. intuition.
Qed.

(** ** The path reconstructor *)

Lemma pathLoop_ext fuel h h' cur acc :
  (forall n, previousNode (h n) = previousNode (h' n)) ->
  pathLoop fuel h cur acc = pathLoop fuel h' cur acc.
Proof.
  intro H. revert cur acc.
  induction fuel as [|k IH]; intros [c|] acc; simpl; auto.
  rewrite H. apply IH.
Qed.

(** C5, as the reconstructor has it: it signals nothing.  It reads no
    field but [previousNode], so that whether the goal was visited makes no
    difference to its result; and on a goal whose [previousNode] is [null],
    as that of a goal no neighbor ever relaxed, it returns the one-node path
    made of the goal. *)
Theorem reconstructor_ignores_visited fuel h h' goal :
  (forall n, previousNode (h n) = previousNode (h' n)) ->
  getNodesInShortestPathOrder fuel h goal
  = getNodesInShortestPathOrder fuel h' goal
  /\ (previousNode (h goal) = None ->
      getNodesInShortestPathOrder (S fuel) h goal = Some [goal]).
Proof.
  intro H. split.
  - apply pathLoop_ext, H.
  - intro Hp. unfold getNodesInShortestPathOrder. simpl. rewrite Hp.
    destruct fuel; reflexivity.
Qed.

Lemma reconstructor_ignores_visited_witness :
  (forall n, previousNode (blockedHeap n) = previousNode (openHeap n))
  /\ getNodesInShortestPathOrder 3 blockedHeap 8%nat
     = getNodesInShortestPathOrder 3 openHeap 8%nat
  /\ (previousNode (blockedHeap 8%nat) = None ->
      getNodesInShortestPathOrder 4 blockedHeap 8%nat = Some [8%nat]).
Proof.
  assert (H : forall n, previousNode (blockedHeap n) = previousNode (openHeap n)).
  { intro n. unfold blockedHeap, flipWall, upd.
    repeat match goal with
           | |- context [Nat.eqb ?a ?b] => destruct (Nat.eqb a b); simpl
           end; reflexivity. }
  split; [exact H|].
  apply (reconstructor_ignores_visited 3 blockedHeap openHeap 8%nat H).
Defined.

(** C5, as stated, fails: after the blocked 3 x 3 run has ended in failure,
    its goal never visited, the reconstructor returns a path, the goal alone;
    and with the goal cell walled, never visited either, it returns the five
    nodes that lead to it. *)
Lemma reconstructor_returns_path_unvisited :
  (In (Done LoopExit)
      (fst (steps blockedGrid 0%nat 8%nat 10 (astarGenerator blockedHeap)))
   /\ isVisited (heap (stateAfter blockedGrid 0%nat 8%nat blockedHeap 10) 8%nat)
      = false
   /\ getNodesInShortestPathOrder
        9 (heap (stateAfter blockedGrid 0%nat 8%nat blockedHeap 10)) 8%nat
      = Some [8%nat])
  /\ (isVisited (heap (stateAfter blockedGrid 0%nat 8%nat walledGoalHeap 19)
                      8%nat) = false
      /\ getNodesInShortestPathOrder
           9 (heap (stateAfter blockedGrid 0%nat 8%nat walledGoalHeap 19))
           8%nat
         = Some [0%nat; 3%nat; 6%nat; 7%nat; 8%nat]).
Proof.
  split; [split; [vm_compute; intuition|split; vm_compute; reflexivity]|].
  split; vm_compute; reflexivity.
Qed.

(** ** Termination *)

Lemma list_sum_le (w w' : ref -> nat) cells :
  (forall m, (w' m <= w m)%nat) ->
  (list_sum (map w' cells) <= list_sum (map w cells))%nat.
Proof.
  intro H. induction cells as [|x cells IH]; simpl; [lia|].
  specialize (H x). lia.
Qed.

Lemma list_sum_lt (w w' : ref -> nat) cells n :
  In n cells -> (forall m, (w' m <= w m)%nat) -> (w' n < w n)%nat ->
  (list_sum (map w' cells) < list_sum (map w cells))%nat.
Proof.
  intros Hn H Hlt. induction cells as [|x cells IH]; [destruct Hn|].
  simpl. destruct Hn as [-> |Hn].
  - pose proof (list_sum_le w w' cells H). lia.
  - specialize (IH Hn). specialize (H x). lia.
Qed.

Lemma weightSum_ext w h h' cells :
  (forall m, gScore (h' m) = gScore (h m)) ->
  weightSum w h' cells = weightSum w h cells.
Proof.
  intro H. unfold weightSum. f_equal. apply map_ext. intro m.
  rewrite H. reflexivity.
Qed.

(** A relaxation lowers the measure: an infinite score becomes finite, or
    a finite one becomes a smaller non-negative one. *)
Lemma relax_lowers h cells n x z :
  In n cells -> gScore x = Fin z -> 0 <= z ->
  num_ltb (Fin z) (gScore (h n)) = true ->
  (weightSum infWeight (upd h n x) cells < weightSum infWeight h cells)%nat
  \/ (weightSum infWeight (upd h n x) cells = weightSum infWeight h cells
      /\ (weightSum finWeight (upd h n x) cells
          < weightSum finWeight h cells)%nat).
Proof.
  intros Hn Hx Hz Hlt. destruct (gScore (h n)) as [a|] eqn:Ea.
  - right. simpl in Hlt. apply Z.ltb_lt in Hlt. split.
    + unfold weightSum. f_equal. apply map_ext. intro m. unfold upd.
      destruct (Nat.eqb_spec m n) as [-> |]; [|reflexivity].
      rewrite Hx, Ea. reflexivity.
    + unfold weightSum. apply list_sum_lt with (n := n); [exact Hn| |].
      * intro m. unfold upd. destruct (Nat.eqb_spec m n) as [-> |]; [|lia].
        rewrite Hx, Ea. simpl. lia.
      * rewrite upd_same, Hx, Ea. simpl. lia.
  - left. unfold weightSum. apply list_sum_lt with (n := n); [exact Hn| |].
    + intro m. unfold upd. destruct (Nat.eqb_spec m n) as [-> |]; [|lia].
      rewrite Hx, Ea. simpl. lia.
    + rewrite upd_same, Hx, Ea. simpl. lia.
Qed.

(** A call on a started generator completes it or lowers the measure. *)
Lemma next_progress grid s f h0 g :
  Inv0 grid s h0 g -> pc g <> NotStarted ->
  let g' := snd (next grid s f g) in
  let cells := concat grid in
  pc g' = Completed
  \/ (weightSum infWeight (heap g') cells
      < weightSum infWeight (heap g) cells)%nat
  \/ (weightSum infWeight (heap g') cells = weightSum infWeight (heap g) cells
      /\ (weightSum finWeight (heap g') cells
          < weightSum finWeight (heap g) cells)%nat)
  \/ (weightSum infWeight (heap g') cells = weightSum infWeight (heap g) cells
      /\ weightSum finWeight (heap g') cells
         = weightSum finWeight (heap g) cells
      /\ (length (openSet g') < length (openSet g))%nat).
Proof.
  intros Inv Hpc. pose proof (next_effect grid s f h0 g Inv) as E.
  inversion E as [Hpc' Hr Hg|c os' d Hpc' Hnf Sk P Dw Mn Hw Hz Hr Hg
                  |p n pre post Hpd Hsk X Hv Hin Hlt Hr Hg
                  |Hpc' Hnf Sk Hall Hr Hg|Hpc' Hr Hg|Hpc' Hr Hg|c Hpc' Hn Hr Hg];
    simpl; auto.
  - contradiction.
  - right. right. right.
    assert (Hext : forall m, gScore (upd (heap g) c (markVisited (heap g c)) m)
                             = gScore (heap g m)).
    { intro m. unfold upd. destruct (Nat.eqb_spec m c) as [-> |]; reflexivity. }
    rewrite !(weightSum_ext _ _ _ _ Hext).
    apply Permutation_length in P. rewrite length_app in P. simpl in P.
    repeat split; auto; lia.
  - right. destruct X as (_ & _ & z & Xg & Xz). rewrite Xg in *. simpl in *.
    destruct (relax_lowers (heap g) (concat grid) n
                (relaxed f (heap g) p n (Fin (z + 1))) (z + 1))
      as [H|H]; auto. lia.
Qed.

Lemma steps_front grid s f n g :
  snd (steps grid s f (S n) g) = snd (steps grid s f n (snd (next grid s f g))).
Proof.
  simpl. destruct (next grid s f g) as [r g1]. simpl.
  destruct (steps grid s f n g1). reflexivity.
Qed.

(** From every started state the generator is completed after finitely
    many calls. *)
Lemma halts_from grid s f h0 :
  forall a b c g,
    Inv0 grid s h0 g -> pc g <> NotStarted ->
    weightSum infWeight (heap g) (concat grid) = a ->
    weightSum finWeight (heap g) (concat grid) = b ->
    length (openSet g) = c ->
    exists k, pc (snd (steps grid s f k g)) = Completed.
Proof.
  induction a as [a IHa] using lt_wf_ind.
  induction b as [b IHb] using lt_wf_ind.
  induction c as [c IHc] using lt_wf_ind.
  intros g Inv Hpc Ha Hb Hc.
  pose proof (inv0_next grid s f h0 g Inv) as Inv'.
  assert (Hpc' : pc (snd (next grid s f g)) <> NotStarted).
  { pose proof (next_effect grid s f h0 g Inv) as E.
    inversion E; simpl; congruence. }
  destruct (next_progress grid s f h0 g Inv Hpc)
    as [Hd|[Hlt|[[He Hlt]|(He & He' & Hlt)]]].
  - exists 1%nat. rewrite steps_front. exact Hd.
  - destruct (IHa _ ltac:(rewrite <- Ha; exact Hlt) _ _ _ Inv' Hpc'
                eq_refl eq_refl eq_refl) as [k Hk].
    exists (S k). rewrite steps_front. exact Hk.
  - destruct (IHb _ ltac:(rewrite <- Hb; exact Hlt) _ _ Inv' Hpc'
                ltac:(congruence) eq_refl eq_refl) as [k Hk].
    exists (S k). rewrite steps_front. exact Hk.
  - destruct (IHc _ ltac:(rewrite <- Hc; exact Hlt) _ Inv' Hpc'
                ltac:(congruence) ltac:(congruence) eq_refl) as [k Hk].
    exists (S k). rewrite steps_front. exact Hk.
Qed.

Lemma run_halts grid s f h0 :
  exists k, pc (stateAfter grid s f h0 k) = Completed.
Proof.
  destruct (halts_from grid s f h0 _ _ _ (stateAfter grid s f h0 1)
              (stateAfter_inv0 grid s f h0 1)
              (pc_after_not_NotStarted grid s f h0 0)
              eq_refl eq_refl eq_refl) as [k Hk].
  exists (S k). unfold stateAfter in *. rewrite steps_front. exact Hk.
Qed.

(** ** Well-formed grids *)

Lemma idx_Some {A} (a : list A) i :
  0 <= i < len a -> exists x, idx a i = Some x.
Proof.
  unfold idx, len. intros [H0 H1].
  destruct (Z.ltb_spec i 0) as [|_]; [lia|].
  destruct (nth_error a (Z.to_nat i)) as [x|] eqn:E; [eauto|].
  apply nth_error_None in E. lia.
Qed.

Lemma idx_range {A} (a : list A) i x : idx a i = Some x -> 0 <= i < len a.
Proof.
  unfold idx, len. destruct (Z.ltb_spec i 0) as [|H0]; [discriminate|].
  intro E. assert (H : nth_error a (Z.to_nat i) <> None) by congruence.
  apply nth_error_Some in H. lia.
Qed.

Lemma wellFormed_rows h grid line :
  wellFormed h grid = true -> In line grid -> len line = width grid.
Proof.
  unfold wellFormed, width. destruct grid as [|line0 rest]; [discriminate|].
  intros W Hl. apply andb_prop in W. destruct W as [W _].
  rewrite forallb_forall in W. specialize (W line Hl).
  apply Nat.eqb_eq in W. unfold len. rewrite W. reflexivity.
Qed.

Lemma combine_seq_nth {A} (l : list A) a k x :
  nth_error l k = Some x -> In ((a + k)%nat, x) (combine (seq a (length l)) l).
Proof.
  revert a k. induction l as [|y l IH]; intros a [|k] E; simpl in *;
    try discriminate.
  - injection E as ->. rewrite Nat.add_0_r. left. reflexivity.
  - right. replace (a + S k)%nat with (S a + k)%nat by lia. apply IH, E.
Qed.

Lemma indexed_idx {A} (l : list A) i x :
  idx l i = Some x -> In (Z.to_nat i, x) (indexed l).
Proof.
  unfold idx, indexed. destruct (i <? 0); [discriminate|].
  intro E. apply (combine_seq_nth l 0 _ _ E).
Qed.

Lemma idx_of_In {A} (l : list A) x :
  In x l -> exists i, idx l i = Some x.
Proof.
  intro H. apply In_nth_error in H. destruct H as [k Hk].
  exists (Z.of_nat k). unfold idx.
  destruct (Z.ltb_spec (Z.of_nat k) 0); [lia|].
  rewrite Nat2Z.id. exact Hk.
Qed.

Lemma wellFormed_position h grid r c n :
  wellFormed h grid = true -> cell grid r c = Some n ->
  row (h n) = r /\ col (h n) = c.
Proof.
  unfold wellFormed. destruct grid as [|line0 rest] eqn:Eg; [discriminate|].
  rewrite <- Eg. intros W Hc. apply andb_prop in W. destruct W as [_ W].
  rewrite forallb_forall in W. unfold cell in Hc.
  destruct (idx grid r) as [line|] eqn:Er; [|discriminate].
  pose proof (idx_range _ _ _ Er) as Rr.
  pose proof (idx_range _ _ _ Hc) as Rc.
  specialize (W _ (indexed_idx _ _ _ Er)). simpl in W.
  rewrite forallb_forall in W.
  specialize (W _ (indexed_idx _ _ _ Hc)). unfold placed in W. simpl in W.
  apply andb_prop in W. destruct W as [W1 W2].
  apply Z.eqb_eq in W1, W2. lia.
Qed.

Lemma wellFormed_locates h grid n :
  wellFormed h grid = true -> In n (concat grid) ->
  cell grid (row (h n)) (col (h n)) = Some n.
Proof.
  intros W Hn. apply in_concat in Hn. destruct Hn as (line & Hl & Hn).
  destruct (idx_of_In _ _ Hl) as [r Er].
  destruct (idx_of_In _ _ Hn) as [c Ec].
  assert (Hc : cell grid r c = Some n) by (unfold cell; rewrite Er; exact Ec).
  destruct (wellFormed_position _ _ _ _ _ W Hc) as [-> ->]. exact Hc.
Qed.

Lemma wellFormed_idx0 h grid :
  wellFormed h grid = true ->
  exists line0, idx grid 0 = Some line0 /\ len line0 = width grid.
Proof.
  unfold wellFormed. destruct grid as [|line0 rest]; [discriminate|].
  intros _. exists line0. split; reflexivity.
Qed.

Lemma cell_range h grid r c n :
  wellFormed h grid = true -> cell grid r c = Some n ->
  0 <= r < len grid /\ 0 <= c < width grid.
Proof.
  intros W. unfold cell. destruct (idx grid r) as [line|] eqn:E;
    [|discriminate].
  intro Hc. split; [eapply idx_range; eassumption|].
  rewrite <- (wellFormed_rows h grid line W (idx_In _ _ _ E)).
  eapply idx_range; eassumption.
Qed.

Lemma cell_Some h grid r c :
  wellFormed h grid = true ->
  0 <= r < len grid -> 0 <= c < width grid ->
  exists n, cell grid r c = Some n.
Proof.
  intros W Hr Hc. unfold cell.
  destruct (idx_Some grid r Hr) as [line E]. rewrite E.
  apply idx_Some.
  rewrite (wellFormed_rows h grid line W (idx_In _ _ _ E)). exact Hc.
Qed.

Lemma push_cell_Some h grid r c acc :
  wellFormed h grid = true ->
  0 <= r < len grid -> 0 <= c < width grid ->
  exists n, cell grid r c = Some n
            /\ push_cell grid r c acc = Some (acc ++ [n]).
Proof.
  intros W Hr Hc. destruct (cell_Some h grid r c W Hr Hc) as [n E].
  exists n. unfold push_cell. rewrite E. auto.
Qed.

(** On a well-formed grid the lookup of the neighbors raises no error, and
    it finds every cell next to the node. *)
Lemma candidateNeighbors_wf h0 h grid n :
  wellFormed h0 grid = true ->
  cell grid (row (h n)) (col (h n)) = Some n ->
  exists l, candidateNeighbors h n grid = Some l
    /\ forall r' c' m,
         cell grid r' c' = Some m ->
         Z.abs (r' - row (h n)) + Z.abs (c' - col (h n)) = 1 ->
         In m l.
Proof.
  intros W Hn. destruct (cell_range _ _ _ _ _ W Hn) as [Hr Hc].
  destruct (wellFormed_idx0 _ _ W) as (line0 & E0 & L0).
  unfold candidateNeighbors.
  set (r := row (h n)) in *. set (c := col (h n)) in *.
  assert (S1 : exists n1,
             (if r >? 0 then push_cell grid (r - 1) c [] else Some [])
             = Some n1
             /\ forall m, cell grid (r - 1) c = Some m -> In m n1).
  { destruct (Z.gtb_spec r 0) as [G|G].
    - destruct (push_cell_Some h0 grid (r - 1) c [] W) as (x & Hx & Px);
        try lia.
      rewrite Px. eexists. split; [reflexivity|].
      intros m Hm. rewrite Hx in Hm. injection Hm as <-. simpl. auto.
    - eexists. split; [reflexivity|]. intros m Hm.
      apply (cell_range _ _ _ _ _ W) in Hm. lia. }
  destruct S1 as (n1 & -> & I1).
  assert (S2 : exists n2,
             (if r <? len grid - 1 then push_cell grid (r + 1) c n1
              else Some n1) = Some n2
             /\ (forall m, In m n1 -> In m n2)
             /\ forall m, cell grid (r + 1) c = Some m -> In m n2).
  { destruct (Z.ltb_spec r (len grid - 1)) as [G|G].
    - destruct (push_cell_Some h0 grid (r + 1) c n1 W) as (x & Hx & Px);
        try lia.
      rewrite Px. eexists. split; [reflexivity|]. split.
      + intros m Hm. apply in_or_app. auto.
      + intros m Hm. rewrite Hx in Hm. injection Hm as <-.
        apply in_or_app. simpl. auto.
    - eexists. split; [reflexivity|]. split; [auto|]. intros m Hm.
      apply (cell_range _ _ _ _ _ W) in Hm. lia. }
  destruct S2 as (n2 & -> & K2 & I2).
  assert (S3 : exists n3,
             (if c >? 0 then push_cell grid r (c - 1) n2 else Some n2)
             = Some n3
             /\ (forall m, In m n2 -> In m n3)
             /\ forall m, cell grid r (c - 1) = Some m -> In m n3).
  { destruct (Z.gtb_spec c 0) as [G|G].
    - destruct (push_cell_Some h0 grid r (c - 1) n2 W) as (x & Hx & Px);
        try lia.
      rewrite Px. eexists. split; [reflexivity|]. split.
      + intros m Hm. apply in_or_app. auto.
      + intros m Hm. rewrite Hx in Hm. injection Hm as <-.
        apply in_or_app. simpl. auto.
    - eexists. split; [reflexivity|]. split; [auto|]. intros m Hm.
      apply (cell_range _ _ _ _ _ W) in Hm. lia. }
  destruct S3 as (n3 & -> & K3 & I3).
  rewrite E0.
  assert (S4 : exists n4,
             (if c <? len line0 - 1 then push_cell grid r (c + 1) n3
              else Some n3) = Some n4
             /\ (forall m, In m n3 -> In m n4)
             /\ forall m, cell grid r (c + 1) = Some m -> In m n4).
  { destruct (Z.ltb_spec c (len line0 - 1)) as [G|G].
    - destruct (push_cell_Some h0 grid r (c + 1) n3 W) as (x & Hx & Px);
        try lia.
      rewrite Px. eexists. split; [reflexivity|]. split.
      + intros m Hm. apply in_or_app. auto.
      + intros m Hm. rewrite Hx in Hm. injection Hm as <-.
        apply in_or_app. simpl. auto.
    - eexists. split; [reflexivity|]. split; [auto|]. intros m Hm.
      apply (cell_range _ _ _ _ _ W) in Hm. lia. }
  destruct S4 as (n4 & -> & K4 & I4).
  exists n4. split; [reflexivity|].
  intros r' c' m Hm Hadj.
  assert (Cases : (r' = r - 1 /\ c' = c) \/ (r' = r + 1 /\ c' = c)
                  \/ (r' = r /\ c' = c - 1) \/ (r' = r /\ c' = c + 1))
    by lia.
  destruct Cases as [[-> ->]|[[-> ->]|[[-> ->]|[-> ->]]]]; auto.
Qed.

Lemma no_throw_wf grid s h0 g c :
  wellFormed h0 grid = true -> In s (concat grid) ->
  Inv0 grid s h0 g -> pc g = AfterVisitedYield c ->
  getUnvisitedNeighbors (heap g) c grid <> None.
Proof.
  intros W Hs [S _ _ _ Hpc] E. rewrite E in Hpc. destruct Hpc as [_ M].
  assert (Hc : In c (concat grid)) by (destruct M as [-> |]; assumption).
  pose proof (wellFormed_locates _ _ _ W Hc) as L.
  destruct (S c) as (Sr & Sc & _). rewrite <- Sr, <- Sc in L.
  destruct (candidateNeighbors_wf h0 (heap g) grid c W L) as (l & El & _).
  unfold getUnvisitedNeighbors. rewrite El. discriminate.
Qed.

(** ** How a run ends *)

Lemma completed_later grid s f h0 i k :
  (i <= k)%nat -> pc (stateAfter grid s f h0 i) = Completed ->
  pc (stateAfter grid s f h0 k) = Completed.
Proof.
  intros Hik Hi. replace k with (i + (k - i))%nat by lia.
  destruct (completed_stays grid s f h0 i (k - i) Hi) as [-> _]. exact Hi.
Qed.

Lemma first_completion grid s f h0 :
  exists k, pc (stateAfter grid s f h0 (S k)) = Completed
            /\ forall i, (i <= k)%nat ->
                         pc (stateAfter grid s f h0 i) <> Completed.
Proof.
  destruct (run_halts grid s f h0) as [k Hk].
  induction k as [|k IH]; [discriminate Hk|].
  destruct (pc (stateAfter grid s f h0 k)) eqn:E;
    try (exists k; split; [exact Hk|];
         intros i Hi C;
         pose proof (completed_later grid s f h0 i k Hi C); congruence).
  apply IH. reflexivity.
Qed.

Lemma yields_until_completed grid s f h0 i :
  pc (stateAfter grid s f h0 (S i)) <> Completed ->
  exists step, resultOf grid s f h0 i = Yield step.
Proof.
  intro H. pose proof (step_effect grid s f h0 i) as E.
  inversion E as [Hpc Hr Hg|c os' d Hpc Hnf Sk P Dw Mn Hw Hz Hr Hg
                  |p n pre post Hpd Hsk X Hv Hin Hlt Hr Hg
                  |Hpc Hnf Sk Hall Hr Hg|Hpc Hr Hg|Hpc Hr Hg|c Hpc Hn Hr Hg];
    eauto; rewrite <- Hg in H; simpl in H; congruence.
Qed.

Lemma visiting_after_event grid s f h0 k c :
  pc (stateAfter grid s f h0 k) = AfterVisitedYield c ->
  exists j, k = S j /\ resultOf grid s f h0 j = Yield (mkStep [c] visited).
Proof.
  destruct k as [|j]; [discriminate|]. intro H. exists j. split; [reflexivity|].
  pose proof (step_effect grid s f h0 j) as E.
  inversion E as [Hpc Hr Hg|c' os' d Hpc Hnf Sk P Dw Mn Hw Hz Hr Hg
                  |p n pre post Hpd Hsk X Hv Hin Hlt Hr Hg
                  |Hpc Hnf Sk Hall Hr Hg|Hpc Hr Hg|Hpc Hr Hg|c' Hpc Hn Hr Hg];
    rewrite <- Hg in H; simpl in H; congruence.
Qed.

(** Every run is finite: after finitely many events a call ends it, at the
    loop's exit with the open set empty, at the goal just visited, or with
    the error of a neighbor lookup. *)
Lemma run_ends grid s f h0 :
  exists k,
    (forall i, (i < k)%nat -> exists step, resultOf grid s f h0 i = Yield step)
    /\ ((resultOf grid s f h0 k = Done LoopExit
         /\ openSet (stateAfter grid s f h0 (S k)) = [])
        \/ (resultOf grid s f h0 k = Done GoalReached
            /\ exists j, k = S j
                 /\ resultOf grid s f h0 j = Yield (mkStep [f] visited))
        \/ (resultOf grid s f h0 k = Throw
            /\ exists c, pc (stateAfter grid s f h0 k) = AfterVisitedYield c
                 /\ getUnvisitedNeighbors (heap (stateAfter grid s f h0 k))
                                          c grid = None)).
Proof.
  destruct (first_completion grid s f h0) as (k & Hk & Hbefore).
  exists k. split.
  - intros i Hi. apply yields_until_completed. apply Hbefore. lia.
  - pose proof (step_effect grid s f h0 k) as E.
    pose proof (Hbefore k (le_n k)) as Hnc.
    inversion E as [Hpc Hr Hg|c os' d Hpc Hnf Sk P Dw Mn Hw Hz Hr Hg
                    |p n pre post Hpd Hsk X Hv Hin Hlt Hr Hg
                    |Hpc Hnf Sk Hall Hr Hg|Hpc Hr Hg|Hpc Hr Hg|c Hpc Hn Hr Hg];
      try (rewrite <- Hg in Hk; simpl in Hk; discriminate Hk).
    + left. split; reflexivity.
    + right. left. split; [reflexivity|].
      apply visiting_after_event. exact Hpc.
    + contradiction.
    + right. right. split; [reflexivity|]. eauto.
Qed.

(** C7: on a well-formed grid holding the start node, the run yields
    finitely many events and then ends, either right after the VISITED event
    of the goal or at the loop's exit with the open set empty. *)
Theorem run_terminates grid s f h0 :
  wellFormed h0 grid = true -> In s (concat grid) ->
  exists k,
    (forall i, (i < k)%nat -> exists step, resultOf grid s f h0 i = Yield step)
    /\ ((resultOf grid s f h0 k = Done GoalReached
         /\ exists j, k = S j
              /\ resultOf grid s f h0 j = Yield (mkStep [f] visited))
        \/ (resultOf grid s f h0 k = Done LoopExit
            /\ openSet (stateAfter grid s f h0 (S k)) = [])).
Proof.
  intros W Hs. destruct (run_ends grid s f h0) as (k & Hy & Hend).
  exists k. split; [exact Hy|].
  destruct Hend as [H|[H|(_ & c & Hpc & Hn)]]; auto.
  exfalso.
  exact (no_throw_wf grid s h0 _ c W Hs (stateAfter_inv0 grid s f h0 k) Hpc Hn).
Qed.

Lemma run_terminates_witness :
  wellFormed blockedHeap blockedGrid = true
  /\ In 0%nat (concat blockedGrid)
  /\ exists k,
       (forall i, (i < k)%nat ->
          exists step, resultOf blockedGrid 0%nat 8%nat blockedHeap i
                       = Yield step)
       /\ ((resultOf blockedGrid 0%nat 8%nat blockedHeap k = Done GoalReached
            /\ exists j, k = S j
                 /\ resultOf blockedGrid 0%nat 8%nat blockedHeap j
                    = Yield (mkStep [8%nat] visited))
           \/ (resultOf blockedGrid 0%nat 8%nat blockedHeap k = Done LoopExit
               /\ openSet (stateAfter blockedGrid 0%nat 8%nat blockedHeap (S k))
                  = [])).
Proof.
  split; [reflexivity|]. split; [simpl; auto|].
  apply (run_terminates blockedGrid 0%nat 8%nat blockedHeap);
    [reflexivity|simpl; auto].
Defined.

(** ** Walls that separate start and goal *)

Lemma neighbors_adjacent h0 h grid p l :
  Static h0 h -> getUnvisitedNeighbors h p grid = Some l ->
  forall n, In n l -> adjacentTo h0 grid p n.
Proof.
  intros S E n Hn. unfold getUnvisitedNeighbors in E.
  destruct (candidateNeighbors h p grid) as [cs|] eqn:Ec; [|discriminate].
  injection E as <-. apply filter_In in Hn. destruct Hn as [Hn _].
  destruct (candidateNeighbors_spec _ _ _ _ Ec n Hn) as (r & c & Hc & Hpos).
  destruct (S p) as (Sr & Sc & _). rewrite Sr, Sc in Hpos.
  exists r, c. split; [exact Hc|]. lia.
Qed.

Lemma pending_connected grid s f h0 g p l :
  Inv0 grid s h0 g -> InvC grid s h0 g ->
  pendingOf grid f g = Some (p, l) ->
  Connected h0 grid s p /\ forall n, In n l -> adjacentTo h0 grid p n.
Proof.
  intros [S _ _ _ _] [_ Cpc]. unfold pendingOf.
  destruct (pc g) as [| |c|c rest|]; try discriminate.
  - destruct (Nat.eqb c f); [discriminate|].
    destruct (getUnvisitedNeighbors (heap g) c grid) as [nbrs|] eqn:E;
      [|discriminate].
    intros [= <- <-]. split; [exact Cpc|].
    eapply neighbors_adjacent; eassumption.
  - intros [= <- <-]. exact Cpc.
Qed.

Lemma invC_next grid s f h0 g :
  wellFormed h0 grid = true -> In s (concat grid) ->
  Inv0 grid s h0 g -> InvC grid s h0 g ->
  InvC grid s h0 (snd (next grid s f g)).
Proof.
  intros W Hs Inv C. pose proof (next_effect grid s f h0 g Inv) as E.
  pose proof (inv_static _ _ _ _ Inv) as St.
  inversion E as [Hpc Hr Hg|c os' d Hpc Hnf Sk P Dw Mn Hw Hz Hr Hg
                  |p n pre post Hpd Hsk X Hv Hin Hlt Hr Hg
                  |Hpc Hnf Sk Hall Hr Hg|Hpc Hr Hg|Hpc Hr Hg|c Hpc Hn Hr Hg];
    simpl.
  - constructor; simpl; [|exact I].
    intros n [<- |[]] Hw. apply conn_start. exact Hw.
  - destruct (perm_split_In _ _ _ _ P) as [Hc Hrest].
    constructor; simpl.
    + intros n Hn. apply (c_open _ _ _ _ C). auto.
    + apply (c_open _ _ _ _ C); [exact Hc|].
      destruct (St c) as (_ & _ & Wc). congruence.
  - destruct (pending_connected grid s f h0 g p _ Inv C Hpd) as [Cp Adj].
    assert (Mp : In p (concat grid)).
    { pose proof (inv_pc _ _ _ _ Inv) as Hpc. unfold pendingOf in Hpd.
      destruct (pc g) as [| |c|c rest|]; try discriminate.
      - destruct (Nat.eqb c f); [discriminate|].
        destruct (getUnvisitedNeighbors (heap g) c grid); [|discriminate].
        injection Hpd as <- _. destruct Hpc as [_ [-> |M]]; assumption.
      - injection Hpd as <- _. destruct Hpc as (_ & [-> |M] & _); assumption. }
    constructor; simpl.
    + intros m Hm Wm. apply pushIfAbsent_In in Hm.
      destruct Hm as [Hm| ->]; [apply (c_open _ _ _ _ C); assumption|].
      destruct (Adj n) as (r & c & Hc & Hadj).
      { apply in_or_app. right. left. reflexivity. }
      eapply conn_step;
        [exact Cp|apply (wellFormed_locates _ _ _ W Mp)|exact Hc|exact Hadj
         |exact Wm].
    + split; [exact Cp|]. intros m Hm. apply Adj.
      apply in_or_app. right. right. exact Hm.
  - constructor; simpl; [intros n []|exact I].
  - constructor; simpl; [apply (c_open _ _ _ _ C)|exact I].
  - constructor; simpl; [apply (c_open _ _ _ _ C)|exact I].
  - constructor; simpl; [apply (c_open _ _ _ _ C)|exact I].
Qed.

Lemma stateAfter_invC grid s f h0 n :
  wellFormed h0 grid = true -> In s (concat grid) ->
  InvC grid s h0 (stateAfter grid s f h0 n).
Proof.
  intros W Hs. induction n as [|n IH].
  - constructor; simpl; [intros m []|exact I].
  - rewrite stateAfter_S.
    apply invC_next; auto using stateAfter_inv0.
Qed.

Lemma visited_connected grid s f h0 i c :
  wellFormed h0 grid = true -> In s (concat grid) ->
  resultOf grid s f h0 i = Yield (mkStep [c] visited) ->
  Connected h0 grid s c.
Proof.
  intros W Hs R.
  pose proof (stateAfter_invC grid s f h0 (S i) W Hs) as [_ Cpc].
  pose proof (step_effect grid s f h0 i) as E. rewrite R in E.
  inversion E as [|c' os' d Hpc Hnf Sk P Dw Mn Hw Hz Hr Hg| | | | |].
  rewrite <- Hg in Cpc. exact Cpc.
Qed.

(** C4: on a well-formed grid where no path of cells that are not walls
    leads from the start to the goal, the goal never receives a VISITED
    event, and the run ends, after finitely many events, at the loop's exit
    with the open set empty. *)
Theorem blocked_run_fails grid s f h0 :
  wellFormed h0 grid = true -> In s (concat grid) ->
  ~ Connected h0 grid s f ->
  (forall i, resultOf grid s f h0 i <> Yield (mkStep [f] visited))
  /\ exists k,
       (forall i, (i < k)%nat ->
          exists step, resultOf grid s f h0 i = Yield step)
       /\ resultOf grid s f h0 k = Done LoopExit
       /\ openSet (stateAfter grid s f h0 (S k)) = [].
Proof.
  intros W Hs B.
  assert (NV : forall i, resultOf grid s f h0 i <> Yield (mkStep [f] visited)).
  { intros i R. apply B. eapply visited_connected; eassumption. }
  split; [exact NV|].
  destruct (run_ends grid s f h0) as (k & Hy & Hend).
  exists k. split; [exact Hy|].
  destruct Hend as [H|[(_ & j & _ & R)|(_ & c & Hpc & Hn)]].
  - exact H.
  - exfalso. exact (NV j R).
  - exfalso.
    exact (no_throw_wf grid s h0 _ c W Hs (stateAfter_inv0 grid s f h0 k)
                       Hpc Hn).
Qed.

Lemma blocked_cells r c n :
  cell blockedGrid r c = Some n ->
  (r = 0 \/ r = 1 \/ r = 2) /\ (c = 0 \/ c = 1 \/ c = 2)
  /\ n = Z.to_nat (3 * r + c).
Proof.
  intro H.
  assert (W : wellFormed blockedHeap blockedGrid = true) by reflexivity.
  destruct (cell_range _ _ _ _ _ W H) as [Hr Hc].
  change (len blockedGrid) with 3 in Hr.
  change (width blockedGrid) with 3 in Hc.
  assert (Er : r = 0 \/ r = 1 \/ r = 2) by lia.
  assert (Ec : c = 0 \/ c = 1 \/ c = 2) by lia.
  split; [exact Er|]. split; [exact Ec|].
  destruct Er as [-> |[-> | ->]], Ec as [-> |[-> | ->]];
    vm_compute in H; injection H as <-; reflexivity.
Qed.

Lemma blocked_column n :
  Connected blockedHeap blockedGrid 0%nat n ->
  n = 0%nat \/ n = 3%nat \/ n = 6%nat.
Proof.
  induction 1 as [|n m r c r' c' Hn IH Hc Hc' Hadj Hw]; [auto|].
  destruct (blocked_cells _ _ _ Hc) as (Hr & Hcc & En).
  destruct (blocked_cells _ _ _ Hc') as (Hr' & Hcc' & Em).
  assert (C0 : c = 0).
  { destruct Hr as [-> |[-> | ->]], Hcc as [-> |[-> | ->]];
      simpl in En; subst n; destruct IH as [IH|[IH|IH]];
      try discriminate IH; reflexivity. }
  subst c.
  destruct Hr' as [-> |[-> | ->]], Hcc' as [-> |[-> | ->]];
    simpl in Em; subst m; auto; try discriminate Hw; lia.
Qed.

Lemma blocked_run_fails_witness :
  wellFormed blockedHeap blockedGrid = true
  /\ In 0%nat (concat blockedGrid)
  /\ ~ Connected blockedHeap blockedGrid 0%nat 8%nat
  /\ (forall i, resultOf blockedGrid 0%nat 8%nat blockedHeap i
                <> Yield (mkStep [8%nat] visited))
  /\ exists k,
       (forall i, (i < k)%nat ->
          exists step, resultOf blockedGrid 0%nat 8%nat blockedHeap i
                       = Yield step)
       /\ resultOf blockedGrid 0%nat 8%nat blockedHeap k = Done LoopExit
       /\ openSet (stateAfter blockedGrid 0%nat 8%nat blockedHeap (S k)) = [].
Proof.
  assert (B : ~ Connected blockedHeap blockedGrid 0%nat 8%nat).
  { intro C. apply blocked_column in C. lia. }
  split; [reflexivity|]. split; [simpl; auto|]. split; [exact B|].
  apply (blocked_run_fails blockedGrid 0%nat 8%nat blockedHeap);
    [reflexivity|simpl; auto|exact B].
Defined.

(** The blocked 3 x 3 scenario, call by call. *)
Example blocked_scenario :
  fst (steps blockedGrid 0%nat 8%nat 10 (astarGenerator blockedHeap))
  = [Yield (mkStep [0%nat] open); Yield (mkStep [0%nat] visited);
     Yield (mkStep [3%nat] open); Yield (mkStep [1%nat] open);
     Yield (mkStep [3%nat] visited); Yield (mkStep [6%nat] open);
     Yield (mkStep [4%nat] open); Yield (mkStep [6%nat] visited);
     Yield (mkStep [7%nat] open); Done LoopExit]
  /\ openSet (stateAfter blockedGrid 0%nat 8%nat blockedHeap 10) = [].
Proof. split; vm_compute; reflexivity. Qed.

(** ** The run on an open grid *)

Section OpenGridRun.

Variable grid : GridType.
Variables s f : ref.
Variable h0 : Heap.

Hypothesis WF : wellFormed h0 grid = true.
Hypothesis Hs : In s (concat grid).
Hypothesis Hf : In f (concat grid).
Hypothesis NW : noWalls h0 grid = true.
Hypothesis US : unsearched h0 grid = true.

Local Abbreviation toG := (toGoal f h0).
Local Abbreviation dist := (toGoal f h0 s).

Lemma toGoal_nonneg n : 0 <= toG n.
Proof. unfold toGoal, heuristic. lia. Qed.

Lemma toGoal_static h n : Static h0 h -> heuristic h n f = toG n.
Proof.
  intro S. unfold toGoal, heuristic.
  destruct (S n) as (-> & -> & _). destruct (S f) as (-> & -> & _).
  reflexivity.
Qed.

Lemma toGoal_zero n : In n (concat grid) -> toG n = 0 -> n = f.
Proof.
  intros Hn Hz. unfold toGoal, heuristic in Hz.
  pose proof (wellFormed_locates _ _ _ WF Hn) as Ln.
  pose proof (wellFormed_locates _ _ _ WF Hf) as Lf.
  assert (Er : row (h0 n) = row (h0 f)) by lia.
  assert (Ec : col (h0 n) = col (h0 f)) by lia.
  rewrite Er, Ec in Ln. congruence.
Qed.

Lemma adjacent_toGoal p n :
  adjacentTo h0 grid p n ->
  In n (concat grid) /\ toG p - 1 <= toG n <= toG p + 1.
Proof.
  intros (r & c & Hc & Hadj). split; [eapply cell_In; eassumption|].
  destruct (wellFormed_position _ _ _ _ _ WF Hc) as [Er Ec].
  unfold toGoal, heuristic. rewrite Er, Ec. lia.
Qed.

(** A cell that is not the goal has a neighbor one step closer to it. *)
Lemma goalward p :
  In p (concat grid) -> 1 <= toG p ->
  exists n r c, cell grid r c = Some n
    /\ Z.abs (r - row (h0 p)) + Z.abs (c - col (h0 p)) = 1
    /\ toG n = toG p - 1.
Proof.
  intros Hp H1.
  pose proof (wellFormed_locates _ _ _ WF Hp) as Lp.
  pose proof (wellFormed_locates _ _ _ WF Hf) as Lf.
  destruct (cell_range _ _ _ _ _ WF Lp) as [Rp Cp].
  destruct (cell_range _ _ _ _ _ WF Lf) as [Rf Cf].
  unfold toGoal, heuristic in *.
  set (rp := row (h0 p)) in *. set (cp := col (h0 p)) in *.
  set (rf := row (h0 f)) in *. set (cf := col (h0 f)) in *.
  assert (Pick : exists r c, 0 <= r < len grid /\ 0 <= c < width grid
                   /\ Z.abs (r - rp) + Z.abs (c - cp) = 1
                   /\ Z.abs (r - rf) + Z.abs (c - cf)
                      = Z.abs (rp - rf) + Z.abs (cp - cf) - 1).
  { destruct (Z.lt_trichotomy rp rf) as [L|[E|G]].
    - exists (rp + 1), cp. lia.
    - destruct (Z.lt_trichotomy cp cf) as [L'|[E'|G']].
      + exists rp, (cp + 1). lia.
      + lia.
      + exists rp, (cp - 1). lia.
    - exists (rp - 1), cp. lia. }
  destruct Pick as (r & c & Rr & Rc & Hadj & Hd).
  destruct (cell_Some _ _ _ _ WF Rr Rc) as [n Hn].
  destruct (wellFormed_position _ _ _ _ _ WF Hn) as [Er Ec].
  exists n, r, c. rewrite Er, Ec. auto.
Qed.

Lemma cells_not_wall n : In n (concat grid) -> isWall (h0 n) = false.
Proof.
  intro Hn. unfold noWalls in NW. rewrite forallb_forall in NW.
  specialize (NW n Hn). destruct (isWall (h0 n)); [discriminate|reflexivity].
Qed.

Lemma cells_unsearched n :
  In n (concat grid) ->
  isVisited (h0 n) = false /\ gScore (h0 n) = Infinity
  /\ previousNode (h0 n) = None.
Proof.
  intro Hn. unfold unsearched in US. rewrite forallb_forall in US.
  specialize (US n Hn).
  destruct (isVisited (h0 n)), (gScore (h0 n)), (previousNode (h0 n));
    try discriminate; auto.
Qed.

Lemma active_init g :
  Inv0 grid s h0 g -> pc g = NotStarted ->
  Active grid s f h0
    (mkGen (upd (heap g) s (initStart s f (heap g))) [s] AfterStartYield).
Proof.
  intros Inv Hpc. pose proof (inv_pc _ _ _ _ Inv) as P. rewrite Hpc in P.
  destruct P as [_ Eh].
  constructor; simpl.
  - intros n Hn Hv. exfalso. unfold upd in Hv.
    destruct (Nat.eqb_spec n s) as [-> |]; simpl in Hv; rewrite Eh in Hv;
      destruct (cells_unsearched _ Hn) as (V & _); congruence.
  - intros n Hn Hv. unfold upd.
    destruct (Nat.eqb_spec n s) as [-> |Hns]; simpl.
    + right. split; [auto|]. exists 0.
      destruct (cells_unsearched _ Hs) as (_ & _ & Pn).
      assert (Eq : heuristic (heap g) s f = dist).
      { unfold toGoal, heuristic. rewrite !Eh. reflexivity. }
      rewrite Eq. unfold level. simpl.
      repeat split; auto; try lia.
      left. repeat split; auto.
      rewrite Nat.eqb_refl. simpl. rewrite Eh. exact Pn.
    + left. rewrite Eh. apply (cells_unsearched _ Hn).
  - intros n [<- |[]]. split; [exact Hs|].
    rewrite upd_same. simpl. rewrite Eh. apply (cells_unsearched _ Hs).
  - split; [auto|]. rewrite upd_same. reflexivity.
Qed.

Lemma pending_unvisited g p l :
  Inv0 grid s h0 g -> pendingOf grid f g = Some (p, l) ->
  Pending grid (heap g) l.
Proof.
  intros Inv. pose proof (inv_pc _ _ _ _ Inv) as P. unfold pendingOf.
  destruct (pc g) as [| |c|c rest|]; try discriminate.
  - destruct (Nat.eqb c f); [discriminate|].
    destruct (getUnvisitedNeighbors (heap g) c grid) as [nbrs|] eqn:E;
      [|discriminate].
    intros [= <- <-] n Hn. eapply getUnvisitedNeighbors_spec; eassumption.
  - intros [= <- <-]. apply P.
Qed.

Lemma Linked_markVisited h c n t :
  Linked grid s h n t -> Linked grid s (upd h c (markVisited (h c))) n t.
Proof.
  intros [(-> & -> & Hp)|(p & Hp & Hin & Hv & Hg)].
  - left. repeat split; auto. unfold upd.
    destruct (Nat.eqb_spec s c) as [-> |]; simpl; exact Hp.
  - right. exists p. unfold upd.
    destruct (Nat.eqb_spec n c) as [-> |], (Nat.eqb_spec p c) as [-> |];
      simpl; auto.
Qed.

Lemma Linked_relaxed h n x n0 t :
  isVisited (h n) = false -> n0 <> n ->
  Linked grid s h n0 t -> Linked grid s (upd h n x) n0 t.
Proof.
  intros Hv Hne [(-> & -> & Hp)|(p & Hp & Hin & Hpv & Hg)].
  - left. rewrite upd_other by exact Hne. auto.
  - right. exists p. assert (Hpn : p <> n) by congruence.
    rewrite upd_other by exact Hne. rewrite !upd_other by exact Hpn. auto.
Qed.

(** The node being expanded, its level, and the cell one step closer to the
    goal that waits in the open set or among the pending neighbors. *)
Lemma pending_frontier g p l :
  Inv0 grid s h0 g -> Active grid s f h0 g ->
  pendingOf grid f g = Some (p, l) ->
  isVisited (heap g p) = true /\ In p (concat grid) /\ p <> f
  /\ level s f h0 g = toG p
  /\ (forall n, In n l -> adjacentTo h0 grid p n)
  /\ Frontier s f h0 (heap g) (openSet g) (toG p) l.
Proof.
  intros Inv A. pose proof (a_pc _ _ _ _ _ A) as P.
  pose proof (inv_static _ _ _ _ Inv) as St.
  unfold pendingOf, level.
  destruct (pc g) as [| |c|c rest|] eqn:Epc; try discriminate.
  - destruct (Nat.eqb_spec c f) as [|Hcf]; [discriminate|].
    destruct (getUnvisitedNeighbors (heap g) c grid) as [nbrs|] eqn:E;
      [|discriminate].
    intros [= <- <-]. destruct P as [Hv Hc].
    repeat split; auto.
    + eapply neighbors_adjacent; eassumption.
    + right.
      assert (H1 : 1 <= toG c).
      { pose proof (toGoal_nonneg c).
        destruct (Z.eq_dec (toG c) 0) as [Z0|]; [|lia].
        exfalso. apply Hcf. apply toGoal_zero; assumption. }
      destruct (goalward c Hc H1) as (n & r & c' & Hcell & Hadj & Hn).
      exists n. split; [|exact Hn].
      unfold getUnvisitedNeighbors in E.
      destruct (candidateNeighbors (heap g) c grid) as [cs|] eqn:Ec;
        [|discriminate].
      injection E as <-. apply filter_In. split.
      * pose proof (wellFormed_locates _ _ _ WF Hc) as L.
        destruct (St c) as (Sr & Sc & _). rewrite <- Sr, <- Sc in L.
        destruct (candidateNeighbors_wf h0 (heap g) grid c WF L)
          as (l & El & Hall).
        rewrite Ec in El. injection El as <-.
        apply (Hall r c' n Hcell). rewrite Sr, Sc. exact Hadj.
      * destruct (isVisited (heap g n)) eqn:Vn; [|reflexivity].
        exfalso.
        destruct (a_visited _ _ _ _ _ A n (cell_In _ _ _ _ Hcell) Vn)
          as (_ & Hl & _).
        unfold level in Hl. rewrite Epc in Hl. lia.
  - intros [= <- <-]. destruct P as (Hcf & Hv & Hc & Hadj & Fr). auto 7.
Qed.

(** A pending neighbor one step closer to the goal that is not relaxed is
    already in the open set with the score of a shortest path. *)
Lemma skipped_in_open g p n :
  Inv0 grid s h0 g -> Active grid s f h0 g ->
  isVisited (heap g p) = true -> In p (concat grid) ->
  level s f h0 g = toG p ->
  isVisited (heap g n) = false -> In n (concat grid) ->
  toG n = toG p - 1 ->
  num_ltb (num_add (gScore (heap g p)) (Fin 1)) (gScore (heap g n)) = false ->
  In n (openSet g) /\ gScore (heap g n) = Fin (dist - toG p + 1).
Proof.
  intros Inv A Vp Hp Lv Vn Hn Hh Hlt.
  destruct (a_visited _ _ _ _ _ A p Hp Vp) as (Gp & _ & _).
  rewrite Gp in Hlt. simpl in Hlt.
  destruct (a_unvisited _ _ _ _ _ A n Hn Vn)
    as [Gi|(Ho & t & Gn & _ & _ & Hge & _ & _)].
  - rewrite Gi in Hlt. discriminate.
  - split; [exact Ho|]. rewrite Gn in *. simpl in Hlt.
    apply Z.ltb_ge in Hlt. f_equal. lia.
Qed.

(** When the loop is at its test, a cell one step closer to the goal than
    the last one expanded is in the open set. *)
Lemma open_witness g :
  Inv0 grid s h0 g -> Active grid s f h0 g ->
  pc g <> NotStarted -> pc g <> Completed -> pc g <> AfterVisitedYield f ->
  Skips grid f g ->
  exists n, In n (openSet g)
            /\ gScore (heap g n) = Fin (dist - level s f h0 g + 1)
            /\ toG n = level s f h0 g - 1.
Proof.
  intros Inv A N1 N2 N3 Sk.
  assert (Pd : pc g = AfterStartYield
               \/ exists p l, pendingOf grid f g = Some (p, l)).
  { unfold pendingOf. destruct (pc g) as [| |c|c rest|] eqn:Epc;
      try congruence; auto; right.
    - destruct (Nat.eqb_spec c f) as [-> |Hcf]; [congruence|].
      destruct (getUnvisitedNeighbors (heap g) c grid) as [nbrs|] eqn:E;
        [eauto|].
      exfalso. exact (no_throw_wf grid s h0 g c WF Hs Inv Epc E).
    - eauto. }
  destruct Pd as [Epc|(p & l & Hp)].
  - pose proof (a_pc _ _ _ _ _ A) as P. unfold level. rewrite Epc in *.
    destruct P as [Ho Hg]. exists s. repeat split; auto.
    + rewrite Hg. f_equal. lia.
    + lia.
  - destruct (pending_frontier g p l Inv A Hp)
      as (Vp & Hpc & Hpf & Lv & Adj & [(n & Ho & Hg & Hn)|(n & Hl & Hn)]).
    + exists n. rewrite Lv. auto.
    + destruct (pending_unvisited g p l Inv Hp n Hl) as [Vn Hnc].
      destruct (skipped_in_open g p n Inv A Vp Hpc Lv Vn Hnc Hn
                  (Sk p l Hp n Hl)) as [Ho Hg].
      exists n. rewrite Lv. auto.
Qed.

Lemma active_visit g c os' dropped :
  Inv0 grid s h0 g -> Active grid s f h0 g ->
  pc g <> NotStarted -> pc g <> Completed -> pc g <> AfterVisitedYield f ->
  Skips grid f g ->
  Permutation (openSet g) (dropped ++ c :: os') ->
  (forall w, In w dropped -> isWall (heap g w) = true) ->
  (forall m, In m (c :: os') -> lex_le (heap g) c m) ->
  Active grid s f h0
    (mkGen (upd (heap g) c (markVisited (heap g c))) os'
           (AfterVisitedYield c)).
Proof.
  intros Inv A N1 N2 N3 Sk P Dw Mn.
  pose proof (inv_static _ _ _ _ Inv) as St.
  destruct dropped as [|w d].
  2:{ exfalso.
      assert (Hw : In w (openSet g)).
      { apply (Permutation_in _ (Permutation_sym P)). left. reflexivity. }
      destruct (a_open _ _ _ _ _ A w Hw) as [Hwc _].
      specialize (Dw w (or_introl eq_refl)).
      destruct (St w) as (_ & _ & Ww). rewrite Ww, (cells_not_wall w Hwc) in Dw.
      discriminate. }
  simpl in P.
  assert (Hc : In c (openSet g)).
  { apply (Permutation_in _ (Permutation_sym P)). left. reflexivity. }
  assert (Hrest : forall n, In n os' -> In n (openSet g)).
  { intros n Hn. apply (Permutation_in _ (Permutation_sym P)). right.
    exact Hn. }
  pose proof (Permutation_NoDup P (inv_nodup _ _ _ _ Inv)) as ND.
  inversion ND as [|? ? Hnotin ND']; subst.
  destruct (a_open _ _ _ _ _ A c Hc) as [Hcc Vc].
  destruct (inv_open _ _ _ _ Inv c Hc) as (z & Gz & Hz & _).
  set (m := level s f h0 g) in *.
  (* the score and the level of the node taken out *)
  assert (Key : gScore (heap g c) = Fin (dist - toG c) /\ toG c = m - 1).
  { destruct (open_witness g Inv A N1 N2 N3 Sk) as (n & Hn & Gn & Hhn).
    fold m in Gn, Hhn.
    destruct (a_open _ _ _ _ _ A n Hn) as [Hnc Vn].
    destruct (a_unvisited _ _ _ _ _ A n Hnc Vn)
      as [Gi|(_ & tn & Gtn & Hsn & Fsn & _ & _ & _)]; [congruence|].
    destruct (a_unvisited _ _ _ _ _ A c Hcc Vc)
      as [Gi|(_ & t & Gt & Hsc & Fsc & Hge & Himp & _)]; [congruence|].
    fold m in Himp.
    assert (Etn : tn = dist - m + 1) by congruence. subst tn.
    assert (Hle : lex_le (heap g) c n).
    { apply Mn. apply (Permutation_in _ P). exact Hn. }
    unfold lex_le in Hle. rewrite Fsc, Fsn, Hsc, Hsn in Hle. simpl in Hle.
    rewrite Z.ltb_lt, Z.leb_le in Hle.
    rewrite Gt. split; [f_equal|]; destruct Hle as [Hle|[Hle1 Hle2]];
      try injection Hle1 as Hle1; lia. }
  destruct Key as [Gc Lc].
  assert (Hdc : toG c <= dist) by (rewrite Gz in Gc; injection Gc; lia).
  constructor; simpl.
  - intros n Hn Vn. unfold upd in *.
    destruct (Nat.eqb_spec n c) as [-> |Hne]; simpl in *.
    + unfold level. simpl. split; [exact Gc|]. split; [lia|].
      destruct (a_unvisited _ _ _ _ _ A c Hcc Vc)
        as [Gi|(_ & t & Gt & _ & _ & _ & _ & Lk)]; [congruence|].
      assert (Et : t = dist - toG c) by congruence. subst t.
      apply (Linked_markVisited (heap g) c c _ Lk).
    + destruct (a_visited _ _ _ _ _ A n Hn Vn) as (Gn & Hl & Lk).
      fold m in Hl. unfold level. simpl. split; [exact Gn|]. split; [lia|].
      apply (Linked_markVisited (heap g) c n _ Lk).
  - intros n Hn Vn. unfold upd in Vn |- *.
    destruct (Nat.eqb_spec n c) as [-> |Hne]; simpl in *; [discriminate|].
    destruct (a_unvisited _ _ _ _ _ A n Hn Vn)
      as [Gi|(Ho & t & Gt & Hsn & Fsn & Hge & Himp & Lk)]; [left; exact Gi|].
    right. split.
    + apply (Permutation_in _ P) in Ho. destruct Ho as [Ho|Ho];
        [congruence|exact Ho].
    + exists t. fold m in Himp. unfold level. simpl.
      repeat split; auto; try lia.
      apply (Linked_markVisited (heap g) c n _ Lk).
  - intros n Hn. destruct (a_open _ _ _ _ _ A n (Hrest n Hn)) as [Hnc Vn].
    split; [exact Hnc|]. rewrite upd_other; [exact Vn|].
    intros ->. contradiction.
  - split; [rewrite upd_same; reflexivity|exact Hcc].
Qed.

Lemma active_relax g p n pre post :
  Inv0 grid s h0 g -> Active grid s f h0 g ->
  pendingOf grid f g = Some (p, pre ++ n :: post) ->
  skipped (heap g) p pre ->
  isVisited (heap g n) = false -> In n (concat grid) ->
  Active grid s f h0
    (mkGen (upd (heap g) n
                (relaxed f (heap g) p n
                         (num_add (gScore (heap g p)) (Fin 1))))
           (pushIfAbsent (openSet g) n) (AfterOpenYield p post)).
Proof.
  intros Inv A Hpd Hsk Vn Hn.
  pose proof (inv_static _ _ _ _ Inv) as St.
  destruct (pending_frontier g p _ Inv A Hpd)
    as (Vp & Hp & Hpf & Lv & Adj & Fr).
  pose proof (pending_unvisited g p _ Inv Hpd) as Pn.
  destruct (a_visited _ _ _ _ _ A p Hp Vp) as (Gp & Hlp & _).
  assert (Hpn : p <> n) by congruence.
  assert (Hadj : toG p - 1 <= toG n).
  { apply adjacent_toGoal, Adj. apply in_or_app. right. left. reflexivity. }
  rewrite Gp. simpl.
  set (t := dist - toG p + 1).
  set (x := relaxed f (heap g) p n (Fin t)).
  assert (Xg : gScore x = Fin t) by reflexivity.
  assert (Xh : hScore x = Fin (toG n)).
  { unfold x. simpl. rewrite (toGoal_static _ _ St). reflexivity. }
  assert (Xf : fScore x = Fin (t + toG n)).
  { unfold x. simpl. rewrite (toGoal_static _ _ St). reflexivity. }
  assert (Xv : isVisited x = false) by exact Vn.
  assert (Xp : previousNode x = Some p) by reflexivity.
  clearbody x.
  assert (Lvl : level s f h0
                  (mkGen (upd (heap g) n x) (pushIfAbsent (openSet g) n)
                         (AfterOpenYield p post)) = level s f h0 g).
  { unfold level at 1. simpl. symmetry. exact Lv. }
  constructor; simpl.
  - intros n0 Hn0 Vn0. rewrite Lvl.
    assert (Hne : n0 <> n).
    { intros ->. rewrite upd_same in Vn0. congruence. }
    rewrite upd_other in Vn0 |- * by exact Hne.
    destruct (a_visited _ _ _ _ _ A n0 Hn0 Vn0) as (G0 & Hl0 & Lk).
    repeat split; auto; try lia.
    apply Linked_relaxed; assumption.
  - intros n0 Hn0 Vn0. rewrite Lvl.
    destruct (Nat.eq_dec n0 n) as [-> |Hne].
    + right. split; [apply pushIfAbsent_In; auto|].
      exists t. rewrite upd_same. rewrite Lv.
      repeat split; auto; try (unfold t; lia).
      right. exists p. rewrite upd_same, !upd_other by exact Hpn.
      repeat split; auto. rewrite Gp. f_equal. unfold t. lia.
    + rewrite upd_other in Vn0 |- * by exact Hne.
      destruct (a_unvisited _ _ _ _ _ A n0 Hn0 Vn0)
        as [Gi|(Ho & t0 & Gt & Hsn & Fsn & Hge & Himp & Lk)];
        [left; exact Gi|].
      right. split; [apply pushIfAbsent_In; auto|].
      exists t0. repeat split; auto.
      apply Linked_relaxed; assumption.
  - intros n0 Hn0. apply pushIfAbsent_In in Hn0.
    destruct (Nat.eq_dec n0 n) as [-> |Hne].
    + rewrite upd_same. auto.
    + rewrite upd_other by exact Hne.
      destruct Hn0 as [Hn0|Hn0]; [|contradiction].
      apply (a_open _ _ _ _ _ A n0 Hn0).
  - split; [exact Hpf|]. split; [rewrite upd_other by exact Hpn; exact Vp|].
    split; [exact Hp|]. split.
    + intros n0 Hn0. apply Adj. apply in_or_app. right. right. exact Hn0.
    + assert (InOpen : forall n1,
                 In n1 (openSet g) -> gScore (heap g n1) = Fin t ->
                 toG n1 = toG p - 1 ->
                 Frontier s f h0 (upd (heap g) n x)
                          (pushIfAbsent (openSet g) n) (toG p) post).
      { intros n1 Ho G1 H1. left. exists n1.
        split; [apply pushIfAbsent_In; auto|]. split; [|exact H1].
        destruct (Nat.eq_dec n1 n) as [-> |Hne];
          [rewrite upd_same; exact Xg|rewrite upd_other by exact Hne; exact G1]. }
      destruct Fr as [(n1 & Ho & G1 & H1)|(n1 & Hl & H1)];
        [apply (InOpen n1); assumption|].
      apply in_app_or in Hl. destruct Hl as [Hl|[<- |Hl]].
      * assert (Hl' : In n1 (pre ++ n :: post))
          by (apply in_or_app; left; exact Hl).
        destruct (Pn n1 Hl') as [V1 C1].
        destruct (skipped_in_open g p n1 Inv A Vp Hp Lv V1 C1 H1 (Hsk n1 Hl))
          as [Ho G1].
        apply (InOpen n1); assumption.
      * left. exists n. split; [apply pushIfAbsent_In; auto|].
        rewrite upd_same. auto.
      * right. exists n1. auto.
Qed.

Lemma invA_next g :
  Inv0 grid s h0 g -> InvA grid s f h0 g ->
  InvA grid s f h0 (snd (next grid s f g)).
Proof.
  intros Inv A. pose proof (next_effect grid s f h0 g Inv) as E.
  unfold InvA in A.
  destruct (pc g) as [| |c|c rest|] eqn:Epc.
  - pose proof (next_out grid s f g) as N. rewrite Epc in N. rewrite N.
    apply (active_init g Inv Epc).
  - inversion E as [Hpc Hr Hg|c' os' d Hpc Hnf Sk P Dw Mn Hw Hz Hr Hg
                    |p n pre post Hpd Hsk X Hv Hin Hlt Hr Hg
                    |Hpc Hnf Sk Hall Hr Hg|Hpc Hr Hg|Hpc Hr Hg|c' Hpc Hn Hr Hg];
      try exact I; try congruence.
    + apply (active_visit g c' os' d); auto; congruence.
    + apply (active_relax g p n pre post); auto.
  - inversion E as [Hpc Hr Hg|c' os' d Hpc Hnf Sk P Dw Mn Hw Hz Hr Hg
                    |p n pre post Hpd Hsk X Hv Hin Hlt Hr Hg
                    |Hpc Hnf Sk Hall Hr Hg|Hpc Hr Hg|Hpc Hr Hg|c' Hpc Hn Hr Hg];
      try exact I; try congruence.
    + apply (active_visit g c' os' d); auto; congruence.
    + apply (active_relax g p n pre post); auto.
  - inversion E as [Hpc Hr Hg|c' os' d Hpc Hnf Sk P Dw Mn Hw Hz Hr Hg
                    |p n pre post Hpd Hsk X Hv Hin Hlt Hr Hg
                    |Hpc Hnf Sk Hall Hr Hg|Hpc Hr Hg|Hpc Hr Hg|c' Hpc Hn Hr Hg];
      try exact I; try congruence.
    + apply (active_visit g c' os' d); auto; congruence.
    + apply (active_relax g p n pre post); auto.
  - pose proof (next_out grid s f g) as N. rewrite Epc in N. rewrite N.
    simpl. unfold InvA. rewrite Epc. exact I.
Qed.

Lemma stateAfter_invA n : InvA grid s f h0 (stateAfter grid s f h0 n).
Proof.
  induction n as [|n IH]; [exact I|].
  rewrite stateAfter_S. apply invA_next; [apply stateAfter_inv0|exact IH].
Qed.

Lemma pathLoop_null fuel h acc : pathLoop fuel h None acc = Some acc.
Proof. destruct fuel; reflexivity. Qed.

(** From a visited cell the [previousNode] links lead back to the start
    node, one step further from the goal at each link. *)
Lemma path_to_visited g :
  Active grid s f h0 g ->
  forall k n acc fuel,
    In n (concat grid) -> isVisited (heap g n) = true ->
    dist - toG n = Z.of_nat k -> (k < fuel)%nat ->
    exists pre,
      pathLoop fuel (heap g) (Some n) acc = Some ((pre ++ [n]) ++ acc)
      /\ length pre = k
      /\ hd_error (pre ++ [n]) = Some s.
Proof.
  intro A. induction k as [|k IH]; intros n acc fuel Hn Vn Hk Hfuel;
    (destruct fuel as [|fuel]; [lia|]); simpl;
    destruct (a_visited _ _ _ _ _ A n Hn Vn)
      as (Gn & Hl & [(-> & _ & Hp)|(p & Hp & Hpc & Vp & Gp)]);
    rewrite Hp.
  - exists []. rewrite pathLoop_null. auto.
  - exfalso. destruct (a_visited _ _ _ _ _ A p Hpc Vp) as (Gp' & Hlp & _).
    rewrite Gp in Gp'. injection Gp' as Gp'. lia.
  - exfalso. lia.
  - destruct (a_visited _ _ _ _ _ A p Hpc Vp) as (Gp' & Hlp & _).
    rewrite Gp in Gp'. injection Gp' as Gp'.
    destruct (IH p (n :: acc) fuel Hpc Vp ltac:(lia) ltac:(lia))
      as (pre & E & L & Hd).
    exists (pre ++ [p]). rewrite E. split; [|split].
    + rewrite <- !app_assoc. reflexivity.
    + rewrite length_app. simpl. lia.
    + rewrite <- app_assoc. destruct pre; simpl in *; exact Hd.
Qed.

Lemma active_at k :
  pc (stateAfter grid s f h0 k) <> NotStarted ->
  pc (stateAfter grid s f h0 k) <> Completed ->
  Active grid s f h0 (stateAfter grid s f h0 k).
Proof.
  intros N1 N2. pose proof (stateAfter_invA k) as A. unfold InvA in A.
  destruct (pc (stateAfter grid s f h0 k)); try congruence; exact A.
Qed.

(** C3: on a well-formed grid without walls, its search state cleared, the
    run yields finitely many events, the last of them the VISITED event of
    the goal, and ends there; the reconstructor then returns a path from the
    start node to the goal whose number of nodes is the Manhattan distance
    between the two plus one, and the goal's [gScore] is that distance. *)
Theorem open_grid_shortest_path :
  exists k path,
    (forall i, (i <= k)%nat ->
       exists step, resultOf grid s f h0 i = Yield step)
    /\ resultOf grid s f h0 k = Yield (mkStep [f] visited)
    /\ resultOf grid s f h0 (S k) = Done GoalReached
    /\ (forall fuel, (length path <= fuel)%nat ->
          getNodesInShortestPathOrder
            fuel (heap (stateAfter grid s f h0 (S (S k)))) f = Some path)
    /\ Z.of_nat (length path) = heuristic h0 s f + 1
    /\ hd_error path = Some s
    /\ (exists pre, path = pre ++ [f])
    /\ gScore (heap (stateAfter grid s f h0 (S (S k))) f)
       = Fin (heuristic h0 s f).
Proof.
  destruct (run_ends grid s f h0) as (k & Hy & Hend).
  pose proof (stateAfter_inv0 grid s f h0 k) as Inv.
  pose proof (step_effect grid s f h0 k) as E.
  destruct Hend as [[R _]|[(R & j & -> & Rj)|(_ & c & Hpc & Hn)]].
  - exfalso. rewrite R in E.
    inversion E as [| | |Hpc Hnf Sk Hall Hr Hg| | |].
    assert (N2 : pc (stateAfter grid s f h0 k) <> Completed).
    { intro C. unfold resultOf, next in R. rewrite C in R. discriminate R. }
    pose proof (active_at k Hpc N2) as A.
    destruct (open_witness _ Inv A Hpc N2 Hnf Sk) as (n & Ho & _).
    destruct (a_open _ _ _ _ _ A n Ho) as [Hc _].
    specialize (Hall n Ho).
    destruct (inv_static _ _ _ _ Inv n) as (_ & _ & W).
    rewrite W, (cells_not_wall n Hc) in Hall. discriminate.
  - set (g := stateAfter grid s f h0 (S j)) in *.
    assert (Epc : pc g = AfterVisitedYield f).
    { pose proof (step_effect grid s f h0 j) as Ej. rewrite Rj in Ej.
      inversion Ej as [|c' os' d Hpc' Hnf Sk P Dw Mn Hw Hz Hr Hg| | | | |].
      unfold g. rewrite <- Hg. reflexivity. }
    assert (A : Active grid s f h0 g)
      by (apply active_at; fold g; rewrite Epc; discriminate).
    pose proof (a_pc _ _ _ _ _ A) as P. rewrite Epc in P.
    destruct P as [Vf _].
    assert (Eh : heap (stateAfter grid s f h0 (S (S j))) = heap g).
    { rewrite R in E. inversion E as [| | | |Hpc' Hr Hg| |].
      reflexivity. }
    assert (Zf : toG f = 0) by (unfold toGoal, heuristic; lia).
    pose proof (toGoal_nonneg s) as Ds.
    destruct (a_visited _ _ _ _ _ A f Hf Vf) as (Gf & _ & _).
    destruct (path_to_visited g A (Z.to_nat dist) f [] (S (Z.to_nat dist))
                Hf Vf ltac:(lia) ltac:(lia)) as (pre & Ep & Lp & Hd).
    exists j, (pre ++ [f]). rewrite Eh.
    split; [intros i Hi; apply Hy; lia|].
    split; [exact Rj|]. split; [exact R|]. split; [|split; [|split; [|split]]].
    + intros fuel Hfuel. rewrite length_app in Hfuel. simpl in Hfuel.
      destruct (path_to_visited g A (Z.to_nat dist) f [] fuel
                  Hf Vf ltac:(lia) ltac:(lia)) as (pre' & Ep' & Lp' & Hd').
      unfold getNodesInShortestPathOrder. rewrite Ep'.
      assert (Mono : forall fuel1 fuel2 h cur acc r,
                 pathLoop fuel1 h cur acc = Some r -> (fuel1 <= fuel2)%nat ->
                 pathLoop fuel2 h cur acc = Some r).
      { induction fuel1 as [|f1 IHf]; intros fuel2 h [c|] acc r Hr Hle;
          simpl in Hr; try discriminate.
        - rewrite pathLoop_null. exact Hr.
        - destruct fuel2 as [|f2]; [lia|]. simpl. apply IHf; [exact Hr|lia].
        - rewrite pathLoop_null. exact Hr. }
      pose proof (Mono _ (Nat.max fuel (S (Z.to_nat dist))) _ _ _ _ Ep
                      (Nat.le_max_r _ _)) as M1.
      pose proof (Mono _ (Nat.max fuel (S (Z.to_nat dist))) _ _ _ _ Ep'
                      (Nat.le_max_l _ _)) as M2.
      rewrite M1 in M2. injection M2 as M2. rewrite <- M2.
      rewrite app_nil_r. reflexivity.
    + rewrite length_app. simpl. unfold toGoal in *. lia.
    + exact Hd.
    + eauto.
    + rewrite Gf. f_equal. unfold toGoal in *. lia.
  - exfalso. exact (no_throw_wf grid s h0 _ c WF Hs Inv Hpc Hn).
Qed.

End OpenGridRun.

(** The store that the component hands to the engine has its search state
    cleared, and keeps the shape and the walls of the grid. *)
Lemma cleanGrid_unsearched h grid : unsearched (cleanGrid h) grid = true.
Proof. unfold unsearched. apply forallb_forall. intros n _. reflexivity. Qed.

Lemma cleanGrid_wellFormed h grid :
  wellFormed (cleanGrid h) grid = wellFormed h grid.
Proof. reflexivity. Qed.

Lemma cleanGrid_noWalls h grid : noWalls (cleanGrid h) grid = noWalls h grid.
Proof. reflexivity. Qed.

Lemma open_grid_shortest_path_witness :
  wellFormed openHeap openGrid = true
  /\ In 0%nat (concat openGrid) /\ In 24%nat (concat openGrid)
  /\ noWalls openHeap openGrid = true
  /\ unsearched openHeap openGrid = true
  /\ exists k path,
       (forall i, (i <= k)%nat ->
          exists step, resultOf openGrid 0%nat 24%nat openHeap i = Yield step)
       /\ resultOf openGrid 0%nat 24%nat openHeap k
          = Yield (mkStep [24%nat] visited)
       /\ resultOf openGrid 0%nat 24%nat openHeap (S k) = Done GoalReached
       /\ (forall fuel, (length path <= fuel)%nat ->
             getNodesInShortestPathOrder
               fuel (heap (stateAfter openGrid 0%nat 24%nat openHeap (S (S k))))
               24%nat = Some path)
       /\ Z.of_nat (length path) = heuristic openHeap 0%nat 24%nat + 1
       /\ hd_error path = Some 0%nat
       /\ (exists pre, path = pre ++ [24%nat])
       /\ gScore (heap (stateAfter openGrid 0%nat 24%nat openHeap (S (S k)))
                       24%nat)
          = Fin (heuristic openHeap 0%nat 24%nat).
Proof.
  assert (I0 : In 0%nat (concat openGrid)) by (vm_compute; auto).
  assert (I24 : In 24%nat (concat openGrid)) by (vm_compute; auto 30).
  split; [reflexivity|]. split; [exact I0|]. split; [exact I24|].
  split; [reflexivity|]. split; [reflexivity|].
  apply (open_grid_shortest_path openGrid 0%nat 24%nat openHeap);
    auto; reflexivity.
Defined.

(** The open 5 x 5 scenario: the goal is visited by the 24th call, the
    path has 9 nodes and the cost to the goal is 8. *)
Example open_scenario :
  resultOf openGrid 0%nat 24%nat openHeap 23 = Yield (mkStep [24%nat] visited)
  /\ resultOf openGrid 0%nat 24%nat openHeap 24 = Done GoalReached
  /\ getNodesInShortestPathOrder
       9 (heap (stateAfter openGrid 0%nat 24%nat openHeap 25)) 24%nat
     = Some [0; 5; 10; 15; 20; 21; 22; 23; 24]%nat
  /\ gScore (heap (stateAfter openGrid 0%nat 24%nat openHeap 25) 24%nat)
     = Fin 8
  /\ heuristic openHeap 0%nat 24%nat = 8.
Proof. repeat split; vm_compute; reflexivity. Qed.

(** * Further properties of the engine *)

(** ** What a run leaves alone *)

Lemma identity_kept grid s f h0 i n :
  identity (heap (stateAfter grid s f h0 i) n) = identity (h0 n).
Proof.
  induction i as [|i IH]; [reflexivity|].
  pose proof (step_effect grid s f h0 i) as E.
  set (g := stateAfter grid s f h0 i) in *.
  inversion E as [Hpc Hr Hg|c os' d Hpc Hnf Sk P Dw Mn Hw Hz Hr Hg
                  |p n' pre post Hpd Hsk X Hv Hin Hlt Hr Hg
                  |Hpc Hnf Sk Hall Hr Hg|Hpc Hr Hg|Hpc Hr Hg|c Hpc Hn Hr Hg];
    simpl; try exact IH.
  - unfold upd. destruct (Nat.eqb_spec n s) as [-> |]; [|exact IH].
    rewrite <- IH. reflexivity.
  - unfold upd. destruct (Nat.eqb_spec n c) as [-> |]; [|exact IH].
    rewrite <- IH. reflexivity.
  - unfold upd. destruct (Nat.eqb_spec n n') as [-> |]; [|exact IH].
    rewrite <- IH. reflexivity.
Qed.

Lemma stranger_kept grid s f h0 i n :
  n <> s -> ~ In n (concat grid) ->
  heap (stateAfter grid s f h0 i) n = h0 n.
Proof.
  intros Hns Hng. induction i as [|i IH]; [reflexivity|].
  pose proof (step_effect grid s f h0 i) as E.
  pose proof (stateAfter_inv0 grid s f h0 i) as Inv.
  set (g := stateAfter grid s f h0 i) in *.
  inversion E as [Hpc Hr Hg|c os' d Hpc Hnf Sk P Dw Mn Hw Hz Hr Hg
                  |p n' pre post Hpd Hsk X Hv Hin Hlt Hr Hg
                  |Hpc Hnf Sk Hall Hr Hg|Hpc Hr Hg|Hpc Hr Hg|c Hpc Hn Hr Hg];
    simpl; try exact IH.
  - rewrite upd_other by exact Hns. exact IH.
  - destruct (perm_split_In _ _ _ _ P) as [Hc _].
    assert (Hnc : n <> c).
    { intros ->. destruct (inv_member _ _ _ _ Inv c Hc); contradiction. }
    rewrite upd_other by exact Hnc. exact IH.
  - assert (Hnn : n <> n') by (intros ->; contradiction).
    rewrite upd_other by exact Hnn. exact IH.
Qed.

(** X1: a run never changes the position, the role flags or the wall flag
    of any node, and it leaves every node untouched that is neither the start
    node nor a cell of the grid. *)
Theorem engine_frame grid s f h0 i n :
  identity (heap (stateAfter grid s f h0 i) n) = identity (h0 n)
  /\ (n <> s -> ~ In n (concat grid) ->
      heap (stateAfter grid s f h0 i) n = h0 n).
Proof.
  split; [apply identity_kept|apply stranger_kept].
Qed.

Lemma engine_frame_witness :
  30%nat <> 0%nat /\ ~ In 30%nat (concat blockedGrid)
  /\ identity (heap (stateAfter blockedGrid 0%nat 8%nat blockedHeap 9) 30%nat)
     = identity (blockedHeap 30%nat)
  /\ heap (stateAfter blockedGrid 0%nat 8%nat blockedHeap 9) 30%nat
     = blockedHeap 30%nat.
Proof.
  assert (A : 30%nat <> 0%nat) by discriminate.
  assert (B : ~ In 30%nat (concat blockedGrid)).
  { vm_compute. intuition discriminate. }
  split; [exact A|]. split; [exact B|].
  destruct (engine_frame blockedGrid 0%nat 8%nat blockedHeap 9 30%nat)
    as [I1 I2].
  split; [exact I1|exact (I2 A B)].
Defined.

(** ** The events *)

(** X2: every event carries exactly one node, the start node or a cell of
    the grid, and is an OPEN or a VISITED event, never a `path' step; the
    first event of every run is the OPEN event of the start node. *)
Theorem event_shape grid s f h0 i step :
  resultOf grid s f h0 0 = Yield (mkStep [s] open)
  /\ (resultOf grid s f h0 i = Yield step ->
      exists n, Member grid s n
                /\ (step = mkStep [n] open \/ step = mkStep [n] visited)).
Proof.
  split; [reflexivity|]. intro R.
  pose proof (step_effect grid s f h0 i) as E. rewrite R in E.
  pose proof (stateAfter_inv0 grid s f h0 i) as Inv.
  set (g := stateAfter grid s f h0 i) in *.
  inversion E as [Hpc Hr Hg|c os' d Hpc Hnf Sk P Dw Mn Hw Hz Hr Hg
                  |p n' pre post Hpd Hsk X Hv Hin Hlt Hr Hg| | | |].
  - exists s. split; [left; reflexivity|auto].
  - exists c. split; [|auto].
    destruct (perm_split_In _ _ _ _ P) as [Hc _].
    exact (inv_member _ _ _ _ Inv c Hc).
  - exists n'. split; [right; exact Hin|auto].
Qed.

Lemma event_shape_witness :
  resultOf openGrid 0%nat 24%nat openHeap 0 = Yield (mkStep [0%nat] open)
  /\ resultOf openGrid 0%nat 24%nat openHeap 4
     = Yield (mkStep [5%nat] visited)
  /\ exists n, Member openGrid 0%nat n
       /\ (mkStep [5%nat] visited = mkStep [n] open
           \/ mkStep [5%nat] visited = mkStep [n] visited).
Proof.
  destruct (event_shape openGrid 0%nat 24%nat openHeap 4
              (mkStep [5%nat] visited)) as [E0 E].
  split; [exact E0|]. split; [vm_compute; reflexivity|].
  apply E. vm_compute. reflexivity.
Defined.

Lemma closed_stays_closed grid s f h0 c i j :
  isVisited (heap (stateAfter grid s f h0 i) c) = true ->
  ~ In c (openSet (stateAfter grid s f h0 i)) ->
  pc (stateAfter grid s f h0 i) <> NotStarted ->
  isVisited (heap (stateAfter grid s f h0 (i + j)) c) = true
  /\ ~ In c (openSet (stateAfter grid s f h0 (i + j))).
Proof.
  intros Hv Hn Hp. induction j as [|j IH].
  - rewrite Nat.add_0_r. auto.
  - rewrite Nat.add_succ_r. destruct IH as [IHv IHn].
    assert (Hpc : pc (stateAfter grid s f h0 (i + j)) <> NotStarted).
    { destruct j; [rewrite Nat.add_0_r; exact Hp|].
      rewrite Nat.add_succ_r. apply pc_after_not_NotStarted. }
    pose proof (step_effect grid s f h0 (i + j)) as E.
    set (g := stateAfter grid s f h0 (i + j)) in *.
    inversion E as [Hpc' Hr Hg|c' os' d Hpc' Hnf Sk P Dw Mn Hw Hz Hr Hg
                    |p n' pre post Hpd Hsk X Hv' Hin Hlt Hr Hg
                    |Hpc' Hnf Sk Hall Hr Hg|Hpc' Hr Hg|Hpc' Hr Hg
                    |c' Hpc' Hn' Hr Hg]; simpl; auto;
      try (exfalso; exact (Hpc Hpc')).
    + destruct (perm_split_In _ _ _ _ P) as [Hc Hrest]. split.
      * unfold upd. destruct (Nat.eqb_spec c c'); simpl; auto.
      * intro H. apply IHn, Hrest, H.
    + assert (Hcn : c <> n') by congruence. split.
      * rewrite upd_other by exact Hcn. exact IHv.
      * intro H. apply pushIfAbsent_In in H. destruct H as [H|H]; auto.
Qed.

(** X3: no node receives a second VISITED event: once visited, a node is
    out of the open set for good. *)
Theorem visited_at_most_once grid s f h0 i j c :
  (i < j)%nat ->
  resultOf grid s f h0 i = Yield (mkStep [c] visited) ->
  resultOf grid s f h0 j <> Yield (mkStep [c] visited)
  /\ ~ In c (openSet (stateAfter grid s f h0 j)).
Proof.
  intros Hij Ri.
  pose proof (step_effect grid s f h0 i) as E. rewrite Ri in E.
  pose proof (inv_nodup _ _ _ _ (stateAfter_inv0 grid s f h0 i)) as ND.
  inversion E as [|c' os' d Hpc Hnf Sk P Dw Mn Hw Hz Hr Hg| | | | |].
  destruct (perm_split_NoDup _ _ _ _ P ND) as [_ Hnotin].
  assert (Hv : isVisited (heap (stateAfter grid s f h0 (S i)) c) = true).
  { rewrite <- Hg. simpl. rewrite upd_same. reflexivity. }
  assert (Hn : ~ In c (openSet (stateAfter grid s f h0 (S i)))).
  { rewrite <- Hg. exact Hnotin. }
  destruct (closed_stays_closed grid s f h0 c (S i) (j - S i) Hv Hn
              (pc_after_not_NotStarted grid s f h0 i)) as [_ Hout].
  replace (S i + (j - S i))%nat with j in Hout by lia.
  split; [|exact Hout].
  intro Rj. pose proof (step_effect grid s f h0 j) as Ej. rewrite Rj in Ej.
  inversion Ej as [|c'' os'' d' Hpc' Hnf' Sk' P' Dw' Mn' Hw' Hz' Hr' Hg'| | | | |].
  destruct (perm_split_In _ _ _ _ P') as [Hc _]. contradiction.
Qed.

Lemma visited_at_most_once_witness :
  (1 < 4)%nat
  /\ resultOf openGrid 0%nat 24%nat openHeap 1 = Yield (mkStep [0%nat] visited)
  /\ resultOf openGrid 0%nat 24%nat openHeap 4
     <> Yield (mkStep [0%nat] visited)
  /\ ~ In 0%nat (openSet (stateAfter openGrid 0%nat 24%nat openHeap 4)).
Proof.
  split; [lia|]. split; [vm_compute; reflexivity|].
  apply (visited_at_most_once openGrid 0%nat 24%nat openHeap 1 4 0%nat);
    [lia|vm_compute; reflexivity].
Defined.

(** ** The open set *)

Lemma heuristic_ext h h' n f :
  (forall m, row (h' m) = row (h m) /\ col (h' m) = col (h m)) ->
  heuristic h' n f = heuristic h n f.
Proof.
  intro H. unfold heuristic.
  destruct (H n) as [-> ->]. destruct (H f) as [-> ->]. reflexivity.
Qed.

Lemma heuristic_markVisited h c n f :
  heuristic (upd h c (markVisited (h c))) n f = heuristic h n f.
Proof.
  apply heuristic_ext. intro m. unfold upd.
  destruct (Nat.eqb_spec m c) as [-> |]; auto.
Qed.

Lemma heuristic_relaxed h p x t n g f :
  heuristic (upd h x (relaxed g h p x t)) n f = heuristic h n f.
Proof.
  apply heuristic_ext. intro m. unfold upd.
  destruct (Nat.eqb_spec m x) as [-> |]; auto.
Qed.

Lemma heuristic_initStart h s g n f :
  heuristic (upd h s (initStart s g h)) n f = heuristic h n f.
Proof.
  apply heuristic_ext. intro m. unfold upd.
  destruct (Nat.eqb_spec m s) as [-> |]; auto.
Qed.

Lemma stateAfter_openScores grid s f h0 i :
  OpenScores f (heap (stateAfter grid s f h0 i))
             (openSet (stateAfter grid s f h0 i)).
Proof.
  induction i as [|i IH]; [intros n []|].
  pose proof (step_effect grid s f h0 i) as E.
  set (g := stateAfter grid s f h0 i) in *.
  inversion E as [Hpc Hr Hg|c os' d Hpc Hnf Sk P Dw Mn Hw Hz Hr Hg
                  |p n' pre post Hpd Hsk X Hv Hin Hlt Hr Hg
                  |Hpc Hnf Sk Hall Hr Hg|Hpc Hr Hg|Hpc Hr Hg|c Hpc Hn Hr Hg];
    simpl; try exact IH; try solve [intros n []].
  - intros n [<- |[]]. rewrite heuristic_initStart, upd_same. simpl. auto.
  - intros n Hn. destruct (perm_split_In _ _ _ _ P) as [_ Hrest].
    rewrite heuristic_markVisited. unfold upd.
    destruct (Nat.eqb_spec n c) as [-> |]; simpl; apply IH; auto.
  - intros n Hn. apply pushIfAbsent_In in Hn. rewrite heuristic_relaxed.
    unfold upd. destruct (Nat.eqb_spec n n') as [-> |Hne]; simpl; [auto|].
    destruct Hn as [Hn|Hn]; [apply IH, Hn|contradiction].
Qed.

(** X4: at every moment of a run the open set holds no node twice, and
    each of its members is the start node or a cell of the grid whose
    [gScore] is finite and not negative, whose [distance] equals it, whose
    [hScore] is the Manhattan distance to the goal and whose [fScore] is the
    sum of the two. *)
Theorem open_set_invariant grid s f h0 i :
  NoDup (openSet (stateAfter grid s f h0 i))
  /\ forall n, In n (openSet (stateAfter grid s f h0 i)) ->
       Member grid s n
       /\ exists z,
            0 <= z
            /\ gScore (heap (stateAfter grid s f h0 i) n) = Fin z
            /\ distance (heap (stateAfter grid s f h0 i) n) = Fin z
            /\ hScore (heap (stateAfter grid s f h0 i) n)
               = Fin (heuristic h0 n f)
            /\ fScore (heap (stateAfter grid s f h0 i) n)
               = Fin (z + heuristic h0 n f).
Proof.
  pose proof (stateAfter_inv0 grid s f h0 i) as [St O ND M _].
  split; [exact ND|]. intros n Hn. split; [exact (M n Hn)|].
  destruct (O n Hn) as (z & Gz & Hz & Dz).
  destruct (stateAfter_openScores grid s f h0 i n Hn) as [Hh Hf].
  assert (Eh : heuristic (heap (stateAfter grid s f h0 i)) n f
               = heuristic h0 n f).
  { apply heuristic_ext. intro m. destruct (St m) as (? & ? & _). auto. }
  exists z. rewrite Hf, Hh, Gz, Eh. simpl. auto.
Qed.

Lemma open_set_invariant_witness :
  In 5%nat (openSet (stateAfter openGrid 0%nat 24%nat openHeap 4))
  /\ Member openGrid 0%nat 5%nat
  /\ exists z,
       0 <= z
       /\ gScore (heap (stateAfter openGrid 0%nat 24%nat openHeap 4) 5%nat)
          = Fin z
       /\ distance (heap (stateAfter openGrid 0%nat 24%nat openHeap 4) 5%nat)
          = Fin z
       /\ hScore (heap (stateAfter openGrid 0%nat 24%nat openHeap 4) 5%nat)
          = Fin (heuristic openHeap 5%nat 24%nat)
       /\ fScore (heap (stateAfter openGrid 0%nat 24%nat openHeap 4) 5%nat)
          = Fin (z + heuristic openHeap 5%nat 24%nat).
Proof.
  assert (I5 : In 5%nat (openSet (stateAfter openGrid 0%nat 24%nat openHeap 4)))
    by (vm_compute; auto).
  split; [exact I5|].
  exact (proj2 (open_set_invariant openGrid 0%nat 24%nat openHeap 4) 5%nat I5).
Defined.

(** * The neighbor lookup *)

Lemma push_cell_length grid r c acc l :
  push_cell grid r c acc = Some l -> length l = S (length acc).
Proof.
  unfold push_cell. destruct (cell grid r c); [|discriminate].
  intros [= <-]. rewrite length_app. simpl. lia.
Qed.

Lemma candidateNeighbors_length h node grid l :
  candidateNeighbors h node grid = Some l -> (length l <= 4)%nat.
Proof.
  unfold candidateNeighbors.
  set (r := row (h node)). set (c := col (h node)).
  destruct (if r >? 0 then _ else _) as [n1|] eqn:E1; [|discriminate].
  destruct (if r <? len grid - 1 then _ else _) as [n2|] eqn:E2;
    [|discriminate].
  destruct (if c >? 0 then _ else _) as [n3|] eqn:E3; [|discriminate].
  destruct (idx grid 0) as [line0|]; [|discriminate].
  intro E4.
  assert (L1 : (length n1 <= 1)%nat).
  { destruct (r >? 0); [apply push_cell_length in E1; simpl in E1; lia|].
    injection E1 as <-. simpl. lia. }
  assert (L2 : (length n2 <= S (length n1))%nat).
  { destruct (r <? len grid - 1); [apply push_cell_length in E2; lia|].
    injection E2 as <-. lia. }
  assert (L3 : (length n3 <= S (length n2))%nat).
  { destruct (c >? 0); [apply push_cell_length in E3; lia|].
    injection E3 as <-. lia. }
  assert (L4 : (length l <= S (length n3))%nat).
  { destruct (c <? len line0 - 1); [apply push_cell_length in E4; lia|].
    injection E4 as <-. lia. }
  lia.
Qed.

(** X5: on a well-formed grid the neighbor lookup of a cell raises no
    error; what it returns are exactly the unvisited nodes held at the
    positions directly above, below, left and right of the cell inside the
    grid, at most four of them. *)
Theorem neighbors_exact h grid node :
  wellFormed h grid = true -> In node (concat grid) ->
  exists l,
    getUnvisitedNeighbors h node grid = Some l
    /\ (length l <= 4)%nat
    /\ forall n,
         In n l <->
         (isVisited (h n) = false
          /\ exists r c, cell grid r c = Some n
               /\ Z.abs (r - row (h node)) + Z.abs (c - col (h node)) = 1).
Proof.
  intros W Hn.
  pose proof (wellFormed_locates _ _ _ W Hn) as L.
  destruct (candidateNeighbors_wf h h grid node W L) as (cs & Ec & Hall).
  unfold getUnvisitedNeighbors. rewrite Ec. eexists. split; [reflexivity|].
  split.
  - eapply Nat.le_trans; [apply filter_length_le|].
    eapply candidateNeighbors_length; eassumption.
  - intro n. rewrite filter_In. split.
    + intros [Hin Hv].
      split; [destruct (isVisited (h n)); [discriminate|reflexivity]|].
      destruct (candidateNeighbors_spec _ _ _ _ Ec n Hin) as (r & c & Hc & Hp).
      exists r, c. split; [exact Hc|]. lia.
    + intros [Hv (r & c & Hc & Hadj)]. split; [eapply Hall; eassumption|].
      rewrite Hv. reflexivity.
Qed.

Lemma neighbors_exact_witness :
  wellFormed blockedHeap blockedGrid = true
  /\ In 4%nat (concat blockedGrid)
  /\ exists l,
       getUnvisitedNeighbors blockedHeap 4%nat blockedGrid = Some l
       /\ (length l <= 4)%nat
       /\ forall n,
            In n l <->
            (isVisited (blockedHeap n) = false
             /\ exists r c, cell blockedGrid r c = Some n
                  /\ Z.abs (r - row (blockedHeap 4%nat))
                     + Z.abs (c - col (blockedHeap 4%nat)) = 1).
Proof.
  assert (I4 : In 4%nat (concat blockedGrid)) by (vm_compute; auto 10).
  split; [reflexivity|]. split; [exact I4|].
  apply (neighbors_exact blockedHeap blockedGrid 4%nat); [reflexivity|exact I4].
Defined.

Lemma idx_nil {A} i : idx (@nil A) i = None.
Proof.
  unfold idx. destruct (i <? 0); [reflexivity|].
  destruct (Z.to_nat i); reflexivity.
Qed.

Lemma push_cell_nil r c acc : push_cell [] r c acc = None.
Proof. unfold push_cell, cell. rewrite idx_nil. reflexivity. Qed.

(** X6: on an empty grid the neighbor lookup raises its error whatever the
    node: [grid[0]] is [undefined]. *)
Theorem neighbors_of_empty_grid h node :
  getUnvisitedNeighbors h node [] = None.
Proof.
  unfold getUnvisitedNeighbors, candidateNeighbors.
  rewrite idx_nil.
  repeat first
    [ rewrite push_cell_nil
    | match goal with
      | |- context [if ?b then _ else _] => destruct b
      end ];
    reflexivity.
Qed.

(** * The heuristic *)

(** The Manhattan heuristic is a distance on positions: never negative,
    zero from a node to itself, symmetric, and subject to the triangle
    inequality. *)
Lemma heuristic_metric h a b c :
  0 <= heuristic h a b
  /\ heuristic h a a = 0
  /\ heuristic h a b = heuristic h b a
  /\ heuristic h a c <= heuristic h a b + heuristic h b c.
Proof. unfold heuristic. repeat split; lia. Qed.

(** X7: the heuristic is consistent with the unit step cost: on a
    well-formed grid the estimates of a cell and of any neighbor that the
    lookup returns differ by exactly one. *)
Theorem heuristic_consistent h grid node f l n :
  wellFormed h grid = true -> In node (concat grid) ->
  getUnvisitedNeighbors h node grid = Some l -> In n l ->
  Z.abs (heuristic h n f - heuristic h node f) = 1.
Proof.
  intros W Hnode E Hn. unfold getUnvisitedNeighbors in E.
  destruct (candidateNeighbors h node grid) as [cs|] eqn:Ec; [|discriminate].
  injection E as <-. apply filter_In in Hn. destruct Hn as [Hn _].
  destruct (candidateNeighbors_spec _ _ _ _ Ec n Hn) as (r & c & Hc & Hp).
  destruct (wellFormed_position _ _ _ _ _ W Hc) as [Er Ec'].
  unfold heuristic. rewrite Er, Ec'. lia.
Qed.

Lemma heuristic_consistent_witness :
  wellFormed openHeap openGrid = true
  /\ In 12%nat (concat openGrid)
  /\ getUnvisitedNeighbors openHeap 12%nat openGrid
     = Some [7; 17; 11; 13]%nat
  /\ In 7%nat [7; 17; 11; 13]%nat
  /\ Z.abs (heuristic openHeap 7%nat 24%nat - heuristic openHeap 12%nat 24%nat)
     = 1.
Proof.
  assert (I12 : In 12%nat (concat openGrid)) by (vm_compute; auto 20).
  assert (E : getUnvisitedNeighbors openHeap 12%nat openGrid
              = Some [7; 17; 11; 13]%nat) by (vm_compute; reflexivity).
  assert (I7 : In 7%nat [7; 17; 11; 13]%nat) by (simpl; auto).
  split; [reflexivity|]. split; [exact I12|]. split; [exact E|].
  split; [exact I7|].
  exact (heuristic_consistent openHeap openGrid 12%nat 24%nat _ 7%nat
           eq_refl I12 E I7).
Defined.

(** * The path reconstructor, on any store *)

Lemma pathLoop_linked fuel h cur acc r :
  linked h cur acc -> pathLoop fuel h cur acc = Some r ->
  linked h None r
  /\ exists pre, r = pre ++ acc /\ (length pre <= fuel)%nat.
Proof.
  revert cur acc. induction fuel as [|k IH]; intros [c|] acc L E;
    simpl in E; try discriminate.
  - injection E as <-. split; [exact L|]. exists []. auto.
  - destruct (IH (previousNode (h c)) (c :: acc)) as (Lr & pre & -> & Hl);
      [simpl; auto|exact E|].
    split; [exact Lr|]. exists (pre ++ [c]).
    rewrite <- app_assoc, length_app. simpl. split; [reflexivity|lia].
  - injection E as <-. split; [exact L|]. exists []. simpl. split; [auto|lia].
Qed.

(** X8: whatever the store, a path that the reconstructor returns is not
    empty, ends with the node it was asked for, begins with a node whose
    [previousNode] is [null], and has every other node preceded by its
    [previousNode]. *)
Theorem reconstructed_path_follows_links fuel h finishNode path :
  getNodesInShortestPathOrder fuel h finishNode = Some path ->
  linked h None path
  /\ (exists pre, path = pre ++ [finishNode])
  /\ (1 <= length path <= fuel)%nat.
Proof.
  unfold getNodesInShortestPathOrder. intro E.
  destruct fuel as [|k]; [discriminate E|]. simpl in E.
  destruct (pathLoop_linked k h (previousNode (h finishNode)) [finishNode]
              path) as (L & pre & -> & Hl); [simpl; auto|exact E|].
  split; [exact L|]. split; [eauto|].
  rewrite length_app. simpl. lia.
Qed.

Lemma reconstructed_path_follows_links_witness :
  getNodesInShortestPathOrder
    9 (heap (stateAfter openGrid 0%nat 24%nat openHeap 25)) 24%nat
  = Some [0; 5; 10; 15; 20; 21; 22; 23; 24]%nat
  /\ linked (heap (stateAfter openGrid 0%nat 24%nat openHeap 25)) None
            [0; 5; 10; 15; 20; 21; 22; 23; 24]%nat
  /\ (exists pre, [0; 5; 10; 15; 20; 21; 22; 23; 24]%nat = pre ++ [24%nat])
  /\ (1 <= length [0; 5; 10; 15; 20; 21; 22; 23; 24]%nat <= 9)%nat.
Proof.
  assert (E : getNodesInShortestPathOrder
                9 (heap (stateAfter openGrid 0%nat 24%nat openHeap 25)) 24%nat
              = Some [0; 5; 10; 15; 20; 21; 22; 23; 24]%nat)
    by (vm_compute; reflexivity).
  split; [exact E|].
  exact (reconstructed_path_follows_links 9 _ 24%nat _ E).
Defined.

Lemma pathLoop_fails_iff fuel h cur acc :
  pathLoop fuel h cur acc = None <-> ancestor h cur fuel <> None.
Proof.
  revert cur acc. induction fuel as [|k IH]; intros [c|] acc; simpl.
  - split; [discriminate|reflexivity].
  - split; [discriminate|intro H; exfalso; apply H; reflexivity].
  - apply IH.
  - split; [discriminate|intro H; exfalso; apply H; reflexivity].
Qed.

Lemma ancestor_null h k : ancestor h None k = None.
Proof. destruct k; reflexivity. Qed.

Lemma ancestor_add h cur a b :
  ancestor h cur (a + b) = ancestor h (ancestor h cur a) b.
Proof.
  revert cur. induction a as [|a IH]; intro cur; simpl; [reflexivity|].
  destruct cur as [c|]; [apply IH|]. rewrite ancestor_null. reflexivity.
Qed.

Lemma cycle_never_ends h x k :
  (0 < k)%nat -> ancestor h (Some x) k = Some x ->
  forall m, ancestor h (Some x) m <> None.
Proof.
  intros Hk Hc m. induction m as [m IH] using lt_wf_ind.
  destruct (Nat.lt_ge_cases m k) as [Hlt|Hge].
  - intro E. replace k with (m + (k - m))%nat in Hc by lia.
    rewrite ancestor_add, E, ancestor_null in Hc. discriminate.
  - replace m with (k + (m - k))%nat by lia.
    rewrite ancestor_add, Hc. apply IH. lia.
Qed.

(** X9: the reconstructor returns exactly when the [previousNode] links
    from the node asked for reach [null]; on a chain that runs into a cycle
    its loop never ends, however many iterations it is given. *)
Theorem reconstructor_needs_acyclic_chain h finishNode :
  (forall fuel,
     getNodesInShortestPathOrder fuel h finishNode = None
     <-> ancestor h (Some finishNode) fuel <> None)
  /\ (forall j k x,
        (0 < k)%nat ->
        ancestor h (Some finishNode) j = Some x ->
        ancestor h (Some x) k = Some x ->
        forall fuel, getNodesInShortestPathOrder fuel h finishNode = None).
Proof.
  split.
  - intro fuel. apply pathLoop_fails_iff.
  - intros j k x Hk Hj Hc fuel. apply pathLoop_fails_iff.
    intro E.
    assert (N : ancestor h (Some finishNode) (j + fuel) = None).
    { rewrite Nat.add_comm, ancestor_add, E, ancestor_null. reflexivity. }
    rewrite ancestor_add, Hj in N.
    exact (cycle_never_ends h x k Hk Hc fuel N).
Qed.

Lemma reconstructor_needs_acyclic_chain_witness :
  (0 < 2)%nat
  /\ ancestor cyclicHeap (Some 0%nat) 0 = Some 0%nat
  /\ ancestor cyclicHeap (Some 0%nat) 2 = Some 0%nat
  /\ forall fuel, getNodesInShortestPathOrder fuel cyclicHeap 0%nat = None.
Proof.
  split; [exact (Nat.lt_0_succ 1)|]. split; [reflexivity|].
  split; [reflexivity|].
  exact (proj2 (reconstructor_needs_acyclic_chain cyclicHeap 0%nat)
               0%nat 2%nat 0%nat (Nat.lt_0_succ 1) eq_refl eq_refl).
Defined.

(** * The search on a grid with walls *)

Lemma connected_pathlen h grid s n :
  Connected h grid s n <-> exists k, PathLen h grid s n k.
Proof.
  split.
  - induction 1 as [W|n m r c r' c' C [k IH] Hn Hm Hadj W].
    + exists 0%nat. apply pl_start. exact W.
    + exists (S k). eapply pl_step; eassumption.
  - intros [k P]. induction P as [W|n m r c r' c' k P IH Hn Hm Hadj W].
    + apply conn_start. exact W.
    + eapply conn_step; eassumption.
Qed.

Lemma pathlen_cell h grid s n k :
  In s (concat grid) -> PathLen h grid s n k -> In n (concat grid).
Proof.
  intros Hs [W|n' m r c r' c' k' P Hn Hm Hadj W]; [exact Hs|].
  eapply cell_In; eassumption.
Qed.

Lemma Walk_snoc h grid l p n :
  Walk h grid (l ++ [p]) -> adjacentTo h grid p n -> isWall (h n) = false ->
  Walk h grid ((l ++ [p]) ++ [n]).
Proof.
  intros W Adj Wn. induction l as [|a l IH]; simpl in *.
  - inversion W; subst. apply walk_cons; [assumption|exact Adj|].
    apply walk_one. exact Wn.
  - inversion W as [n0 Wa [Ea E]|a' b rest Wa Adj' W' [Ea E]].
    + destruct l; discriminate.
    + rewrite <- E in IH. simpl. apply walk_cons; auto.
Qed.

Section GridSearch.

Variable grid : GridType.
Variables s f : ref.
Variable h0 : Heap.

Hypothesis WF : wellFormed h0 grid = true.
Hypothesis Hs : In s (concat grid).
Hypothesis US : unsearched h0 grid = true.

Local Abbreviation est n := (heuristic h0 n f).

Lemma est_static g n :
  Inv0 grid s h0 g -> heuristic (heap g) n f = est n.
Proof.
  intro Inv. apply heuristic_ext. intro m.
  destruct (inv_static _ _ _ _ Inv m) as (? & ? & _). auto.
Qed.

Lemma wall_static g n :
  Inv0 grid s h0 g -> isWall (heap g n) = isWall (h0 n).
Proof. intro Inv. apply (inv_static _ _ _ _ Inv n). Qed.

Lemma adjacent_est p n : adjacentTo h0 grid p n -> est p <= est n + 1.
Proof.
  intros (r & c & Hc & Hadj).
  destruct (wellFormed_position _ _ _ _ _ WF Hc) as [Er Ec].
  unfold heuristic. rewrite Er, Ec. lia.
Qed.

Lemma adjacent_cell p n : adjacentTo h0 grid p n -> In n (concat grid).
Proof. intros (r & c & Hc & _). eapply cell_In; eassumption. Qed.

Lemma sound_init g :
  Inv0 grid s h0 g -> pc g = NotStarted ->
  Sound grid s f h0
    (mkGen (upd (heap g) s (initStart s f (heap g))) [s] AfterStartYield).
Proof.
  intros Inv Hpc. pose proof (inv_pc _ _ _ _ Inv) as P. rewrite Hpc in P.
  destruct P as [_ Eh].
  assert (NV : forall n, In n (concat grid) ->
                 isVisited (upd (heap g) s (initStart s f (heap g)) n) = true ->
                 False).
  { intros n Hn Hv. unfold upd in Hv.
    destruct (Nat.eqb_spec n s) as [-> |]; simpl in Hv; rewrite Eh in Hv;
      destruct (cells_unsearched grid h0 US _ Hn) as (V & _); congruence. }
  constructor; simpl.
  - intros n Hn Hv. exfalso. exact (NV n Hn Hv).
  - intros n Hn Hv. destruct (Nat.eq_dec n s) as [-> |Hns].
    + right. exists 0. rewrite upd_same. simpl.
      rewrite (est_static g s Inv).
      destruct (cells_unsearched grid h0 US _ Hs) as (_ & _ & Pn).
      repeat split; auto; try lia.
      left. rewrite upd_same. simpl. rewrite Eh. auto.
    + left. rewrite upd_other by exact Hns. rewrite Eh.
      destruct (cells_unsearched grid h0 US _ Hn) as (_ & G & Pn). auto.
  - intros n [<- |[]]. split; [exact Hs|].
    rewrite upd_same. simpl. rewrite Eh.
    apply (cells_unsearched grid h0 US _ Hs).
  - intros x y Hx Hv. exfalso. exact (NV x Hx Hv).
  - intros _. right. rewrite upd_same. auto.
  - intros Hf Hv. exfalso. exact (NV f Hf Hv).
  - exact I.
Qed.

(** The pending neighbors of the node being expanded: every unvisited
    cell next to it is among them as long as none has been looked at. *)
Lemma pending_of_edge g x y p l :
  Inv0 grid s h0 g ->
  In x (concat grid) -> adjacentTo h0 grid x y ->
  isVisited (heap g y) = false ->
  pendingOf grid f g = Some (p, l) ->
  pc g = AfterVisitedYield x
  \/ (exists rest, pc g = AfterOpenYield x rest /\ In y rest) ->
  x = p /\ In y l.
Proof.
  intros Inv Hx (r & c & Hc & Hadj) Vy Hp Hcase. unfold pendingOf in Hp.
  destruct Hcase as [Epc|(rest & Epc & Hy)]; rewrite Epc in Hp.
  - destruct (Nat.eqb x f); [discriminate|].
    destruct (getUnvisitedNeighbors (heap g) x grid) as [nbrs|] eqn:E;
      [|discriminate].
    injection Hp as <- <-. split; [reflexivity|].
    unfold getUnvisitedNeighbors in E.
    destruct (candidateNeighbors (heap g) x grid) as [cs|] eqn:Ec;
      [|discriminate].
    injection E as <-. apply filter_In. split; [|rewrite Vy; reflexivity].
    pose proof (wellFormed_locates _ _ _ WF Hx) as L.
    destruct (inv_static _ _ _ _ Inv x) as (Sr & Sc & _).
    rewrite <- Sr, <- Sc in L.
    destruct (candidateNeighbors_wf h0 (heap g) grid x WF L) as (l & El & Hall).
    rewrite Ec in El. injection El as <-.
    apply (Hall r c y Hc). rewrite Sr, Sc. exact Hadj.
  - injection Hp as <- <-. auto.
Qed.

Lemma pending_exists g x :
  Inv0 grid s h0 g -> x <> f ->
  pc g = AfterVisitedYield x \/ (exists rest, pc g = AfterOpenYield x rest) ->
  exists l, pendingOf grid f g = Some (x, l).
Proof.
  intros Inv Hxf [Epc|(rest & Epc)]; unfold pendingOf; rewrite Epc.
  - destruct (Nat.eqb_spec x f); [contradiction|].
    destruct (getUnvisitedNeighbors (heap g) x grid) as [nbrs|] eqn:E;
      [eauto|].
    exfalso. exact (no_throw_wf grid s h0 g x WF Hs Inv Epc E).
  - eauto.
Qed.

(** When the loop is at its test every edge out of a visited cell has been
    relaxed. *)
Lemma edge_closed g x y :
  Inv0 grid s h0 g -> Sound grid s f h0 g ->
  pc g <> AfterVisitedYield f -> Skips grid f g ->
  In x (concat grid) -> isVisited (heap g x) = true ->
  adjacentTo h0 grid x y ->
  isVisited (heap g y) = false -> isWall (h0 y) = false ->
  exists tx ty, gScore (heap g x) = Fin tx /\ gScore (heap g y) = Fin ty
                /\ ty <= tx + 1.
Proof.
  intros Inv S Hnf Sk Hx Vx Adj Vy Wy.
  destruct (s_edges _ _ _ _ _ S x y Hx Vx Adj Vy Wy) as [H|Hcase]; [exact H|].
  assert (Hxf : x <> f).
  { intros ->. apply Hnf. apply (s_goal _ _ _ _ _ S Hx Vx). }
  destruct (pending_exists g x Inv Hxf) as [l Hp].
  { destruct Hcase as [E|(rest & E & _)]; eauto. }
  destruct (pending_of_edge g x y x l Inv Hx Adj Vy Hp Hcase) as [_ Hy].
  pose proof (Sk x l Hp y Hy) as Hlt.
  destruct (s_visited _ _ _ _ _ S x Hx Vx) as (_ & tx & _ & Gx & _).
  rewrite Gx in Hlt. simpl in Hlt.
  destruct (gScore (heap g y)) as [ty|] eqn:Gy; [|discriminate].
  simpl in Hlt. apply Z.ltb_ge in Hlt. exists tx, ty. auto.
Qed.

(** On every path from the start, the end of the path is visited or some
    open cell that is not a wall has an [fScore] that the path's length and
    end bound. *)
Lemma frontier_on_path g :
  Inv0 grid s h0 g -> Sound grid s f h0 g ->
  pc g <> AfterVisitedYield f -> Skips grid f g ->
  forall m k,
    PathLen h0 grid s m k ->
    isVisited (heap g m) = true
    \/ exists y t,
         In y (openSet g) /\ isWall (h0 y) = false
         /\ gScore (heap g y) = Fin t
         /\ t + est y <= Z.of_nat k + est m.
Proof.
  intros Inv S Hnf Sk m k P.
  induction P as [Ws|n m r c r' c' k P IH Hn Hm Hadj Wm].
  - destruct (s_start _ _ _ _ _ S Ws) as [V|[Ho G]]; [left; exact V|].
    right. exists s, 0. repeat split; auto. lia.
  - destruct (isVisited (heap g m)) eqn:Vm; [left; reflexivity|right].
    assert (Adj : adjacentTo h0 grid n m).
    { exists r', c'. split; [exact Hm|].
      destruct (wellFormed_position _ _ _ _ _ WF Hn) as [-> ->]. exact Hadj. }
    pose proof (cell_In _ _ _ _ Hn) as Hnc.
    pose proof (cell_In _ _ _ _ Hm) as Hmc.
    destruct IH as [Vn|(y & t & Ho & Wy & Gy & Hle)].
    + destruct (edge_closed g n m Inv S Hnf Sk Hnc Vn Adj Vm Wm)
        as (tn & tm & Gn & Gm & Hle).
      destruct (s_visited _ _ _ _ _ S n Hnc Vn)
        as (_ & tn' & _ & Gn' & _ & _ & Opt).
      assert (tn' = tn) by congruence. subst tn'.
      specialize (Opt k P).
      destruct (s_unvisited _ _ _ _ _ S m Hmc Vm)
        as [[Gi _]|(t & _ & Gt & _ & _ & _ & Hin)]; [congruence|].
      exists m, tm. repeat split; auto. lia.
    + exists y, t. repeat split; auto.
      pose proof (adjacent_est n m Adj). lia.
Qed.

Lemma Hop_markVisited h c n t :
  Hop grid s h0 h n t -> Hop grid s h0 (upd h c (markVisited (h c))) n t.
Proof.
  intros [(-> & -> & Hp)|(p & Hp & Hin & Hv & Hg & Adj)].
  - left. repeat split; auto. unfold upd.
    destruct (Nat.eqb_spec s c) as [-> |]; simpl; exact Hp.
  - right. exists p. unfold upd.
    destruct (Nat.eqb_spec n c) as [-> |], (Nat.eqb_spec p c) as [-> |];
      simpl; auto 6.
Qed.

Lemma Hop_relaxed h n x n0 t :
  isVisited (h n) = false -> n0 <> n ->
  Hop grid s h0 h n0 t -> Hop grid s h0 (upd h n x) n0 t.
Proof.
  intros Hv Hne [(-> & -> & Hp)|(p & Hp & Hin & Hpv & Hg & Adj)].
  - left. rewrite upd_other by exact Hne. auto.
  - right. exists p. assert (Hpn : p <> n) by congruence.
    rewrite upd_other by exact Hne. rewrite !upd_other by exact Hpn. auto 6.
Qed.

(** A visited cell's score is the length of a path to it, once its
    predecessor's is. *)
Lemma hop_path g n t :
  Sound grid s f h0 g -> In n (concat grid) -> isWall (h0 n) = false ->
  0 <= t -> Hop grid s h0 (heap g) n t ->
  PathLen h0 grid s n (Z.to_nat t).
Proof.
  intros So Hn Wn Ht [(-> & -> & _)|(p & _ & Hp & Vp & Gp & Adj)].
  - apply pl_start. exact Wn.
  - destruct (s_visited _ _ _ _ _ So p Hp Vp)
      as (_ & tp & Htp & Gp' & _ & Pp & _).
    assert (tp = t - 1) by congruence. subst tp.
    destruct Adj as (r & c & Hc & Hadj).
    replace (Z.to_nat t) with (S (Z.to_nat (t - 1))) by lia.
    eapply pl_step; [exact Pp|apply (wellFormed_locates _ _ _ WF Hp)
                     |exact Hc|exact Hadj|exact Wn].
Qed.

Lemma sound_visit g c os' dropped :
  Inv0 grid s h0 g -> Sound grid s f h0 g ->
  pc g <> AfterVisitedYield f -> Skips grid f g ->
  Permutation (openSet g) (dropped ++ c :: os') ->
  (forall w, In w dropped -> isWall (heap g w) = true) ->
  (forall m, In m (c :: os') -> lex_le (heap g) c m) ->
  isWall (heap g c) = false ->
  Sound grid s f h0
    (mkGen (upd (heap g) c (markVisited (heap g c))) os'
           (AfterVisitedYield c)).
Proof.
  intros Inv S Hnf Sk P Dw Mn Wc.
  destruct (perm_split_In _ _ _ _ P) as [Hc Hrest].
  destruct (perm_split_NoDup _ _ _ _ P (inv_nodup _ _ _ _ Inv))
    as [_ Hnotin].
  destruct (s_open _ _ _ _ _ S c Hc) as [Hcc Vc].
  rewrite (wall_static g c Inv) in Wc.
  assert (Keep : forall n, isWall (h0 n) = false -> n <> c ->
                   In n (openSet g) -> In n os').
  { intros n Wn Hne Hn. apply (Permutation_in _ P) in Hn.
    apply in_app_or in Hn. destruct Hn as [Hn|[Hn|Hn]]; auto.
    - specialize (Dw n Hn). rewrite (wall_static g n Inv) in Dw. congruence.
    - congruence. }
  destruct (inv_open _ _ _ _ Inv c Hc) as (z & Gz & Hz & _).
  destruct (s_unvisited _ _ _ _ _ S c Hcc Vc)
    as [[Gi _]|(t & Ht & Gt & Hsc & Fsc & Hopc & _)]; [congruence|].
  assert (Opt : forall k, PathLen h0 grid s c k -> t <= Z.of_nat k).
  { intros k Pk.
    destruct (frontier_on_path g Inv S Hnf Sk c k Pk)
      as [V|(y & ty & Hy & Wy & Gy & Hle)]; [congruence|].
    destruct (s_open _ _ _ _ _ S y Hy) as [Hyc Vy].
    destruct (s_unvisited _ _ _ _ _ S y Hyc Vy)
      as [[Gi _]|(ty' & _ & Gy' & Hsy & Fsy & _ & _)]; [congruence|].
    assert (ty' = ty) by congruence. subst ty'.
    assert (Hin : In y (c :: os')).
    { destruct (Nat.eq_dec y c) as [-> |Hne]; [left; reflexivity|].
      right. apply Keep; assumption. }
    specialize (Mn y Hin). unfold lex_le in Mn.
    rewrite Fsc, Fsy in Mn. simpl in Mn. rewrite Z.ltb_lt in Mn.
    destruct Mn as [Mn|[Mn _]]; [|injection Mn as Mn]; lia. }
  constructor; simpl.
  - intros n Hn Vn. unfold upd in Vn |- *.
    destruct (Nat.eqb_spec n c) as [-> |Hne]; simpl in *.
    + split; [exact Wc|]. exists t. repeat split; auto.
      * apply (Hop_markVisited (heap g) c c t Hopc).
      * apply (hop_path g c t S Hcc Wc Ht Hopc).
    + destruct (s_visited _ _ _ _ _ S n Hn Vn)
        as (Wn & tn & Htn & Gn & Hopn & Pn & Optn).
      split; [exact Wn|]. exists tn. repeat split; auto.
      apply (Hop_markVisited (heap g) c n tn Hopn).
  - intros n Hn Vn. unfold upd in Vn |- *.
    destruct (Nat.eqb_spec n c) as [-> |Hne]; simpl in *; [discriminate|].
    destruct (s_unvisited _ _ _ _ _ S n Hn Vn)
      as [G|(tn & Htn & Gn & Hsn & Fsn & Hopn & Hon)]; [left; exact G|].
    right. exists tn. repeat split; auto.
    apply (Hop_markVisited (heap g) c n tn Hopn).
  - intros n Hn. destruct (s_open _ _ _ _ _ S n (Hrest n Hn)) as [Hnc Vn].
    split; [exact Hnc|]. rewrite upd_other; [exact Vn|].
    intros ->. contradiction.
  - intros x y Hx Vx Adj Vy Wy.
    destruct (Nat.eq_dec x c) as [-> |Hxc]; [right; left; reflexivity|].
    left. rewrite upd_other in Vx by exact Hxc.
    assert (Hyc : y <> c).
    { intros ->. rewrite upd_same in Vy. discriminate. }
    rewrite upd_other in Vy by exact Hyc.
    rewrite !upd_other by assumption.
    apply (edge_closed g x y Inv S Hnf Sk Hx Vx Adj Vy Wy).
  - intro Ws. destruct (Nat.eq_dec s c) as [Esc|Nsc].
    + left. rewrite Esc, upd_same. reflexivity.
    + rewrite upd_other by exact Nsc.
      destruct (s_start _ _ _ _ _ S Ws) as [V|[Ho G]]; [left; exact V|].
      right. split; [apply Keep; assumption|exact G].
  - intros Hf Vf. destruct (Nat.eq_dec f c) as [-> |Hfc]; [reflexivity|].
    rewrite upd_other in Vf by exact Hfc.
    exfalso. apply Hnf. apply (s_goal _ _ _ _ _ S Hf Vf).
  - exact I.
Qed.

Lemma pending_facts g p l :
  Inv0 grid s h0 g -> Sound grid s f h0 g ->
  pendingOf grid f g = Some (p, l) ->
  In p (concat grid) /\ isVisited (heap g p) = true
  /\ pc g <> AfterVisitedYield f
  /\ forall y, In y l -> adjacentTo h0 grid p y.
Proof.
  intros Inv So Hp. pose proof (inv_pc _ _ _ _ Inv) as P.
  pose proof (s_pc _ _ _ _ _ So) as Q.
  unfold pendingOf in Hp. destruct (pc g) as [| |c|c rest|] eqn:Epc;
    try discriminate.
  - destruct (Nat.eqb_spec c f) as [|Hcf]; [discriminate|].
    destruct (getUnvisitedNeighbors (heap g) c grid) as [nbrs|] eqn:E;
      [|discriminate].
    injection Hp as <- <-. destruct P as [(V & _) M].
    repeat split.
    + destruct M as [-> |M]; assumption.
    + exact V.
    + congruence.
    + apply (neighbors_adjacent h0 (heap g) grid c nbrs
               (inv_static _ _ _ _ Inv) E).
  - injection Hp as <- <-. destruct P as ((V & _) & M & _).
    repeat split.
    + destruct M as [-> |M]; assumption.
    + exact V.
    + discriminate.
    + exact Q.
Qed.

Lemma sound_relax g p n pre post :
  Inv0 grid s h0 g -> Sound grid s f h0 g ->
  pendingOf grid f g = Some (p, pre ++ n :: post) ->
  skipped (heap g) p pre ->
  isVisited (heap g n) = false ->
  In n (concat grid) ->
  num_ltb (num_add (gScore (heap g p)) (Fin 1)) (gScore (heap g n)) = true ->
  Sound grid s f h0
    (mkGen (upd (heap g) n
                (relaxed f (heap g) p n (num_add (gScore (heap g p)) (Fin 1))))
           (pushIfAbsent (openSet g) n) (AfterOpenYield p post)).
Proof.
  intros Inv So Hpd Hsk Vn Hn Hlt.
  destruct (pending_facts g p _ Inv So Hpd) as (Hp & Vp & Hnf & Adjs).
  destruct (s_visited _ _ _ _ _ So p Hp Vp) as (Wp & tp & Htp & Gp & _).
  assert (Hpn : p <> n) by congruence.
  rewrite Gp in Hlt |- *. simpl num_add in Hlt |- *.
  assert (Keep : forall x, x <> n ->
            upd (heap g) n (relaxed f (heap g) p n (Fin (tp + 1))) x
            = heap g x).
  { intros x Hx. apply upd_other. exact Hx. }
  assert (AdjN : adjacentTo h0 grid p n).
  { apply Adjs. apply in_or_app. right. left. reflexivity. }
  constructor; simpl.
  - intros x Hx Vx. destruct (Nat.eq_dec x n) as [-> |Hxn].
    + rewrite upd_same in Vx. simpl in Vx. congruence.
    + rewrite Keep in Vx |- * by exact Hxn.
      destruct (s_visited _ _ _ _ _ So x Hx Vx)
        as (Wx & tx & Htx & Gx & Hopx & Px & Optx).
      split; [exact Wx|]. exists tx. repeat split; auto.
      apply Hop_relaxed; assumption.
  - intros x Hx Vx. destruct (Nat.eq_dec x n) as [-> |Hxn].
    + right. exists (tp + 1). rewrite upd_same. simpl.
      rewrite (est_static g n Inv). repeat split; auto; try lia.
      * right. exists p. rewrite upd_same, !Keep by exact Hpn. simpl.
        replace (tp + 1 - 1) with tp by lia. auto 6.
      * intros _. apply pushIfAbsent_In. right. reflexivity.
    + rewrite Keep in Vx |- * by exact Hxn.
      destruct (s_unvisited _ _ _ _ _ So x Hx Vx)
        as [G|(tx & Htx & Gx & Hsx & Fsx & Hopx & Hox)]; [left; exact G|].
      right. exists tx. repeat split; auto.
      * apply Hop_relaxed; assumption.
      * intro Wx. apply pushIfAbsent_In. left. auto.
  - intros x Hx. apply pushIfAbsent_In in Hx. destruct Hx as [Hx| ->].
    + destruct (s_open _ _ _ _ _ So x Hx) as [Hxc Vx]. split; [exact Hxc|].
      destruct (Nat.eq_dec x n) as [-> |Hxn].
      * rewrite upd_same. simpl. exact Vn.
      * rewrite Keep by exact Hxn. exact Vx.
    + split; [exact Hn|]. rewrite upd_same. simpl. exact Vn.
  - intros x y Hx Vx Adj Vy Wy.
    assert (Hxn : x <> n).
    { intros ->. rewrite upd_same in Vx. simpl in Vx. congruence. }
    rewrite Keep in Vx by exact Hxn. rewrite (Keep x Hxn).
    assert (Vy' : isVisited (heap g y) = false).
    { destruct (Nat.eq_dec y n) as [-> |Hyn]; [exact Vn|].
      rewrite Keep in Vy by exact Hyn. exact Vy. }
    assert (Closed : forall tx ty,
              gScore (heap g x) = Fin tx -> gScore (heap g y) = Fin ty ->
              ty <= tx + 1 ->
              exists tx ty',
                gScore (heap g x) = Fin tx
                /\ gScore (upd (heap g) n
                             (relaxed f (heap g) p n (Fin (tp + 1))) y)
                   = Fin ty'
                /\ ty' <= tx + 1).
    { intros tx ty Gx Gy Hle. destruct (Nat.eq_dec y n) as [-> |Hyn].
      - exists tx, (tp + 1). rewrite upd_same. simpl.
        rewrite Gy in Hlt. simpl in Hlt. apply Z.ltb_lt in Hlt.
        repeat split; auto. lia.
      - exists tx, ty. rewrite Keep by exact Hyn. auto. }
    destruct (s_edges _ _ _ _ _ So x y Hx Vx Adj Vy' Wy)
      as [(tx & ty & Gx & Gy & Hle)|Hcase].
    + left. apply (Closed tx ty Gx Gy Hle).
    + destruct (pending_of_edge g x y p _ Inv Hx Adj Vy' Hpd Hcase)
        as [-> Hy].
      apply in_app_or in Hy. destruct Hy as [Hy|[<- |Hy]].
      * left. specialize (Hsk y Hy). rewrite Gp in Hsk. simpl in Hsk.
        destruct (gScore (heap g y)) as [ty|] eqn:Gy; [|discriminate].
        simpl in Hsk. apply Z.ltb_ge in Hsk.
        apply (Closed tp ty Gp eq_refl). exact Hsk.
      * left. exists tp, (tp + 1). rewrite upd_same. simpl.
        repeat split; auto. lia.
      * right. right. exists post. auto.
  - intro Ws. destruct (s_start _ _ _ _ _ So Ws) as [V|[Ho G]].
    + left. rewrite Keep; [exact V|]. congruence.
    + assert (Hsn : s <> n).
      { intros ->. rewrite G in Hlt. simpl in Hlt.
        apply Z.ltb_lt in Hlt. lia. }
      right. rewrite Keep by exact Hsn. split; [|exact G].
      apply pushIfAbsent_In. left. exact Ho.
  - intros Hf Vf. exfalso. apply Hnf.
    assert (Hfn : f <> n).
    { intros ->. rewrite upd_same in Vf. simpl in Vf. congruence. }
    rewrite Keep in Vf by exact Hfn.
    apply (s_goal _ _ _ _ _ So Hf Vf).
  - intros y Hy. apply Adjs. apply in_or_app. right. right. exact Hy.
Qed.

Lemma invS_next g :
  Inv0 grid s h0 g -> InvS grid s f h0 g ->
  InvS grid s f h0 (snd (next grid s f g)).
Proof.
  intros Inv A. pose proof (next_effect grid s f h0 g Inv) as E.
  unfold InvS in A.
  destruct (pc g) as [| |c|c rest|] eqn:Epc.
  - pose proof (next_out grid s f g) as N. rewrite Epc in N. rewrite N.
    apply (sound_init g Inv Epc).
  - inversion E as [Hpc Hr Hg|c' os' d Hpc Hnf Sk P Dw Mn Hw Hz Hr Hg
                    |p n pre post Hpd Hsk X Hv Hin Hlt Hr Hg
                    |Hpc Hnf Sk Hall Hr Hg|Hpc Hr Hg|Hpc Hr Hg|c' Hpc Hn Hr Hg];
      try exact I; try congruence.
    + apply (sound_visit g c' os' d); auto.
    + apply (sound_relax g p n pre post); auto.
  - inversion E as [Hpc Hr Hg|c' os' d Hpc Hnf Sk P Dw Mn Hw Hz Hr Hg
                    |p n pre post Hpd Hsk X Hv Hin Hlt Hr Hg
                    |Hpc Hnf Sk Hall Hr Hg|Hpc Hr Hg|Hpc Hr Hg|c' Hpc Hn Hr Hg];
      try exact I; try congruence.
    + apply (sound_visit g c' os' d); auto.
    + apply (sound_relax g p n pre post); auto.
  - inversion E as [Hpc Hr Hg|c' os' d Hpc Hnf Sk P Dw Mn Hw Hz Hr Hg
                    |p n pre post Hpd Hsk X Hv Hin Hlt Hr Hg
                    |Hpc Hnf Sk Hall Hr Hg|Hpc Hr Hg|Hpc Hr Hg|c' Hpc Hn Hr Hg];
      try exact I; try congruence.
    + apply (sound_visit g c' os' d); auto.
    + apply (sound_relax g p n pre post); auto.
  - pose proof (next_out grid s f g) as N. rewrite Epc in N. rewrite N.
    simpl. unfold InvS. rewrite Epc. exact I.
Qed.

Lemma stateAfter_invS n : InvS grid s f h0 (stateAfter grid s f h0 n).
Proof.
  induction n as [|n IH]; [exact I|].
  rewrite stateAfter_S. apply invS_next; [apply stateAfter_inv0|exact IH].
Qed.

Lemma sound_at k :
  pc (stateAfter grid s f h0 k) <> NotStarted ->
  pc (stateAfter grid s f h0 k) <> Completed ->
  Sound grid s f h0 (stateAfter grid s f h0 k).
Proof.
  intros N1 N2. pose proof (stateAfter_invS k) as A. unfold InvS in A.
  destruct (pc (stateAfter grid s f h0 k)); try congruence; exact A.
Qed.

(** From a visited cell the [previousNode] links lead back to the start
    node over cells that are not walls, each next to the one before, in as
    many steps as the cell's [gScore] says. *)
Lemma walk_to_visited g :
  Sound grid s f h0 g ->
  forall k n,
    In n (concat grid) -> isVisited (heap g n) = true ->
    gScore (heap g n) = Fin (Z.of_nat k) ->
    exists pre,
      length pre = k
      /\ hd_error (pre ++ [n]) = Some s
      /\ Walk h0 grid (pre ++ [n])
      /\ forall acc fuel, (k < fuel)%nat ->
           pathLoop fuel (heap g) (Some n) acc = Some ((pre ++ [n]) ++ acc).
Proof.
  intro So. induction k as [|k IH]; intros n Hn Vn Gn;
    destruct (s_visited _ _ _ _ _ So n Hn Vn)
      as (Wn & t & Ht & Gt & Hopn & _ & _);
    rewrite Gn in Gt; apply (f_equal (fun x => match x with
                                               | Fin z => z
                                               | Infinity => 0
                                               end)) in Gt; simpl in Gt;
    subst t;
    destruct Hopn as [(-> & E0 & Hp)|(p & Hp & Hpc & Vp & Gp & Adj)].
  - exists []. repeat split; auto.
    + apply walk_one. exact Wn.
    + intros acc [|fuel] Hfuel; [lia|]. simpl. rewrite Hp.
      apply pathLoop_null.
  - exfalso.
    destruct (s_visited _ _ _ _ _ So p Hpc Vp) as (_ & tp & Htp & Gp' & _).
    rewrite Gp in Gp'. injection Gp' as Gp'. lia.
  - exfalso. lia.
  - destruct (IH p Hpc Vp) as (pre & L & Hd & W & Run).
    { rewrite Gp. f_equal. lia. }
    exists (pre ++ [p]). repeat split.
    + rewrite length_app. simpl. lia.
    + rewrite <- app_assoc. destruct pre; simpl in *; exact Hd.
    + apply Walk_snoc; assumption.
    + intros acc [|fuel] Hfuel; [lia|]. simpl. rewrite Hp.
      rewrite (Run (n :: acc) fuel) by lia.
      rewrite <- !app_assoc. reflexivity.
Qed.

(** X10: on a well-formed grid with walls, its search state cleared, the
    node of every VISITED event has by then as [gScore] the length of a
    shortest path from the start node over cells that are not walls: a path
    of that length exists, and none is shorter. *)
Theorem visited_score_is_distance i c :
  resultOf grid s f h0 i = Yield (mkStep [c] visited) ->
  exists d,
    gScore (heap (stateAfter grid s f h0 (S i)) c) = Fin (Z.of_nat d)
    /\ PathLen h0 grid s c d
    /\ forall k, PathLen h0 grid s c k -> (d <= k)%nat.
Proof.
  intro R. pose proof (step_effect grid s f h0 i) as E. rewrite R in E.
  set (g := stateAfter grid s f h0 (S i)) in *.
  assert (Epc : pc g = AfterVisitedYield c).
  { inversion E as [|c' os' d Hpc' Hnf Sk P Dw Mn Hw Hz Hr Hg| | | | |].
    reflexivity. }
  pose proof (stateAfter_inv0 grid s f h0 (S i)) as Inv. fold g in Inv.
  assert (So : Sound grid s f h0 g)
    by (apply sound_at; fold g; rewrite Epc; discriminate).
  pose proof (inv_pc _ _ _ _ Inv) as P. rewrite Epc in P.
  destruct P as [(Vc & _) M].
  assert (Hc : In c (concat grid)) by (destruct M as [-> |]; assumption).
  destruct (s_visited _ _ _ _ _ So c Hc Vc) as (_ & t & Ht & Gt & _ & Pt & Opt).
  exists (Z.to_nat t). rewrite Gt. repeat split.
  - f_equal. lia.
  - exact Pt.
  - intros k Pk. specialize (Opt k Pk). lia.
Qed.

Lemma goal_found :
  Connected h0 grid s f ->
  exists k,
    (forall i, (i <= k)%nat ->
       exists step, resultOf grid s f h0 i = Yield step)
    /\ resultOf grid s f h0 k = Yield (mkStep [f] visited)
    /\ resultOf grid s f h0 (S k) = Done GoalReached.
Proof.
  intro C. apply connected_pathlen in C. destruct C as [k0 P0].
  pose proof (pathlen_cell _ _ _ _ _ Hs P0) as Hf.
  destruct (run_ends grid s f h0) as (k & Hy & Hend).
  pose proof (stateAfter_inv0 grid s f h0 k) as Inv.
  pose proof (step_effect grid s f h0 k) as E.
  destruct Hend as [[R _]|[(R & j & -> & Rj)|(_ & c & Hpc & Hn)]].
  - exfalso. rewrite R in E.
    inversion E as [| | |Hpc Hnf Sk Hall Hr Hg| | |].
    assert (N2 : pc (stateAfter grid s f h0 k) <> Completed).
    { intro C. unfold resultOf, next in R. rewrite C in R. discriminate R. }
    pose proof (sound_at k Hpc N2) as So.
    destruct (frontier_on_path _ Inv So Hnf Sk f k0 P0)
      as [Vf|(y & t & Ho & Wy & _)].
    + apply Hnf. apply (s_goal _ _ _ _ _ So Hf Vf).
    + specialize (Hall y Ho). rewrite (wall_static _ y Inv) in Hall.
      congruence.
  - exists j. split; [intros i Hi; apply Hy; lia|]. auto.
  - exfalso. exact (no_throw_wf grid s h0 _ c WF Hs Inv Hpc Hn).
Qed.

(** X11: on a well-formed grid with walls, its search state cleared, a
    goal that some path of cells that are not walls connects to the start
    is found: the run yields finitely many events, the last of them the
    VISITED event of the goal, and the call after it ends the run at the
    goal test. *)
Theorem reachable_goal_is_found :
  Connected h0 grid s f ->
  exists k,
    (forall i, (i <= k)%nat ->
       exists step, resultOf grid s f h0 i = Yield step)
    /\ resultOf grid s f h0 k = Yield (mkStep [f] visited)
    /\ resultOf grid s f h0 (S k) = Done GoalReached.
Proof. exact goal_found. Qed.

(** X12: on a well-formed grid with walls, its search state cleared, once
    the run has ended at the goal test the reconstructor returns, on the
    store the run leaves, a shortest path: it goes from the start node to
    the goal over cells that are not walls, each next to the one before,
    its number of steps is the goal's [gScore], and no path from the start
    to the goal has fewer steps. *)
Theorem found_path_is_shortest k :
  resultOf grid s f h0 k = Done GoalReached ->
  exists path d,
    (forall fuel, (length path <= fuel)%nat ->
       getNodesInShortestPathOrder
         fuel (heap (stateAfter grid s f h0 (S k))) f = Some path)
    /\ hd_error path = Some s
    /\ (exists pre, path = pre ++ [f])
    /\ Walk h0 grid path
    /\ length path = S d
    /\ gScore (heap (stateAfter grid s f h0 (S k)) f) = Fin (Z.of_nat d)
    /\ forall k', PathLen h0 grid s f k' -> (d <= k')%nat.
Proof.
  intro R. pose proof (step_effect grid s f h0 k) as E. rewrite R in E.
  set (g := stateAfter grid s f h0 k) in *.
  assert (X : pc g = AfterVisitedYield f
              /\ heap (stateAfter grid s f h0 (S k)) = heap g).
  { inversion E as [| | | |Hpc' Hr Hg| |]. auto. }
  destruct X as [Epc Eh]. rewrite Eh.
  pose proof (stateAfter_inv0 grid s f h0 k) as Inv. fold g in Inv.
  assert (So : Sound grid s f h0 g)
    by (apply sound_at; fold g; rewrite Epc; discriminate).
  pose proof (inv_pc _ _ _ _ Inv) as P. rewrite Epc in P.
  destruct P as [(Vf & _) M].
  assert (Hf : In f (concat grid)) by (destruct M as [-> |]; assumption).
  destruct (s_visited _ _ _ _ _ So f Hf Vf) as (_ & t & Ht & Gt & _ & _ & Opt).
  destruct (walk_to_visited g So (Z.to_nat t) f Hf Vf)
    as (pre & L & Hd & W & Run).
  { rewrite Gt. f_equal. lia. }
  exists (pre ++ [f]), (Z.to_nat t). repeat split; eauto.
  - intros fuel Hfuel. rewrite length_app in Hfuel. simpl in Hfuel.
    unfold getNodesInShortestPathOrder. rewrite (Run [] fuel) by lia.
    apply f_equal, app_nil_r.
  - rewrite length_app. simpl. lia.
  - rewrite Gt. f_equal. lia.
  - intros k' Pk. specialize (Opt k' Pk). lia.
Qed.

(** The store of a completed generator is the one the last call before
    completion found. *)
Lemma heap_last_active k :
  exists k',
    pc (stateAfter grid s f h0 k') <> Completed
    /\ heap (stateAfter grid s f h0 k) = heap (stateAfter grid s f h0 k').
Proof.
  induction k as [|k (k' & Hk' & IH)].
  - exists 0%nat. split; [discriminate|reflexivity].
  - destruct (pc (stateAfter grid s f h0 (S k))) eqn:Epc;
      try (exists (S k); split; [congruence|reflexivity]).
    exists k'. split; [exact Hk'|]. rewrite <- IH.
    pose proof (step_effect grid s f h0 k) as E.
    inversion E as [Hpc Hr Hg|c os' d Hpc Hnf Sk P Dw Mn Hw Hz Hr Hg
                    |p n pre post Hpd Hsk X Hv Hin Hlt Hr Hg
                    |Hpc Hnf Sk Hall Hr Hg|Hpc Hr Hg|Hpc Hr Hg|c Hpc Hn Hr Hg];
      try reflexivity; rewrite <- Hg in Epc; discriminate.
Qed.

Lemma links_end h n :
  previousNode (h n) = None ->
  exists path,
    (forall fuel, (length path <= fuel)%nat ->
       getNodesInShortestPathOrder fuel h n = Some path)
    /\ exists pre, path = pre ++ [n].
Proof.
  intro Hp. exists [n]. split; [|exists []; reflexivity].
  intros [|fuel] Hfuel; [simpl in Hfuel; lia|].
  unfold getNodesInShortestPathOrder. simpl. rewrite Hp.
  apply pathLoop_null.
Qed.

Lemma links_return g n :
  Sound grid s f h0 g -> In n (concat grid) ->
  exists path,
    (forall fuel, (length path <= fuel)%nat ->
       getNodesInShortestPathOrder fuel (heap g) n = Some path)
    /\ exists pre, path = pre ++ [n].
Proof.
  intros So Hn.
  assert (V : forall m, In m (concat grid) -> isVisited (heap g m) = true ->
                exists pre, forall acc fuel, (length pre < fuel)%nat ->
                  pathLoop fuel (heap g) (Some m) acc
                  = Some ((pre ++ [m]) ++ acc)).
  { intros m Hm Vm.
    destruct (s_visited _ _ _ _ _ So m Hm Vm) as (_ & t & Ht & Gt & _).
    destruct (walk_to_visited g So (Z.to_nat t) m Hm Vm)
      as (pre & L & _ & _ & Run).
    { rewrite Gt. f_equal. lia. }
    exists pre. rewrite L. exact Run. }
  destruct (isVisited (heap g n)) eqn:Vn.
  - destruct (V n Hn Vn) as [pre Run]. exists (pre ++ [n]).
    split; [|eauto]. intros fuel Hfuel.
    rewrite length_app in Hfuel. simpl in Hfuel.
    unfold getNodesInShortestPathOrder. rewrite (Run [] fuel) by lia.
    apply f_equal, app_nil_r.
  - destruct (s_unvisited _ _ _ _ _ So n Hn Vn)
      as [[_ Hp]|(t & _ & _ & _ & _
                  & [(_ & _ & Hp)|(p & Hp & Hpc & Vp & _)] & _)];
      try (apply links_end; exact Hp).
    destruct (V p Hpc Vp) as [pre Run]. exists ((pre ++ [p]) ++ [n]).
    split; [|eauto]. intros [|fuel] Hfuel;
      rewrite !length_app in Hfuel; simpl in Hfuel; [lia|].
    unfold getNodesInShortestPathOrder. simpl. rewrite Hp.
    apply Run. lia.
Qed.

(** X13: on a well-formed grid with walls, its search state cleared, the
    reconstructor returns whenever it is called, on any cell of the grid and
    after any number of calls of the run, completed or not, successful or
    not: the [previousNode] links that the engine writes never form a cycle.
    The path it returns ends at the cell asked for. *)
Theorem reconstructor_returns_after_run k n :
  In n (concat grid) ->
  exists path,
    (forall fuel, (length path <= fuel)%nat ->
       getNodesInShortestPathOrder fuel (heap (stateAfter grid s f h0 k)) n
       = Some path)
    /\ exists pre, path = pre ++ [n].
Proof.
  intro Hn. destruct (heap_last_active k) as (k' & Hk' & ->).
  destruct (pc (stateAfter grid s f h0 k')) eqn:Epc; try congruence;
    try (apply links_return; [apply sound_at; rewrite Epc; discriminate
                             |exact Hn]).
  apply links_end. rewrite (heap_before_start grid s f h0 k' Epc n).
  apply (cells_unsearched grid h0 US n Hn).
Qed.

End GridSearch.

(** The detour scenario: the goal two cells right of the start is reached
    around the wall in six steps. *)
Lemma detour_connected : Connected detourHeap detourGrid 0%nat 2%nat.
Proof.
  apply (conn_step _ _ _ 5%nat 2%nat 1 2 0 2); try reflexivity.
  apply (conn_step _ _ _ 8%nat 5%nat 2 2 1 2); try reflexivity.
  apply (conn_step _ _ _ 7%nat 8%nat 2 1 2 2); try reflexivity.
  apply (conn_step _ _ _ 6%nat 7%nat 2 0 2 1); try reflexivity.
  apply (conn_step _ _ _ 3%nat 6%nat 1 0 2 0); try reflexivity.
  apply (conn_step _ _ _ 0%nat 3%nat 0 0 1 0); try reflexivity.
  apply conn_start. reflexivity.
Qed.

Lemma detour_start : In 0%nat (concat detourGrid).
Proof. vm_compute. auto. Qed.

Lemma visited_score_is_distance_witness :
  wellFormed detourHeap detourGrid = true
  /\ In 0%nat (concat detourGrid)
  /\ unsearched detourHeap detourGrid = true
  /\ resultOf detourGrid 0%nat 2%nat detourHeap 13
     = Yield (mkStep [5%nat] visited)
  /\ exists d,
       gScore (heap (stateAfter detourGrid 0%nat 2%nat detourHeap 14) 5%nat)
       = Fin (Z.of_nat d)
       /\ PathLen detourHeap detourGrid 0%nat 5%nat d
       /\ forall k, PathLen detourHeap detourGrid 0%nat 5%nat k -> (d <= k)%nat.
Proof.
  split; [reflexivity|]. split; [exact detour_start|].
  split; [reflexivity|]. split; [reflexivity|].
  apply (visited_score_is_distance detourGrid 0%nat 2%nat detourHeap
           eq_refl detour_start eq_refl 13%nat 5%nat).
  reflexivity.
Defined.

Lemma reachable_goal_is_found_witness :
  wellFormed detourHeap detourGrid = true
  /\ In 0%nat (concat detourGrid)
  /\ unsearched detourHeap detourGrid = true
  /\ Connected detourHeap detourGrid 0%nat 2%nat
  /\ exists k,
       (forall i, (i <= k)%nat ->
          exists step, resultOf detourGrid 0%nat 2%nat detourHeap i
                       = Yield step)
       /\ resultOf detourGrid 0%nat 2%nat detourHeap k
          = Yield (mkStep [2%nat] visited)
       /\ resultOf detourGrid 0%nat 2%nat detourHeap (S k) = Done GoalReached.
Proof.
  split; [reflexivity|]. split; [exact detour_start|].
  split; [reflexivity|]. split; [exact detour_connected|].
  apply (reachable_goal_is_found detourGrid 0%nat 2%nat detourHeap
           eq_refl detour_start eq_refl detour_connected).
Defined.

Lemma found_path_is_shortest_witness :
  wellFormed detourHeap detourGrid = true
  /\ In 0%nat (concat detourGrid)
  /\ unsearched detourHeap detourGrid = true
  /\ resultOf detourGrid 0%nat 2%nat detourHeap 16 = Done GoalReached
  /\ exists path d,
       (forall fuel, (length path <= fuel)%nat ->
          getNodesInShortestPathOrder
            fuel (heap (stateAfter detourGrid 0%nat 2%nat detourHeap 17))
            2%nat = Some path)
       /\ hd_error path = Some 0%nat
       /\ (exists pre, path = pre ++ [2%nat])
       /\ Walk detourHeap detourGrid path
       /\ length path = S d
       /\ gScore (heap (stateAfter detourGrid 0%nat 2%nat detourHeap 17) 2%nat)
          = Fin (Z.of_nat d)
       /\ forall k', PathLen detourHeap detourGrid 0%nat 2%nat k' ->
                     (d <= k')%nat.
Proof.
  split; [reflexivity|]. split; [exact detour_start|].
  split; [reflexivity|]. split; [reflexivity|].
  apply (found_path_is_shortest detourGrid 0%nat 2%nat detourHeap
           eq_refl detour_start eq_refl 16%nat).
  reflexivity.
Defined.

Lemma reconstructor_returns_after_run_witness :
  wellFormed detourHeap detourGrid = true
  /\ In 0%nat (concat detourGrid)
  /\ unsearched detourHeap detourGrid = true
  /\ In 1%nat (concat detourGrid)
  /\ exists path,
       (forall fuel, (length path <= fuel)%nat ->
          getNodesInShortestPathOrder
            fuel (heap (stateAfter detourGrid 0%nat 2%nat detourHeap 30))
            1%nat = Some path)
       /\ exists pre, path = pre ++ [1%nat].
Proof.
  assert (I1 : In 1%nat (concat detourGrid)) by (vm_compute; auto).
  split; [reflexivity|]. split; [exact detour_start|].
  split; [reflexivity|]. split; [exact I1|].
  apply (reconstructor_returns_after_run detourGrid 0%nat 2%nat detourHeap
           eq_refl detour_start eq_refl 30%nat 1%nat I1).
Defined.

(** The detour scenario, evaluated: the goal is visited by the 16th call,
    the path around the wall has 7 nodes. *)
Example detour_scenario :
  resultOf detourGrid 0%nat 2%nat detourHeap 15 = Yield (mkStep [2%nat] visited)
  /\ resultOf detourGrid 0%nat 2%nat detourHeap 16 = Done GoalReached
  /\ getNodesInShortestPathOrder
       7 (heap (stateAfter detourGrid 0%nat 2%nat detourHeap 17)) 2%nat
     = Some [0; 3; 6; 7; 8; 5; 2]%nat
  /\ heuristic detourHeap 0%nat 2%nat = 2.
Proof. repeat split; vm_compute; reflexivity. Qed.

(** * The component's stores *)

Lemma cleanGrid_after_run grid s f h i :
  cleanGrid (heap (stateAfter grid s f h i)) = cleanGrid h.
Proof.
  apply functional_extensionality. intro n.
  pose proof (identity_kept grid s f h i n) as E.
  unfold identity in E. injection E as Er Ec Es Ef Ew.
  unfold cleanGrid, cleanNode. rewrite Er, Ec, Es, Ef, Ew. reflexivity.
Qed.

(** X14: the reset that [initGenerator] applies to the grid undoes all that
    a run wrote: the run on the reset of a store that an earlier run has
    worked on, for any number of calls, gives call by call the results of
    the run on the reset of the store that earlier run began with. *)
Theorem rerun_replays grid s f h i j :
  resultOf grid s f (cleanGrid (heap (stateAfter grid s f h i))) j
  = resultOf grid s f (cleanGrid h) j.
Proof. rewrite cleanGrid_after_run. reflexivity. Qed.

Lemma combine_map_self {A B} (F : A -> B) (l : list A) :
  combine l (map F l) = map (fun i => (i, F i)) l.
Proof. induction l as [|a l IH]; simpl; [|rewrite IH]; reflexivity. Qed.

Lemma indexed_map_seq {B} (F : nat -> B) n :
  indexed (map F (seq 0 n)) = map (fun i => (i, F i)) (seq 0 n).
Proof.
  unfold indexed. rewrite length_map, length_seq. apply combine_map_self.
Qed.

Lemma initialHeap_position sr sc fr fc (C r c : nat) :
  (c < C)%nat ->
  row (initialHeap sr sc fr fc C (r * C + c)%nat) = Z.of_nat r
  /\ col (initialHeap sr sc fr fc C (r * C + c)%nat) = Z.of_nat c.
Proof.
  intro Hc. unfold initialHeap, createNode. simpl.
  assert (D : ((r * C + c) / C = r)%nat).
  { rewrite Nat.div_add_l by lia. rewrite (Nat.div_small c C) by exact Hc.
    lia. }
  assert (M : ((r * C + c) mod C = c)%nat).
  { rewrite (Nat.add_comm (r * C) c), Nat.Div0.mod_add.
    apply Nat.mod_small. exact Hc. }
  rewrite D, M. split; reflexivity.
Qed.

Lemma getInitialGrid_wellFormed sr sc fr fc R C :
  (0 < R)%nat ->
  wellFormed (initialHeap sr sc fr fc C) (getInitialGrid R C) = true.
Proof.
  intro HR. unfold wellFormed.
  destruct (getInitialGrid R C) as [|line0 rest] eqn:E.
  - apply (f_equal (@length _)) in E. unfold getInitialGrid in E.
    rewrite length_map, length_seq in E. simpl in E. lia.
  - rewrite <- E.
    assert (L : forall line, In line (getInitialGrid R C) ->
                             length line = C).
    { intros line Hl. unfold getInitialGrid in Hl. apply in_map_iff in Hl.
      destruct Hl as (r & <- & _). rewrite length_map, length_seq.
      reflexivity. }
    apply andb_true_intro. split.
    + apply forallb_forall. intros line Hl. apply Nat.eqb_eq.
      rewrite (L line Hl). symmetry. apply L. rewrite E. left. reflexivity.
    + unfold getInitialGrid. rewrite indexed_map_seq.
      apply forallb_forall. intros rl Hrl. apply in_map_iff in Hrl.
      destruct Hrl as (r & <- & _). simpl. rewrite indexed_map_seq.
      apply forallb_forall. intros cn Hcn. apply in_map_iff in Hcn.
      destruct Hcn as (c & <- & Hc). apply in_seq in Hc.
      destruct (initialHeap_position sr sc fr fc C r c) as [Er Ec]; [lia|].
      unfold placed. cbn [fst snd]. rewrite Er, Ec, !Z.eqb_refl. reflexivity.
Qed.

(** X15: whatever the numbers of rows and columns, as long as there is a
    row, the grid that [getInitialGrid] builds is one the engine's
    guarantees apply to: rectangular, of that many rows and columns, every
    node carrying its own position, none a wall, the search state cleared;
    and the nodes created with [isStart] or [isFinish] set are the ones at
    the start and the finish position. *)
Theorem initial_grid_ready sr sc fr fc R C :
  (0 < R)%nat ->
  let h := initialHeap sr sc fr fc C in
  let grid := getInitialGrid R C in
  wellFormed h grid = true
  /\ noWalls h grid = true
  /\ unsearched h grid = true
  /\ len grid = Z.of_nat R /\ width grid = Z.of_nat C
  /\ forall n, In n (concat grid) ->
       (isStart (h n) = true <-> cell grid sr sc = Some n)
       /\ (isFinish (h n) = true <-> cell grid fr fc = Some n).
Proof.
  intros HR h grid.
  pose proof (getInitialGrid_wellFormed sr sc fr fc R C HR) as W.
  fold h grid in W.
  split; [exact W|]. split; [|split; [|split; [|split]]].
  - apply forallb_forall. intros n _. reflexivity.
  - apply forallb_forall. intros n _. reflexivity.
  - unfold grid, getInitialGrid, len. rewrite length_map, length_seq.
    reflexivity.
  - unfold grid, getInitialGrid, width. destruct R as [|R]; [lia|].
    simpl. unfold len. rewrite length_map, length_seq. reflexivity.
  - intros n Hn.
    assert (P : forall a b,
              (row (h n) =? a) && (col (h n) =? b) = true
              <-> cell grid a b = Some n).
    { intros a b. split.
      - intro E. apply andb_prop in E. destruct E as [Ea Eb].
        apply Z.eqb_eq in Ea, Eb. subst a b.
        apply (wellFormed_locates _ _ _ W Hn).
      - intro E. destruct (wellFormed_position _ _ _ _ _ W E) as [-> ->].
        rewrite !Z.eqb_refl. reflexivity. }
    split; [apply (P sr sc)|apply (P fr fc)].
Qed.

Lemma initial_grid_ready_witness :
  (0 < 3)%nat
  /\ wellFormed (initialHeap 0 0 2 2 3%nat) (getInitialGrid 3%nat 3%nat) = true
  /\ noWalls (initialHeap 0 0 2 2 3%nat) (getInitialGrid 3%nat 3%nat) = true.
Proof.
  split; [exact (Nat.lt_0_succ 2)|].
  pose proof (initial_grid_ready 0 0 2 2 3%nat 3%nat (Nat.lt_0_succ 2)) as H.
  simpl in H. split; [apply H|apply H].
Defined.

(** * Wall painting *)

Lemma idx_map {A B} (F : A -> B) (l : list A) i :
  idx (map F l) i = option_map F (idx l i).
Proof. unfold idx. destruct (i <? 0); [reflexivity|]. apply nth_error_map. Qed.

Lemma assign_length {A} (a : list A) i x : length (assign a i x) = length a.
Proof.
  revert i. induction a as [|y a IH]; intros [|i]; simpl; auto.
Qed.

Lemma nth_error_assign_same {A} (a : list A) i x y :
  nth_error a i = Some y -> nth_error (assign a i x) i = Some x.
Proof.
  revert i. induction a as [|z a IH]; intros [|i] E; simpl in *;
    try discriminate; auto.
Qed.

Lemma nth_error_assign_other {A} (a : list A) i j x :
  i <> j -> nth_error (assign a i x) j = nth_error a j.
Proof.
  revert i j. induction a as [|z a IH]; intros [|i] [|j] E; simpl;
    try reflexivity; try congruence.
  apply IH. congruence.
Qed.

Lemma idx_assign_same {A} (a : list A) i x y :
  idx a i = Some y -> idx (assign a (Z.to_nat i) x) i = Some x.
Proof.
  unfold idx. destruct (i <? 0); [discriminate|].
  apply nth_error_assign_same.
Qed.

Lemma idx_assign_other {A} (a : list A) i j x :
  0 <= i -> i <> j -> idx (assign a (Z.to_nat i) x) j = idx a j.
Proof.
  intros Hi Hij. unfold idx. destruct (Z.ltb_spec j 0); [reflexivity|].
  apply nth_error_assign_other. lia.
Qed.

Lemma cell_cellsOf st grid r c :
  cell (cellsOf st grid) r c
  = match idx grid r with
    | Some rr => idx (rowAt st rr) c
    | None => None
    end.
Proof.
  unfold cell, cellsOf. rewrite idx_map. destruct (idx grid r); reflexivity.
Qed.

Lemma In_cell grid n :
  In n (concat grid) -> exists r c, cell grid r c = Some n.
Proof.
  intro Hn. apply in_concat in Hn. destruct Hn as (line & Hl & Hn).
  destruct (idx_of_In _ _ Hl) as [r Er].
  destruct (idx_of_In _ _ Hn) as [c Ec].
  exists r, c. unfold cell. rewrite Er. exact Ec.
Qed.

(** The two ways a toggle returns. *)
Lemma toggle_cases st grid r0 c0 st' grid' :
  getNewGridWithWallToggled st grid r0 c0 = Some (st', grid') ->
  exists r n,
    idx grid r0 = Some r /\ idx (rowAt st r) c0 = Some n /\ grid' = grid
    /\ ((isStart (nodeAt st n) || isFinish (nodeAt st n) = true /\ st' = st)
        \/ (isStart (nodeAt st n) || isFinish (nodeAt st n) = false
            /\ st' = mkStore
                       (upd (nodeAt st) (fresh st) (toggled (nodeAt st n)))
                       (fun r' => if Nat.eqb r' r
                                  then assign (rowAt st r) (Z.to_nat c0)
                                              (fresh st)
                                  else rowAt st r')
                       (S (fresh st)))).
Proof.
  unfold getNewGridWithWallToggled.
  destruct (idx grid r0) as [r|] eqn:Er; [|discriminate].
  destruct (idx (rowAt st r) c0) as [n|] eqn:En; [|discriminate].
  destruct (isStart (nodeAt st n) || isFinish (nodeAt st n)) eqn:E;
    intros [= <- <-]; exists r, n; (split; [reflexivity|]);
    (split; [exact En|]); (split; [reflexivity|]);
    [left|right]; split; auto.
Qed.

Lemma toggle_none_cell st grid r c :
  getNewGridWithWallToggled st grid r c = None
  <-> cell (cellsOf st grid) r c = None.
Proof.
  rewrite cell_cellsOf. unfold getNewGridWithWallToggled.
  destruct (idx grid r) as [rr|]; [|tauto].
  destruct (idx (rowAt st rr) c) as [n|]; [|tauto].
  destruct (isStart (nodeAt st n) || isFinish (nodeAt st n));
    split; discriminate.
Qed.

(** X16: on a well-formed grid a toggle throws exactly when the position
    given is outside the grid: a row index that is negative or not below
    the number of rows, or a column index that is negative or not below the
    number of columns. *)
Theorem toggle_throws_iff st grid r c :
  wellFormed (nodeAt st) (cellsOf st grid) = true ->
  getNewGridWithWallToggled st grid r c = None
  <-> ~ (0 <= r < len grid /\ 0 <= c < width (cellsOf st grid)).
Proof.
  intro W. rewrite toggle_none_cell.
  assert (L : len (cellsOf st grid) = len grid)
    by (unfold len, cellsOf; rewrite length_map; reflexivity).
  split.
  - intros E [Hr Hc]. rewrite <- L in Hr.
    destruct (cell_Some _ _ r c W Hr Hc) as [n En]. congruence.
  - intro N. destruct (cell (cellsOf st grid) r c) as [n|] eqn:E;
      [|reflexivity].
    exfalso. apply N. rewrite <- L. apply (cell_range _ _ _ _ _ W E).
Qed.

Lemma toggle_throws_iff_witness :
  wellFormed (nodeAt paintStore) (cellsOf paintStore paintRows) = true
  /\ (getNewGridWithWallToggled paintStore paintRows 3 0 = None
      <-> ~ (0 <= 3 < len paintRows
             /\ 0 <= 0 < width (cellsOf paintStore paintRows))).
Proof.
  split; [reflexivity|].
  apply (toggle_throws_iff paintStore paintRows 3 0). reflexivity.
Defined.

Lemma combine_seq_In {A} (l : list A) a i x :
  In (i, x) (combine (seq a (length l)) l) ->
  (a <= i)%nat /\ nth_error l (i - a) = Some x.
Proof.
  revert a. induction l as [|y l IH]; intros a H; simpl in H; [contradiction|].
  destruct H as [H|H].
  - injection H as <- <-. rewrite Nat.sub_diag. split; [lia|reflexivity].
  - apply IH in H. destruct H as [H1 H2]. split; [lia|].
    replace (i - a)%nat with (S (i - S a)) by lia. exact H2.
Qed.

Lemma indexed_In {A} (l : list A) i x :
  In (i, x) (indexed l) -> idx l (Z.of_nat i) = Some x.
Proof.
  intro H. apply combine_seq_In in H. destruct H as [_ H].
  rewrite Nat.sub_0_r in H. unfold idx.
  destruct (Z.ltb_spec (Z.of_nat i) 0); [lia|]. rewrite Nat2Z.id. exact H.
Qed.

(** A grid is well formed as soon as it has a row, its rows have one
    length and every cell carries its position. *)
Lemma wellFormed_intro h grid :
  grid <> [] ->
  (forall line, In line grid -> len line = width grid) ->
  (forall r c n, cell grid r c = Some n -> row (h n) = r /\ col (h n) = c) ->
  wellFormed h grid = true.
Proof.
  intros Hne Hlen Hpos. destruct grid as [|line0 rest]; [congruence|].
  unfold wellFormed. apply andb_true_intro. split.
  - apply forallb_forall. intros line Hl. apply Nat.eqb_eq.
    specialize (Hlen line Hl). unfold width, len in Hlen. lia.
  - apply forallb_forall. intros [r line] Hrl. apply indexed_In in Hrl.
    cbn [fst snd]. apply forallb_forall. intros [c n] Hcn.
    apply indexed_In in Hcn. unfold placed. cbn [fst snd].
    destruct (Hpos (Z.of_nat r) (Z.of_nat c) n) as [-> ->].
    { unfold cell. rewrite Hrl. exact Hcn. }
    rewrite !Z.eqb_refl. reflexivity.
Qed.

(** What a toggle that writes leaves in every cell. *)
Lemma toggle_cell st grid r n c0 r' c' m :
  (forall x, In x (concat (cellsOf st grid)) -> (x < fresh st)%nat) ->
  idx (rowAt st r) c0 = Some n ->
  cell (cellsOf (mkStore
                   (upd (nodeAt st) (fresh st) (toggled (nodeAt st n)))
                   (fun x => if Nat.eqb x r
                             then assign (rowAt st r) (Z.to_nat c0) (fresh st)
                             else rowAt st x)
                   (S (fresh st))) grid) r' c' = Some m ->
  (m = fresh st /\ cell (cellsOf st grid) r' c' = Some n)
  \/ (m <> fresh st /\ cell (cellsOf st grid) r' c' = Some m).
Proof.
  intros F En. rewrite !cell_cellsOf. simpl.
  destruct (idx grid r') as [rr|] eqn:Er; [|discriminate].
  assert (Old : idx (rowAt st rr) c' = Some m ->
                m <> fresh st /\ idx (rowAt st rr) c' = Some m).
  { intro E. split; [|exact E].
    assert (H : In m (concat (cellsOf st grid))).
    { apply (cell_In _ r' c'). rewrite cell_cellsOf, Er. exact E. }
    apply F in H. lia. }
  destruct (Nat.eqb_spec rr r) as [-> |Hrr]; [|intro E; right; auto].
  destruct (Z.eq_dec c' c0) as [-> |Hc].
  - rewrite (idx_assign_same _ _ _ _ En). intros [= <-]. left. auto.
  - rewrite idx_assign_other; [intro E; right; auto| |congruence].
    apply (idx_range _ _ _ En).
Qed.

Lemma ready_toggle sr sc fr fc st grid r0 c0 st' grid' :
  Ready sr sc fr fc st grid ->
  getNewGridWithWallToggled st grid r0 c0 = Some (st', grid') ->
  Ready sr sc fr fc st' grid'.
Proof.
  intros Rd T.
  destruct (toggle_cases _ _ _ _ _ _ T)
    as (r & n & Er & En & -> & [[_ ->]|[Ends ->]]); [exact Rd|].
  pose proof (r_wf _ _ _ _ _ _ Rd) as W.
  pose proof (r_fresh _ _ _ _ _ _ Rd) as F.
  set (st' := mkStore _ _ _).
  assert (Hn : In n (concat (cellsOf st grid))).
  { apply (cell_In _ r0 c0). rewrite cell_cellsOf, Er. exact En. }
  assert (New : nodeAt st' (fresh st) = toggled (nodeAt st n))
    by apply upd_same.
  assert (Old : forall m, m <> fresh st -> nodeAt st' m = nodeAt st m)
    by (intros m Hm; apply upd_other; exact Hm).
  assert (Cell : forall r' c' m,
            cell (cellsOf st' grid) r' c' = Some m ->
            (m = fresh st /\ cell (cellsOf st grid) r' c' = Some n)
            \/ (m <> fresh st /\ cell (cellsOf st grid) r' c' = Some m))
    by (intros r' c' m; apply toggle_cell; assumption).
  assert (Mem : forall m, In m (concat (cellsOf st' grid)) ->
            (m = fresh st /\ In n (concat (cellsOf st grid)))
            \/ (m <> fresh st /\ In m (concat (cellsOf st grid)))).
  { intros m Hm. destruct (In_cell _ _ Hm) as (r' & c' & E).
    destruct (Cell r' c' m E) as [[-> E']|[Hne E']];
      [left|right]; split; auto; eapply cell_In; eassumption. }
  assert (Len : forall x, length (rowAt st' x) = length (rowAt st x)).
  { intro x. simpl. destruct (Nat.eqb_spec x r) as [-> |]; [|reflexivity].
    apply assign_length. }
  assert (Wd : width (cellsOf st' grid) = width (cellsOf st grid)).
  { destruct grid as [|x grid0]; [reflexivity|]. unfold width, len.
    cbn [cellsOf map]. rewrite Len. reflexivity. }
  constructor.
  - apply wellFormed_intro.
    + destruct grid; [rewrite idx_nil in Er; discriminate|discriminate].
    + intros line Hl. rewrite Wd. unfold cellsOf in Hl.
      apply in_map_iff in Hl. destruct Hl as (x & <- & Hx).
      unfold len. rewrite Len.
      apply (wellFormed_rows _ _ _ W). unfold cellsOf.
      apply in_map. exact Hx.
    + intros r' c' m E. destruct (Cell r' c' m E) as [[-> E']|[Hne E']].
      * rewrite New. simpl. apply (wellFormed_position _ _ _ _ _ W E').
      * rewrite (Old m Hne). apply (wellFormed_position _ _ _ _ _ W E').
  - intros m Hm. simpl.
    destruct (Mem m Hm) as [[-> _]|[_ Hm']]; [lia|].
    specialize (F m Hm'). lia.
  - intros m Hm. destruct (Mem m Hm) as [[-> _]|[Hne Hm']].
    + rewrite New. simpl. apply (r_roles _ _ _ _ _ _ Rd n Hn).
    + rewrite (Old m Hne). apply (r_roles _ _ _ _ _ _ Rd m Hm').
  - intros m Hm. destruct (Mem m Hm) as [[-> _]|[Hne Hm']].
    + rewrite New. simpl. rewrite Ends. discriminate.
    + rewrite (Old m Hne). apply (r_ends _ _ _ _ _ _ Rd m Hm').
  - pose proof (r_unsearched _ _ _ _ _ _ Rd) as U. unfold unsearched in *.
    rewrite forallb_forall in U. apply forallb_forall. intros m Hm.
    destruct (Mem m Hm) as [[-> _]|[Hne Hm']].
    + rewrite New. simpl. apply (U n Hn).
    + rewrite (Old m Hne). apply (U m Hm').
Qed.

Lemma ready_initial sr sc fr fc R C :
  (0 < R)%nat ->
  Ready sr sc fr fc (initialStore sr sc fr fc R C) (initialRows R).
Proof.
  intro HR.
  change (cellsOf (initialStore sr sc fr fc R C) (initialRows R))
    with (getInitialGrid R C).
  constructor;
    change (cellsOf (initialStore sr sc fr fc R C) (initialRows R))
      with (getInitialGrid R C);
    change (nodeAt (initialStore sr sc fr fc R C))
      with (initialHeap sr sc fr fc C).
  - apply getInitialGrid_wellFormed. exact HR.
  - intros n Hn. simpl. apply in_concat in Hn.
    destruct Hn as (line & Hl & Hn). unfold getInitialGrid in Hl.
    apply in_map_iff in Hl. destruct Hl as (r & <- & Hr).
    apply in_map_iff in Hn. destruct Hn as (c & <- & Hc).
    apply in_seq in Hr, Hc. nia.
  - intros n _. split; reflexivity.
  - intros n _ _. reflexivity.
  - apply forallb_forall. intros n _. reflexivity.
Qed.

Lemma painted_ready sr sc fr fc st0 grid0 st grid :
  Ready sr sc fr fc st0 grid0 -> Painted st0 grid0 st grid ->
  Ready sr sc fr fc st grid.
Proof.
  intros R0 P. induction P as [|st grid r c st' grid' P IH T]; [exact R0|].
  eapply ready_toggle; eassumption.
Qed.

Lemma painted_shape st0 grid0 st grid :
  Painted st0 grid0 st grid ->
  grid = grid0 /\ forall x, length (rowAt st x) = length (rowAt st0 x).
Proof.
  induction 1 as [|st grid r c st' grid' P [-> IH] T]; [auto|].
  destruct (toggle_cases _ _ _ _ _ _ T)
    as (rr & n & Er & En & -> & [[_ ->]|[_ ->]]); [auto|].
  split; [reflexivity|]. intro x. simpl.
  destruct (Nat.eqb_spec x rr) as [-> |]; [|apply IH].
  rewrite assign_length. apply IH.
Qed.

Lemma toggled_twice node : toggled (toggled node) = node.
Proof. destruct node. unfold toggled. simpl. rewrite negb_involutive. reflexivity. Qed.





(** X18: two toggles of one cell, one after the other, leave in the cell a
    node with the fields of the node they found there, the wall flag
    included: the second undoes the first. *)
Theorem toggle_twice_restores st grid r c st1 grid1 st2 grid2 :
  getNewGridWithWallToggled st grid r c = Some (st1, grid1) ->
  getNewGridWithWallToggled st1 grid1 r c = Some (st2, grid2) ->
  grid2 = grid
  /\ exists n n2,
       cell (cellsOf st grid) r c = Some n
       /\ cell (cellsOf st2 grid2) r c = Some n2
       /\ nodeAt st2 n2 = nodeAt st n.
Proof.
  intros T1 T2.
  destruct (toggle_cases _ _ _ _ _ _ T1)
    as (rr & n & Er & En & -> & Hcase).
  destruct (toggle_cases _ _ _ _ _ _ T2)
    as (rr2 & n1 & Er2 & En1 & -> & Hcase2).
  assert (rr2 = rr) by congruence. subst rr2.
  split; [reflexivity|]. exists n.
  destruct Hcase as [[E ->]|[E ->]].
  - assert (n1 = n) by congruence. subst n1.
    destruct Hcase2 as [[_ ->]|[E2 _]]; [|congruence].
    exists n. rewrite cell_cellsOf, Er. auto.
  - simpl in En1. rewrite Nat.eqb_refl, (idx_assign_same _ _ _ _ En) in En1.
    injection En1 as <-.
    assert (N1 : nodeAt (mkStore
                   (upd (nodeAt st) (fresh st) (toggled (nodeAt st n)))
                   (fun r' => if Nat.eqb r' rr
                              then assign (rowAt st rr) (Z.to_nat c) (fresh st)
                              else rowAt st r')
                   (S (fresh st))) (fresh st)
                 = toggled (nodeAt st n)) by apply upd_same.
    destruct Hcase2 as [[E2 _]|[_ ->]].
    { rewrite N1 in E2. simpl in E2. congruence. }
    exists (S (fresh st)). rewrite !cell_cellsOf, Er. simpl.
    rewrite Nat.eqb_refl. split; [exact En|]. split.
    + apply (idx_assign_same _ _ _ (fresh st)).
      apply (idx_assign_same _ _ _ _ En).
    + rewrite upd_same, upd_same. apply toggled_twice.
Qed.

Lemma toggle_twice_restores_witness :
  exists st2,
    getNewGridWithWallToggled paintStore paintRows 1 1
    = Some (paintedStore, paintRows)
    /\ getNewGridWithWallToggled paintedStore paintRows 1 1
       = Some (st2, paintRows)
    /\ paintRows = paintRows
    /\ exists n n2,
         cell (cellsOf paintStore paintRows) 1 1 = Some n
         /\ cell (cellsOf st2 paintRows) 1 1 = Some n2
         /\ nodeAt st2 n2 = nodeAt paintStore n.
Proof.
  eexists. split; [reflexivity|]. split; [reflexivity|].
  apply (toggle_twice_restores paintStore paintRows 1 1 paintedStore
           paintRows _ paintRows eq_refl eq_refl).
Defined.

(** X19: whatever walls are painted on the grid that [getInitialGrid]
    builds, in whatever order, the grid stays one the engine's guarantees
    apply to: rectangular with the rows and columns it had, every node
    carrying its position, the search state cleared; and the start and the
    finish cell, still the only nodes with [isStart] and [isFinish] set,
    are never walls. *)
Theorem painted_grid_ready sr sc fr fc R C st grid :
  (0 < R)%nat ->
  Painted (initialStore sr sc fr fc R C) (initialRows R) st grid ->
  let h := nodeAt st in
  let cells := cellsOf st grid in
  wellFormed h cells = true
  /\ unsearched h cells = true
  /\ len cells = Z.of_nat R /\ width cells = Z.of_nat C
  /\ forall n, In n (concat cells) ->
       (isStart (h n) = true <-> cell cells sr sc = Some n)
       /\ (isFinish (h n) = true <-> cell cells fr fc = Some n)
       /\ (isStart (h n) = true \/ isFinish (h n) = true ->
           isWall (h n) = false).
Proof.
  intros HR P h cells.
  pose proof (painted_ready sr sc fr fc _ _ _ _
                (ready_initial sr sc fr fc R C HR) P) as Rd.
  destruct (painted_shape _ _ _ _ P) as [Eg Len].
  pose proof (r_wf _ _ _ _ _ _ Rd) as W. fold h cells in W.
  split; [exact W|]. split; [apply (r_unsearched _ _ _ _ _ _ Rd)|].
  split; [|split].
  - unfold cells, cellsOf, len. rewrite length_map, Eg.
    unfold initialRows. rewrite length_seq. reflexivity.
  - unfold cells, cellsOf. rewrite Eg. unfold initialRows.
    destruct R as [|R]; [lia|]. simpl. unfold len. rewrite Len. simpl.
    rewrite length_map, length_seq. reflexivity.
  - intros n Hn.
    destruct (r_roles _ _ _ _ _ _ Rd n Hn) as [Es Ef].
    fold h in Es, Ef.
    assert (Q : forall a b,
              (row (h n) =? a) && (col (h n) =? b) = true
              <-> cell cells a b = Some n).
    { intros a b. split.
      - intro E. apply andb_prop in E. destruct E as [Ea Eb].
        apply Z.eqb_eq in Ea, Eb. subst a b.
        apply (wellFormed_locates _ _ _ W Hn).
      - intro E. destruct (wellFormed_position _ _ _ _ _ W E) as [-> ->].
        rewrite !Z.eqb_refl. reflexivity. }
    rewrite Es, Ef. split; [apply Q|]. split; [apply Q|].
    intro E. apply (r_ends _ _ _ _ _ _ Rd n Hn). fold h.
    rewrite Es, Ef. destruct E as [-> | ->]; [reflexivity|].
    apply orb_true_r.
Qed.

Lemma painted_grid_ready_witness :
  (0 < 3)%nat
  /\ Painted paintStore paintRows paintedStore paintRows
  /\ wellFormed (nodeAt paintedStore) (cellsOf paintedStore paintRows) = true
  /\ unsearched (nodeAt paintedStore) (cellsOf paintedStore paintRows) = true
  /\ len (cellsOf paintedStore paintRows) = 3
  /\ width (cellsOf paintedStore paintRows) = 3
  /\ forall n, In n (concat (cellsOf paintedStore paintRows)) ->
       (isStart (nodeAt paintedStore n) = true
        <-> cell (cellsOf paintedStore paintRows) 0 0 = Some n)
       /\ (isFinish (nodeAt paintedStore n) = true
           <-> cell (cellsOf paintedStore paintRows) 2 2 = Some n)
       /\ (isStart (nodeAt paintedStore n) = true
           \/ isFinish (nodeAt paintedStore n) = true ->
           isWall (nodeAt paintedStore n) = false).
Proof.
  assert (P : Painted paintStore paintRows paintedStore paintRows).
  { apply (painted_toggle _ _ paintStore paintRows 1 1);
      [apply painted_none|reflexivity]. }
  split; [exact (Nat.lt_0_succ 2)|]. split; [exact P|].
  exact (painted_grid_ready 0 0 2 2 3%nat 3%nat paintedStore paintRows
           (Nat.lt_0_succ 2) P).
Defined.

(** * From the component to the engine *)

(** X20: the run that the component starts on a grid built by
    [getInitialGrid] and painted with walls in any way, reset by
    [initGenerator], start and finish cells looked up at their positions,
    never throws; it yields finitely many events and then ends, at the goal
    test if a path of cells that are not walls leads from the start to the
    finish cell, and at the loop's exit if none does. *)
Theorem painted_run_decides_reachability sr sc fr fc R C st grid s f :
  (0 < R)%nat ->
  Painted (initialStore sr sc fr fc R C) (initialRows R) st grid ->
  cell (cellsOf st grid) sr sc = Some s ->
  cell (cellsOf st grid) fr fc = Some f ->
  let h0 := cleanGrid (nodeAt st) in
  let cells := cellsOf st grid in
  exists k,
    (forall i, (i < k)%nat -> exists step, resultOf cells s f h0 i = Yield step)
    /\ ((resultOf cells s f h0 k = Done GoalReached
         /\ Connected h0 cells s f)
        \/ (resultOf cells s f h0 k = Done LoopExit
            /\ ~ Connected h0 cells s f)).
Proof.
  intros HR P Hs Hf h0 cells.
  pose proof (painted_ready sr sc fr fc _ _ _ _
                (ready_initial sr sc fr fc R C HR) P) as Rd.
  assert (W : wellFormed h0 cells = true)
    by (unfold h0; rewrite cleanGrid_wellFormed; apply (r_wf _ _ _ _ _ _ Rd)).
  assert (US : unsearched h0 cells = true) by apply cleanGrid_unsearched.
  assert (Is : In s (concat cells)) by (eapply cell_In; exact Hs).
  destruct (run_ends cells s f h0) as (k & Hy & Hend).
  exists k. split; [exact Hy|].
  destruct Hend as [[Rk _]|[(Rk & j & -> & Rj)|(_ & c & Hpc & Hn)]].
  - right. split; [exact Rk|]. intro Cn.
    destruct (goal_found cells s f h0 W Is US Cn) as (k' & Hy' & _ & Rg).
    destruct (Nat.lt_trichotomy k (S k')) as [Hlt|[-> |Hgt]].
    + destruct (Hy' k) as [step E]; [lia|]. congruence.
    + congruence.
    + destruct (Hy (S k') Hgt) as [step E]. congruence.
  - left. split; [exact Rk|].
    apply (visited_connected cells s f h0 j f W Is Rj).
  - exfalso.
    exact (no_throw_wf cells s h0 _ c W Is
             (stateAfter_inv0 cells s f h0 _) Hpc Hn).
Qed.

Lemma painted_run_decides_reachability_witness :
  (0 < 3)%nat
  /\ Painted paintStore paintRows paintedStore paintRows
  /\ cell (cellsOf paintedStore paintRows) 0 0 = Some 0%nat
  /\ cell (cellsOf paintedStore paintRows) 2 2 = Some 8%nat
  /\ exists k,
       (forall i, (i < k)%nat ->
          exists step,
            resultOf (cellsOf paintedStore paintRows) 0%nat 8%nat
                     (cleanGrid (nodeAt paintedStore)) i = Yield step)
       /\ ((resultOf (cellsOf paintedStore paintRows) 0%nat 8%nat
                     (cleanGrid (nodeAt paintedStore)) k = Done GoalReached
            /\ Connected (cleanGrid (nodeAt paintedStore))
                         (cellsOf paintedStore paintRows) 0%nat 8%nat)
           \/ (resultOf (cellsOf paintedStore paintRows) 0%nat 8%nat
                        (cleanGrid (nodeAt paintedStore)) k = Done LoopExit
               /\ ~ Connected (cleanGrid (nodeAt paintedStore))
                              (cellsOf paintedStore paintRows) 0%nat 8%nat)).
Proof.
  assert (P : Painted paintStore paintRows paintedStore paintRows).
  { apply (painted_toggle _ _ paintStore paintRows 1 1);
      [apply painted_none|reflexivity]. }
  split; [exact (Nat.lt_0_succ 2)|]. split; [exact P|].
  split; [reflexivity|]. split; [reflexivity|].
  exact (painted_run_decides_reachability 0 0 2 2 3%nat 3%nat paintedStore
           paintRows 0%nat 8%nat (Nat.lt_0_succ 2) P eq_refl eq_refl).
Defined.
